(** * Two Flags: a pawn-only board game and its search engine

    A shallow embedding of [two_flags.py]: the position model
    ([GameState]), the move generator, the terminal detector, the
    evaluator and the iterative-deepening negamax engine
    ([TwoFlagsAI]), followed by the properties proved about them.

    Conventions.
    - Python [int] is [Z].  [float('inf')] and [float('-inf')], which the
      engine uses as window bounds, are the two extra points of [ext].
    - A Python one-character [str] is an [ascii] (code points 0..255); a
      [str] is a [string].  Text that can hold any character of Unicode
      is a list of code points ([text]); the functions that read text
      are given on both, and agree on the strings.
    - A Python exception is a constructor of [exn]; code that may raise
      returns a [result].
    - [list] indexing follows Python: a negative index counts from the
      end, an index outside the list raises [IndexError]. *)

From Stdlib Require Import ZArith Bool Ascii String DecimalString.
From Stdlib Require Import List Permutation Lia.
From Stdlib Require Import Sorted.
Import ListNotations.
Open Scope Z_scope.

(* ================================================================= *)
(** * Exceptions and results *)

Inductive exn : Type :=
| TimeoutError   (* raised by the engine when the deadline has passed *)
| IndexError     (* list index out of range *)
| ValueError     (* int() of a non-digit *)
| TypeError      (* an object of the wrong kind *)
| OverflowError  (* chr() of an int outside the range of a C int *)
| OutsideModel   (* a character above code point 255, which the model
                    does not have *)
| OutOfFuel.     (* the recursion bound of the model was hit (never, see
                    [alpha_beta_benign]) *)

Inductive result (A : Type) : Type :=
| Ok (a : A)
| Raise (e : exn).
Arguments Ok {A} a.
Arguments Raise {A} e.

Definition rbind {A B} (r : result A) (k : A -> result B) : result B :=
  match r with
  | Ok a => k a
  | Raise e => Raise e
  end.

Declare Scope result_scope.
Delimit Scope result_scope with result.
Notation "x <- r ;; k" := (rbind r (fun x => k))
  (at level 61, r at next level, right associativity) : result_scope.

Definition of_option {A} (e : exn) (o : option A) : result A :=
  match o with
  | Some a => Ok a
  | None => Raise e
  end.

(* ================================================================= *)
(** * Python lists *)

Section PyList.
Context {A : Type}.

(** [l[i]] *)
Definition py_index (l : list A) (i : Z) : result A :=
  let n := Z.of_nat (List.length l) in
  if (0 <=? i) && (i <? n) then of_option IndexError (nth_error l (Z.to_nat i))
  else if (- n <=? i) && (i <? 0) then
    of_option IndexError (nth_error l (Z.to_nat (i + n)))
  else Raise IndexError.

Fixpoint list_update (l : list A) (k : nat) (x : A) : list A :=
  match l, k with
  | [], _ => []
  | _ :: t, O => x :: t
  | y :: t, S k' => y :: list_update t k' x
  end.

(** [l[i] = x] *)
Definition py_setitem (l : list A) (i : Z) (x : A) : result (list A) :=
  let n := Z.of_nat (List.length l) in
  if (0 <=? i) && (i <? n) then Ok (list_update l (Z.to_nat i) x)
  else if (- n <=? i) && (i <? 0) then Ok (list_update l (Z.to_nat (i + n)) x)
  else Raise IndexError.
End PyList.

(** [range(n)] *)
Definition range (n : Z) : list Z := map Z.of_nat (seq 0 (Z.to_nat n)).

(* ================================================================= *)
(** * Constants *)

Definition BOARD_SIZE : Z := 8.
Definition WHITE : ascii := "W"%char.
Definition BLACK : ascii := "B"%char.
Definition EMPTY : ascii := "."%char.

Definition PAWN_VALUE : Z := 100.
Definition WIN_VALUE : Z := 10000.

(* ================================================================= *)
(** * Positions *)

(** A move is the tuple [(from_col, from_row, to_col, to_row)]. *)
Definition move : Type := Z * Z * Z * Z.

Definition square : Type := Z * Z.

Definition square_eqb (a b : square) : bool :=
  (fst a =? fst b) && (snd a =? snd b).

Definition move_eqb (a b : move) : bool :=
  let '(a1, a2, a3, a4) := a in
  let '(b1, b2, b3, b4) := b in
  (a1 =? b1) && (a2 =? b2) && (a3 =? b3) && (a4 =? b4).

Definition board_t : Type := list (list ascii).

Record GameState : Type := mkGameState {
  board : board_t;
  current_player : ascii;
  en_passant_target : option square;
  move_history : list move
}.

(** Every [GameState] the program builds has eight rows of eight cells:
    [__init__], [setup_from_string] and [copy] all produce that shape and
    [make_move] keeps it ([make_move_wf]). *)
Definition wf_board (b : board_t) : Prop :=
  List.length b = 8%nat /\ Forall (fun r => List.length r = 8%nat) b.

Definition wf_boardb (b : board_t) : bool :=
  (List.length b =? 8)%nat && forallb (fun r => (List.length r =? 8)%nat) b.

Definition empty_board : board_t :=
  map (fun _ => map (fun _ => EMPTY) (range BOARD_SIZE)) (range BOARD_SIZE).

(** [GameState.__init__] *)
Definition new_GameState : GameState :=
  {| board := empty_board;
     current_player := WHITE;
     en_passant_target := None;
     move_history := [] |}.

(** [self.board[row][col]] *)
Definition board_get (b : board_t) (row col : Z) : result ascii :=
  (r <- py_index b row ;; py_index r col)%result.

(** [self.board[row][col] = v] *)
Definition board_set (b : board_t) (row col : Z) (v : ascii) : result board_t :=
  (r <- py_index b row ;;
   r' <- py_setitem r col v ;;
   py_setitem b row r')%result.

(** A read at indices the code has already checked to lie in [0, 8): on
    a well-formed board it cannot raise, and the model reads it
    totally. *)
Definition cell_at (b : board_t) (col row : Z) : ascii :=
  match board_get b row col with
  | Ok c => c
  | Raise _ => EMPTY
  end.

Definition with_board (s : GameState) (b : board_t) : GameState :=
  {| board := b;
     current_player := current_player s;
     en_passant_target := en_passant_target s;
     move_history := move_history s |}.

(** [setup_initial_position] *)
Definition setup_initial_position (s : GameState) : result GameState :=
  (b1 <- fold_left (fun rb col => (b <- rb ;; board_set b 1 col WHITE)%result)
           (range BOARD_SIZE) (Ok (board s)) ;;
   b2 <- fold_left (fun rb col => (b <- rb ;; board_set b 6 col BLACK)%result)
           (range BOARD_SIZE) (Ok b1) ;;
   Ok (with_board s b2))%result.

(** [is_valid_pos] *)
Definition is_valid_pos (col row : Z) : bool :=
  (0 <=? col) && (col <? BOARD_SIZE) && (0 <=? row) && (row <? BOARD_SIZE).

(** [get_piece]: [None] off the board *)
Definition get_piece (s : GameState) (col row : Z) : option ascii :=
  if is_valid_pos col row then Some (cell_at (board s) col row) else None.

(** [get_all_pieces] *)
Definition get_all_pieces (b : board_t) (color : ascii) : list square :=
  flat_map (fun row =>
    flat_map (fun col =>
      if Ascii.eqb (cell_at b col row) color then [(col, row)] else [])
      (range BOARD_SIZE))
    (range BOARD_SIZE).

Definition other_player (player : ascii) : ascii :=
  if Ascii.eqb player WHITE then BLACK else WHITE.

(** [self.en_passant_target and (c, r) == self.en_passant_target]: a
    non-empty tuple is truthy, so the test is the comparison. *)
Definition is_ep_target (ep : option square) (c r : Z) : bool :=
  match ep with
  | Some t => square_eqb (c, r) t
  | None => false
  end.

(** The moves [generate_moves] appends for the pawn on [(col, row)]. *)
Definition pawn_moves (s : GameState) (col row : Z) : list move :=
  let b := board s in
  let player := current_player s in
  let direction := if Ascii.eqb player WHITE then 1 else -1 in
  let start_row := if Ascii.eqb player WHITE then 1 else 6 in
  let opponent := other_player player in
  let new_row := row + direction in
  (if is_valid_pos col new_row && Ascii.eqb (cell_at b col new_row) EMPTY then
     (col, row, col, new_row) ::
     (if row =? start_row then
        let new_row2 := row + 2 * direction in
        if is_valid_pos col new_row2 && Ascii.eqb (cell_at b col new_row2) EMPTY
        then [(col, row, col, new_row2)] else []
      else [])
   else [])
  ++
  flat_map (fun dcol =>
    let new_col := col + dcol in
    if is_valid_pos new_col new_row then
      let target := cell_at b new_col new_row in
      if Ascii.eqb target opponent then [(col, row, new_col, new_row)]
      else if is_ep_target (en_passant_target s) new_col new_row then
        if Ascii.eqb (cell_at b new_col row) opponent
        then [(col, row, new_col, new_row)] else []
      else []
    else [])
    [-1; 1].

(** [generate_moves] *)
Definition generate_moves (s : GameState) : list move :=
  flat_map (fun p => pawn_moves s (fst p) (snd p))
    (get_all_pieces (board s) (current_player s)).

(** [make_move] on position values.  [copy] duplicates every row and the
    history, so on values it is the identity; the object-level account,
    with the aliasing, is [Heap.make_move] below. *)
Definition make_move (s : GameState) (m : move) : result GameState :=
  let '(from_col, from_row, to_col, to_row) := m in
  (piece <- board_get (board s) from_row from_col ;;
   b1 <- (if is_ep_target (en_passant_target s) to_col to_row
          then board_set (board s) from_row to_col EMPTY
          else Ok (board s)) ;;
   b2 <- board_set b1 from_row from_col EMPTY ;;
   b3 <- board_set b2 to_row to_col piece ;;
   let ep := if Z.abs (to_row - from_row) =? 2
             then Some (to_col, (from_row + to_row) / 2)
             else None in
   Ok {| board := b3;
         current_player := other_player (current_player s);
         en_passant_target := ep;
         move_history := move_history s ++ [m] |})%result.

(** The first loop of [is_terminal]: files a to h in turn, and in each
    file the white test before the black one. *)
Fixpoint reached_end (b : board_t) (cols : list Z) : option ascii :=
  match cols with
  | [] => None
  | col :: rest =>
      if Ascii.eqb (cell_at b col 7) WHITE then Some WHITE
      else if Ascii.eqb (cell_at b col 0) BLACK then Some BLACK
      else reached_end b rest
  end.

(** [is_terminal] *)
Definition is_terminal (s : GameState) : bool * option ascii :=
  match reached_end (board s) (range BOARD_SIZE) with
  | Some w => (true, Some w)
  | None =>
      let white_pawns := List.length (get_all_pieces (board s) WHITE) in
      let black_pawns := List.length (get_all_pieces (board s) BLACK) in
      if (white_pawns =? 0)%nat then (true, Some BLACK)
      else if (black_pawns =? 0)%nat then (true, Some WHITE)
      else
        let moves := generate_moves s in
        if (List.length moves =? 0)%nat then
          (true, Some (other_player (current_player s)))
        else (false, None)
  end.

(* ================================================================= *)
(** * Moves as text *)

(** [ord(c)] *)
Definition ord (c : ascii) : Z := Z.of_N (N_of_ascii c).

(** [chr(n)]: [ValueError] below zero and from [0x110000] on, and
    [OverflowError] outside the range of a C [int].  The characters from
    256 on are not in these strings ([chr_w] below has them). *)
Definition chr (n : Z) : result ascii :=
  if (0 <=? n) && (n <? 256) then Ok (ascii_of_N (Z.to_N n))
  else if (0 <=? n) && (n <? 1114112) then Raise OutsideModel
  else if (-2147483648 <=? n) && (n <? 2147483648) then Raise ValueError
  else Raise OverflowError.

(** [str(n)] for an [int] *)
Definition str (n : Z) : string := NilZero.string_of_int (Z.to_int n).

(** [int(c)] for a one-character string of these strings, whose
    characters lie below 256: the digits 0 to 9 have a value, every
    other character below 256 raises [ValueError].  ([int] also accepts
    the decimal digits of the other scripts of Unicode, all of them
    above 255: [int_of_point] below is [int] on any character, and
    [int_of_char_point] relates the two.) *)
Definition int_of_char (c : ascii) : result Z :=
  let n := ord c in
  if (48 <=? n) && (n <=? 57) then Ok (n - 48) else Raise ValueError.

(** [s[i]] for [i >= 0] *)
Definition str_index (s : string) (i : nat) : result ascii :=
  of_option IndexError (String.get i s).

(** [move_to_string] *)
Definition move_to_string (m : move) : result string :=
  let '(from_col, from_row, to_col, to_row) := m in
  (c1 <- chr (ord "a" + from_col) ;;
   c2 <- chr (ord "a" + to_col) ;;
   Ok (String c1 (str (from_row + 1)) ++ String c2 (str (to_row + 1)))%string
  )%result.

(** [string_to_move]: [Ok None] is the [None] the callers report as
    "could not parse". *)
Definition string_to_move (move_str : string) : result (option move) :=
  if (String.length move_str <? 4)%nat then Ok None
  else
    (c0 <- str_index move_str 0 ;;
     let from_col := ord c0 - ord "a" in
     c1 <- str_index move_str 1 ;;
     d1 <- int_of_char c1 ;;
     let from_row := d1 - 1 in
     c2 <- str_index move_str 2 ;;
     let to_col := ord c2 - ord "a" in
     c3 <- str_index move_str 3 ;;
     d3 <- int_of_char c3 ;;
     let to_row := d3 - 1 in
     Ok (Some (from_col, from_row, to_col, to_row)))%result.

(** The characters [str.split()] treats as separators, among the code
    points below 256. *)
Definition is_space (c : ascii) : bool :=
  let n := ord c in
  ((9 <=? n) && (n <=? 13)) || ((28 <=? n) && (n <=? 32))
  || (n =? 133) || (n =? 160).

Definition flush_token (cur : string) : list string :=
  match cur with
  | EmptyString => []
  | _ => [cur]
  end.

Fixpoint split_from (s cur : string) : list string :=
  match s with
  | EmptyString => flush_token cur
  | String c rest =>
      if is_space c then flush_token cur ++ split_from rest EmptyString
      else split_from rest (cur ++ String c EmptyString)
  end.

(** [s.split()] *)
Definition str_split (s : string) : list string := split_from s EmptyString.

(** One iteration of the loop of [setup_from_string]. *)
Definition place_piece (b : board_t) (piece : string) : result board_t :=
  if (3 <=? String.length piece)%nat then
    (color <- str_index piece 0 ;;
     c1 <- str_index piece 1 ;;
     let col := ord c1 - ord "a" in
     c2 <- str_index piece 2 ;;
     d <- int_of_char c2 ;;
     let row := d - 1 in
     if (0 <=? col) && (col <? 8) && (0 <=? row) && (row <? 8)
     then board_set b row col color
     else Ok b)%result
  else Ok b.

Fixpoint place_pieces (b : board_t) (parts : list string) : result board_t :=
  match parts with
  | [] => Ok b
  | piece :: rest => (b' <- place_piece b piece ;; place_pieces b' rest)%result
  end.

(** [setup_from_string] *)
Definition setup_from_string (s : GameState) (setup_str : string)
  : result GameState :=
  let parts := str_split setup_str in
  (p0 <- py_index parts 0 ;;
   let parts := if String.eqb p0 "Setup" then tl parts else parts in
   b <- place_pieces empty_board parts ;;
   Ok (with_board s b))%result.

(* ================================================================= *)
(** * Evaluator *)

Record Evaluator : Type := mkEvaluator {
  advancement_weight : Z;
  material_weight : Z;
  passed_pawn_weight : Z;
  center_weight : Z
}.

(** [Evaluator.__init__] *)
Definition new_Evaluator : Evaluator :=
  {| advancement_weight := 10;
     material_weight := 100;
     passed_pawn_weight := 30;
     center_weight := 5 |}.

(** The [while] loop of [is_passed_pawn].  [None] when the bound on the
    iterations is used up, which [passed_loop_total] excludes for the
    bound [is_passed_pawn] passes. *)
Fixpoint passed_loop (fuel : nat) (b : board_t) (col check_row direction : Z)
    (opponent : ascii) : option bool :=
  match fuel with
  | O => None
  | S fuel' =>
      if (0 <=? check_row) && (check_row <? 8) then
        if existsb (fun check_col =>
                      (0 <=? check_col) && (check_col <? 8)
                      && Ascii.eqb (cell_at b check_col check_row) opponent)
             [col - 1; col; col + 1]
        then Some false
        else passed_loop fuel' b col (check_row + direction) direction opponent
      else Some true
  end.

(** [is_passed_pawn] *)
Definition is_passed_pawn (b : board_t) (col row : Z) (color : ascii) : bool :=
  let opponent := other_player color in
  let direction := if Ascii.eqb color WHITE then 1 else -1 in
  match passed_loop 9 b col (row + direction) direction opponent with
  | Some r => r
  | None => true
  end.

(** [advancement] of a pawn of [color] on [row] *)
Definition advancement_of (color : ascii) (row : Z) : Z :=
  if Ascii.eqb color WHITE then row else 7 - row.

(** Body of the loop over [my_pawns] in [evaluate]. *)
Definition eval_my_pawn (ev : Evaluator) (b : board_t) (color : ascii)
    (score : Z) (p : square) : Z :=
  let '(col, row) := p in
  let advancement := advancement_of color row in
  let score := score + advancement * advancement_weight ev in
  let score :=
    if is_passed_pawn b col row color
    then score + (passed_pawn_weight ev + advancement * 5) else score in
  if (2 <=? col) && (col <=? 5) then score + center_weight ev else score.

(** Body of the loop over [opp_pawns] in [evaluate]. *)
Definition eval_opp_pawn (ev : Evaluator) (b : board_t) (opponent : ascii)
    (score : Z) (p : square) : Z :=
  let '(col, row) := p in
  let advancement := advancement_of opponent row in
  let score := score - advancement * advancement_weight ev in
  if is_passed_pawn b col row opponent
  then score - (passed_pawn_weight ev + advancement * 5) else score.

(** [Evaluator.evaluate] *)
Definition evaluate (ev : Evaluator) (state : GameState)
    (maximizing_color : ascii) : Z :=
  let '(is_over, winner) := is_terminal state in
  if is_over then
    match winner with
    | Some w => if Ascii.eqb w maximizing_color then WIN_VALUE else - WIN_VALUE
    | None => 0
    end
  else
    let score := 0 in
    let opponent := other_player maximizing_color in
    let my_pawns := get_all_pieces (board state) maximizing_color in
    let opp_pawns := get_all_pieces (board state) opponent in
    let score :=
      score + (Z.of_nat (List.length my_pawns) - Z.of_nat (List.length opp_pawns))
              * material_weight ev in
    let score :=
      fold_left (eval_my_pawn ev (board state) maximizing_color) my_pawns score in
    fold_left (eval_opp_pawn ev (board state) opponent) opp_pawns score.

(* ================================================================= *)
(** * Scores with the two infinities *)

Inductive ext : Type :=
| NegInf
| Fin (z : Z)
| PosInf.

(** unary minus *)
Definition ext_neg (x : ext) : ext :=
  match x with
  | NegInf => PosInf
  | Fin z => Fin (- z)
  | PosInf => NegInf
  end.

(** [x < y] *)
Definition ext_ltb (x y : ext) : bool :=
  match x, y with
  | _, NegInf => false
  | NegInf, _ => true
  | PosInf, _ => false
  | _, PosInf => true
  | Fin a, Fin b => a <? b
  end.

(** [x <= y] *)
Definition ext_leb (x y : ext) : bool := negb (ext_ltb y x).

(** [max(x, y)]: the first argument unless the second is greater *)
Definition py_max (x y : ext) : ext := if ext_ltb x y then y else x.

Definition ext_le (x y : ext) : Prop := ext_leb x y = true.
Definition ext_lt (x y : ext) : Prop := ext_ltb x y = true.

(* ================================================================= *)
(** * Search engine *)

(** The engine object.  Its wall-clock fields ([start_time],
    [move_time_limit], [time_limit], [time_used]) are floats read from
    the system clock; the model keeps instead the number of times the
    clock has been read, and takes the answers of [should_stop] from an
    oracle indexed by that number. *)
Record TwoFlagsAI : Type := mkAI {
  color : ascii;
  evaluator : Evaluator;
  nodes_searched : Z;
  max_depth_reached : Z;
  clock_reads : nat
}.

(** [TwoFlagsAI.__init__] *)
Definition new_TwoFlagsAI (c : ascii) : TwoFlagsAI :=
  {| color := c;
     evaluator := new_Evaluator;
     nodes_searched := 0;
     max_depth_reached := 0;
     clock_reads := 0 |}.

(** Methods of the engine: they read and update [self] and may raise. *)
Definition M (A : Type) : Type := TwoFlagsAI -> result A * TwoFlagsAI.

Definition ret {A} (a : A) : M A := fun self => (Ok a, self).

Definition raise {A} (e : exn) : M A := fun self => (Raise e, self).

Definition bind {A B} (m : M A) (k : A -> M B) : M B :=
  fun self =>
    match m self with
    | (Ok a, self') => k a self'
    | (Raise e, self') => (Raise e, self')
    end.

Definition lift {A} (r : result A) : M A := fun self => (r, self).

Declare Scope engine_scope.
Delimit Scope engine_scope with engine.
Notation "x <- m ;; k" := (bind m (fun x => k))
  (at level 61, m at next level, right associativity) : engine_scope.
Notation "m ;; k" := (bind m (fun _ => k))
  (at level 61, right associativity) : engine_scope.

(** [self.nodes_searched += 1] *)
Definition count_node : M unit :=
  fun self =>
    (Ok tt, {| color := color self;
               evaluator := evaluator self;
               nodes_searched := nodes_searched self + 1;
               max_depth_reached := max_depth_reached self;
               clock_reads := clock_reads self |}).

(** [self.nodes_searched = 0] *)
Definition reset_nodes : M unit :=
  fun self =>
    (Ok tt, {| color := color self;
               evaluator := evaluator self;
               nodes_searched := 0;
               max_depth_reached := max_depth_reached self;
               clock_reads := clock_reads self |}).

(** [self.max_depth_reached = depth] *)
Definition set_max_depth (depth : Z) : M unit :=
  fun self =>
    (Ok tt, {| color := color self;
               evaluator := evaluator self;
               nodes_searched := nodes_searched self;
               max_depth_reached := depth;
               clock_reads := clock_reads self |}).

(** Sorting key of [order_moves] for one move. *)
Definition move_score (state : GameState) (m : move) : result Z :=
  let '(from_col, from_row, to_col, to_row) := m in
  let opponent := other_player (current_player state) in
  let score := 0 in
  (target <- board_get (board state) to_row to_col ;;
   let score := if Ascii.eqb target opponent then score + 100 else score in
   let score := if is_ep_target (en_passant_target state) to_col to_row
                then score + 100 else score in
   let score := if Ascii.eqb (current_player state) WHITE
                then score + to_row * 5 else score + (7 - to_row) * 5 in
   let score := if (2 <=? to_col) && (to_col <=? 5) then score + 3 else score in
   Ok score)%result.

Fixpoint score_moves (state : GameState) (moves : list move)
  : result (list (Z * move)) :=
  match moves with
  | [] => Ok []
  | m :: rest =>
      (sc <- move_score state m ;;
       tl' <- score_moves state rest ;;
       Ok ((sc, m) :: tl'))%result
  end.

(** [list.sort(key=..., reverse=True)]: descending and stable, so an
    element goes in front of the first one whose key is not greater. *)
Fixpoint insert_desc (x : Z * move) (l : list (Z * move)) : list (Z * move) :=
  match l with
  | [] => [x]
  | y :: t => if fst x <? fst y then y :: insert_desc x t else x :: y :: t
  end.

Definition sort_desc (l : list (Z * move)) : list (Z * move) :=
  fold_right insert_desc [] l.

(** [order_moves] *)
Definition order_moves (state : GameState) (moves : list move)
  : result (list move) :=
  (scored_moves <- score_moves state moves ;;
   Ok (map snd (sort_desc scored_moves)))%result.

Section Engine.
(** [deadline k]: does the [k]-th reading of the clock find the time
    for this move used up? *)
Variable deadline : nat -> bool.

(** [should_stop] *)
Definition should_stop : M bool :=
  fun self =>
    (Ok (deadline (clock_reads self)),
     {| color := color self;
        evaluator := evaluator self;
        nodes_searched := nodes_searched self;
        max_depth_reached := max_depth_reached self;
        clock_reads := S (clock_reads self) |}).

Section AlphaBetaBody.
(** the recursive call *)
Variable rec : GameState -> Z -> ext -> ext -> bool -> M ext.

(** The [for move in moves] loop of [alpha_beta]. *)
Fixpoint alpha_beta_loop (state : GameState) (depth : Z) (beta : ext)
    (maximizing : bool) (moves : list move) (best_score alpha : ext)
  : M ext :=
  match moves with
  | [] => ret best_score
  | mv :: rest =>
      (new_state <- lift (make_move state mv) ;;
       r <- rec new_state (depth - 1) (ext_neg beta) (ext_neg alpha)
              (negb maximizing) ;;
       let score := ext_neg r in
       let best_score := py_max best_score score in
       let alpha := py_max alpha score in
       if ext_leb beta alpha then ret best_score
       else alpha_beta_loop state depth beta maximizing rest
              best_score alpha)%engine
  end.

(** The body of [alpha_beta]. *)
Definition alpha_beta_body (state : GameState) (depth : Z)
    (alpha beta : ext) (maximizing : bool) : M ext :=
  (count_node ;;
   stop <- should_stop ;;
   if stop : bool then raise TimeoutError
   else
     let '(is_over, winner) := is_terminal state in
     if is_over then
       match winner with
       | Some w =>
           fun self =>
             if Ascii.eqb w (color self)
             then ret (Fin (WIN_VALUE - (50 - depth))) self
             else ret (Fin (- WIN_VALUE + (50 - depth))) self
       | None => ret (Fin 0)
       end
     else if depth <=? 0 then
       fun self => ret (Fin (evaluate (evaluator self) state (color self))) self
     else
       moves <- lift (order_moves state (generate_moves state)) ;;
       alpha_beta_loop state depth beta maximizing moves NegInf alpha
  )%engine.
End AlphaBetaBody.

(** [alpha_beta], unfolded [fuel] times. *)
Fixpoint alpha_beta_fuel (fuel : nat) (state : GameState) (depth : Z)
    (alpha beta : ext) (maximizing : bool) : M ext :=
  match fuel with
  | O => raise OutOfFuel
  | S fuel' =>
      alpha_beta_body (alpha_beta_fuel fuel') state depth alpha beta maximizing
  end.

(** [alpha_beta]: a call at [depth] nests at most [depth + 1] deep. *)
Definition alpha_beta (state : GameState) (depth : Z) (alpha beta : ext)
    (maximizing : bool) : M ext :=
  alpha_beta_fuel (S (Z.to_nat depth)) state depth alpha beta maximizing.

(** The [for move in moves] loop of [search_root]. *)
Fixpoint search_root_loop (state : GameState) (depth : Z) (beta : ext)
    (moves : list move) (best_move : move) (best_score alpha : ext)
  : M (move * ext) :=
  match moves with
  | [] => ret (best_move, best_score)
  | mv :: rest =>
      (stop <- should_stop ;;
       if stop : bool then raise TimeoutError
       else
         new_state <- lift (make_move state mv) ;;
         r <- alpha_beta new_state (depth - 1) (ext_neg beta) (ext_neg alpha)
                false ;;
         let score := ext_neg r in
         let '(best_score, best_move) :=
           if ext_ltb best_score score then (score, mv)
           else (best_score, best_move) in
         let alpha := py_max alpha score in
         search_root_loop state depth beta rest best_move best_score alpha
      )%engine
  end.

(** [search_root] *)
Definition search_root (state : GameState) (depth : Z)
  : M (option move * ext) :=
  let moves := generate_moves state in
  match moves with
  | [] => ret (None, Fin (- WIN_VALUE))
  | _ :: _ =>
      (moves <- lift (order_moves state moves) ;;
       m0 <- lift (py_index moves 0) ;;
       res <- search_root_loop state depth PosInf moves m0 NegInf NegInf ;;
       ret (Some (fst res), snd res))%engine
  end.

(** What one turn of the deepening loop does with [self] and
    [best_move]; [true] asks for the next depth, [false] is a [break]. *)
Definition deepen_step (state : GameState) (depth : Z) (best_move : move)
  : M (move * bool) :=
  (stop <- should_stop ;;
   if stop : bool then ret (best_move, false)
   else
     fun self =>
       match search_root state depth self with
       | (Ok (mv, score), self') =>
           (best_move' <- match mv with
                          | Some m => (set_max_depth depth ;; ret m)
                          | None => ret best_move
                          end ;;
            if ext_leb (Fin (WIN_VALUE - 100)) score
            then ret (best_move', false)
            else ret (best_move', true))%engine self'
       | (Raise TimeoutError, self') => (Ok (best_move, false), self')
       | (Raise e, self') => (Raise e, self')
       end)%engine.

(** [for depth in range(1, 50)] *)
Fixpoint deepen (state : GameState) (depths : list Z) (best_move : move)
  : M move :=
  match depths with
  | [] => ret best_move
  | depth :: rest =>
      (r <- deepen_step state depth best_move ;;
       if snd r : bool then deepen state rest (fst r) else ret (fst r))%engine
  end.

(** [get_best_move] *)
Definition get_best_move (state : GameState) : M (option move) :=
  (reset_nodes ;;
   let moves := generate_moves state in
   match moves with
   | [] => ret None
   | [m] => ret (Some m)
   | m0 :: _ =>
       best <- deepen state (map (fun d => d + 1) (range 49)) m0 ;;
       ret (Some best)
   end)%engine.
End Engine.

(* ================================================================= *)
(** * Positions as objects

    [make_move] and [copy] once more, on the objects Python has: a
    [GameState] refers to its board (a list of references to row lists)
    and to its history list, and assignments to [board[r][c]] and
    [move_history.append] update those lists in place.  This is the
    level at which "the receiver is not modified" says something. *)

Module Heap.

Definition loc : Type := nat.

Inductive obj : Type :=
| ORow (cells : list ascii)
| OBoard (rows : list loc)
| OMoves (moves : list move)
| OState (board_ref : loc) (player : ascii) (ep : option square)
         (history_ref : loc).

Definition heap : Type := list obj.

(** Object-level code: it reads and updates the heap and may raise.
    [TypeError] stands for a reference that does not lead to an
    object of the expected kind. *)
Definition H (A : Type) : Type := heap -> result (A * heap).

Definition hret {A} (a : A) : H A := fun h => Ok (a, h).

Definition hbind {A B} (m : H A) (k : A -> H B) : H B :=
  fun h =>
    match m h with
    | Ok (a, h') => k a h'
    | Raise e => Raise e
    end.

Definition hlift {A} (r : result A) : H A :=
  fun h => match r with Ok a => Ok (a, h) | Raise e => Raise e end.

Declare Scope heap_scope.
Delimit Scope heap_scope with heap.
Notation "x <- m ;; k" := (hbind m (fun x => k))
  (at level 61, m at next level, right associativity) : heap_scope.
Notation "m ;; k" := (hbind m (fun _ => k))
  (at level 61, right associativity) : heap_scope.

Definition load (h : heap) (l : loc) : option obj := nth_error h l.

Definition alloc (o : obj) : H loc :=
  fun h => Ok (List.length h, h ++ [o]).

Definition store (l : loc) (o : obj) : H unit :=
  fun h => Ok (tt, list_update h l o).

Definition load_row (l : loc) : H (list ascii) :=
  fun h => match load h l with
           | Some (ORow cells) => Ok (cells, h)
           | _ => Raise TypeError
           end.

Definition load_board (l : loc) : H (list loc) :=
  fun h => match load h l with
           | Some (OBoard rows) => Ok (rows, h)
           | _ => Raise TypeError
           end.

Definition load_moves (l : loc) : H (list move) :=
  fun h => match load h l with
           | Some (OMoves ms) => Ok (ms, h)
           | _ => Raise TypeError
           end.

Definition load_state (l : loc) : H (loc * ascii * option square * loc) :=
  fun h => match load h l with
           | Some (OState b p ep hs) => Ok ((b, p, ep, hs), h)
           | _ => Raise TypeError
           end.

(** [[EMPTY for _ in range(BOARD_SIZE)] for _ in range(BOARD_SIZE)] *)
Fixpoint alloc_rows (rows : list (list ascii)) : H (list loc) :=
  match rows with
  | [] => hret []
  | r :: rest =>
      (l <- alloc (ORow r) ;;
       ls <- alloc_rows rest ;;
       hret (l :: ls))%heap
  end.

(** [GameState()] *)
Definition new_GameState : H loc :=
  (rows <- alloc_rows empty_board ;;
   b <- alloc (OBoard rows) ;;
   hs <- alloc (OMoves []) ;;
   alloc (OState b WHITE None hs))%heap.

(** [[row[:] for row in self.board]] *)
Fixpoint copy_rows (rows : list loc) : H (list loc) :=
  match rows with
  | [] => hret []
  | r :: rest =>
      (cells <- load_row r ;;
       l <- alloc (ORow cells) ;;
       ls <- copy_rows rest ;;
       hret (l :: ls))%heap
  end.

(** attribute assignments on a [GameState] object *)
Definition set_board (self b : loc) : H unit :=
  (st <- load_state self ;;
   let '(_, p, ep, hs) := st in store self (OState b p ep hs))%heap.

Definition set_current_player (self : loc) (p : ascii) : H unit :=
  (st <- load_state self ;;
   let '(b, _, ep, hs) := st in store self (OState b p ep hs))%heap.

Definition set_en_passant_target (self : loc) (ep : option square) : H unit :=
  (st <- load_state self ;;
   let '(b, p, _, hs) := st in store self (OState b p ep hs))%heap.

Definition set_move_history (self hs : loc) : H unit :=
  (st <- load_state self ;;
   let '(b, p, ep, _) := st in store self (OState b p ep hs))%heap.

(** [GameState.copy] *)
Definition copy (self : loc) : H loc :=
  (new_state <- new_GameState ;;
   st <- load_state self ;;
   let '(b, p, ep, hs) := st in
   rows <- load_board b ;;
   rows' <- copy_rows rows ;;
   b' <- alloc (OBoard rows') ;;
   set_board new_state b' ;;
   set_current_player new_state p ;;
   set_en_passant_target new_state ep ;;
   ms <- load_moves hs ;;
   hs' <- alloc (OMoves ms) ;;
   set_move_history new_state hs' ;;
   hret new_state)%heap.

(** [self.board[row][col]] *)
Definition getitem (self : loc) (row col : Z) : H ascii :=
  (st <- load_state self ;;
   let '(b, _, _, _) := st in
   rows <- load_board b ;;
   r <- hlift (py_index rows row) ;;
   cells <- load_row r ;;
   hlift (py_index cells col))%heap.

(** [self.board[row][col] = v] *)
Definition setitem (self : loc) (row col : Z) (v : ascii) : H unit :=
  (st <- load_state self ;;
   let '(b, _, _, _) := st in
   rows <- load_board b ;;
   r <- hlift (py_index rows row) ;;
   cells <- load_row r ;;
   cells' <- hlift (py_setitem cells col v) ;;
   store r (ORow cells'))%heap.

(** [self.move_history.append(move)] *)
Definition append_move (self : loc) (m : move) : H unit :=
  (st <- load_state self ;;
   let '(_, _, _, hs) := st in
   ms <- load_moves hs ;;
   store hs (OMoves (ms ++ [m])))%heap.

(** [GameState.make_move] *)
Definition make_move (self : loc) (m : move) : H loc :=
  let '(from_col, from_row, to_col, to_row) := m in
  (new_state <- copy self ;;
   piece <- getitem new_state from_row from_col ;;
   st <- load_state new_state ;;
   let '(_, player, ep, _) := st in
   (if is_ep_target ep to_col to_row
    then setitem new_state from_row to_col EMPTY
    else hret tt) ;;
   setitem new_state from_row from_col EMPTY ;;
   setitem new_state to_row to_col piece ;;
   set_en_passant_target new_state None ;;
   (if Z.abs (to_row - from_row) =? 2
    then set_en_passant_target new_state
           (Some (to_col, (from_row + to_row) / 2))
    else hret tt) ;;
   st <- load_state new_state ;;
   let '(_, player, _, _) := st in
   set_current_player new_state (other_player player) ;;
   append_move new_state m ;;
   hret new_state)%heap.

(** The position an object stands for. *)
Fixpoint read_rows (h : heap) (rows : list loc) : option board_t :=
  match rows with
  | [] => Some []
  | r :: rest =>
      match load h r, read_rows h rest with
      | Some (ORow cells), Some b => Some (cells :: b)
      | _, _ => None
      end
  end.

Definition read_state (h : heap) (self : loc) : option GameState :=
  match load h self with
  | Some (OState b p ep hs) =>
      match load h b, load h hs with
      | Some (OBoard rows), Some (OMoves ms) =>
          match read_rows h rows with
          | Some bd => Some {| board := bd;
                               current_player := p;
                               en_passant_target := ep;
                               move_history := ms |}
          | None => None
          end
      | _, _ => None
      end
  | _ => None
  end.

(** The fresh objects [copy] leaves behind: the state at [self] and
    everything it refers to lie at or above [n], no row is shared, and
    the whole stands for [s]. *)
Definition owned (n : nat) (h : heap) (self : loc) (s : GameState) : Prop :=
  exists b hs rows,
    load h self = Some (OState b (current_player s) (en_passant_target s) hs)
    /\ (n <= self)%nat /\ (n <= b)%nat /\ (n <= hs)%nat
    /\ load h b = Some (OBoard rows)
    /\ Forall (fun r => (n <= r)%nat) rows
    /\ NoDup rows
    /\ read_rows h rows = Some (board s)
    /\ load h hs = Some (OMoves (move_history s)).

(** Nothing below [n] differs between [h] and [h']. *)
Definition agree (n : nat) (h h' : heap) : Prop :=
  (n <= List.length h')%nat /\
  forall l, (l < n)%nat -> load h' l = load h l.

End Heap.

(* ================================================================= *)
(** * Reference definitions

    Full-width negamax and the terminal rule as the specification words
    them, written down next to the code so that the two can be
    compared. *)

Fixpoint mapM {A B} (f : A -> result B) (l : list A) : result (list B) :=
  match l with
  | [] => Ok []
  | x :: t => (y <- f x ;; ys <- mapM f t ;; Ok (y :: ys))%result
  end.

(** The greatest of a list of scores, [-inf] for none. *)
Definition ext_maximum (l : list ext) : ext := fold_left py_max l NegInf.

(** Value of a node for the terminal detector and leaf evaluation the
    engine uses. *)
Definition node_value (c : ascii) (ev : Evaluator) (state : GameState)
    (depth : Z) : option ext :=
  let '(is_over, winner) := is_terminal state in
  if is_over then
    match winner with
    | Some w => if Ascii.eqb w c then Some (Fin (WIN_VALUE - (50 - depth)))
                else Some (Fin (- WIN_VALUE + (50 - depth)))
    | None => Some (Fin 0)
    end
  else if depth <=? 0 then Some (Fin (evaluate ev state c))
  else None.

(** The score a move earns its mover when [fw] values the position it
    leads to: the negated value of the child. *)
Definition child_score (fw : GameState -> Z -> result ext) (state : GameState)
    (depth : Z) (mv : move) : result ext :=
  (new_state <- make_move state mv ;;
   r <- fw new_state (depth - 1) ;;
   Ok (ext_neg r))%result.

(** Full-width negamax: every legal move of every inner node is searched
    (in generation order), no window, no cutoff. *)
Fixpoint full_width_fuel (fuel : nat) (c : ascii) (ev : Evaluator)
    (state : GameState) (depth : Z) : result ext :=
  match fuel with
  | O => Raise OutOfFuel
  | S fuel' =>
      match node_value c ev state depth with
      | Some v => Ok v
      | None =>
          (scores <- mapM (child_score (full_width_fuel fuel' c ev) state depth)
                       (generate_moves state) ;;
           Ok (ext_maximum scores))%result
      end
  end.

Definition full_width (c : ascii) (ev : Evaluator) (state : GameState)
    (depth : Z) : result ext :=
  full_width_fuel (S (Z.to_nat depth)) c ev state depth.

(** Full-width search from the root: the best of the scores of the
    legal moves. *)
Definition full_width_root (c : ascii) (ev : Evaluator) (state : GameState)
    (depth : Z) : result ext :=
  (scores <- mapM (child_score (full_width c ev) state depth)
               (generate_moves state) ;;
   Ok (ext_maximum scores))%result.

(** The specification's terminal rule for pawns on the last ranks: white
    anywhere on rank 8 first, then black anywhere on rank 1. *)
Definition spec_reached_end (b : board_t) : option ascii :=
  if existsb (fun col => Ascii.eqb (cell_at b col 7) WHITE) (range BOARD_SIZE)
  then Some WHITE
  else if existsb (fun col => Ascii.eqb (cell_at b col 0) BLACK) (range BOARD_SIZE)
  then Some BLACK
  else None.

(* ================================================================= *)
(** * Vocabulary of the statements *)

(** A clock that never reaches the deadline. *)
Definition never : nat -> bool := fun _ => false.

(** A score that is a number. *)
Definition is_fin (x : ext) : Prop := exists z, x = Fin z.

(** Sum of [f] over a list. *)
Definition zsum {A} (f : A -> Z) (l : list A) : Z :=
  fold_right (fun x acc => f x + acc) 0 l.

Definition in_center (col : Z) : bool := (2 <=? col) && (col <=? 5).

(** The heuristic score as a sum of terms, with [per_rank] the bonus a
    passed pawn earns for each rank of advancement. *)
Definition passed_bonus (ev : Evaluator) (per_rank : Z) (b : board_t)
    (c : ascii) (p : square) : Z :=
  if is_passed_pawn b (fst p) (snd p) c
  then passed_pawn_weight ev + per_rank * advancement_of c (snd p)
  else 0.

Definition heuristic_sum (ev : Evaluator) (per_rank : Z) (b : board_t)
    (c : ascii) : Z :=
  let mine := get_all_pieces b c in
  let theirs := get_all_pieces b (other_player c) in
  material_weight ev * (Z.of_nat (List.length mine) - Z.of_nat (List.length theirs))
  + advancement_weight ev * zsum (fun p => advancement_of c (snd p)) mine
  - advancement_weight ev
    * zsum (fun p => advancement_of (other_player c) (snd p)) theirs
  + zsum (passed_bonus ev per_rank b c) mine
  - zsum (passed_bonus ev per_rank b (other_player c)) theirs
  + center_weight ev * Z.of_nat (List.length (filter (fun p => in_center (fst p)) mine)).

(** The specification's reading of the passed-pawn term: five times the
    advancement weight for each rank. *)
Definition spec_heuristic (ev : Evaluator) (b : board_t) (c : ascii) : Z :=
  heuristic_sum ev (5 * advancement_weight ev) b c.

(** A move within the board. *)
Definition move_in_bounds (m : move) : Prop :=
  let '(fc, fr, tc, tr) := m in
  0 <= fc < 8 /\ 0 <= fr < 8 /\ 0 <= tc < 8 /\ 0 <= tr < 8.

(** The test [make_move] makes before it records an en-passant target,
    [abs(to_row - from_row) == 2]: the rows of source and destination
    are two apart.  The files, the direction, the start row and the
    piece moved are not looked at. *)
Definition rows_two_apart (m : move) : bool :=
  let '(_, fr, _, tr) := m in Z.abs (tr - fr) =? 2.

(** A double step as the specification words it: a pawn of the side to
    move goes from its starting rank two cells ahead in its own file. *)
Definition spec_double_step (s : GameState) (m : move) : bool :=
  let '(fc, fr, tc, tr) := m in
  let player := current_player s in
  let d := if Ascii.eqb player WHITE then 1 else -1 in
  let start_row := if Ascii.eqb player WHITE then 1 else 6 in
  (tc =? fc) && (fr =? start_row) && (tr =? fr + 2 * d).

(** The intermediate cell of the specification: the cell a pawn of the
    side to move skips over when it goes two cells ahead from the source
    of [m]. *)
Definition skipped_cell (s : GameState) (m : move) : square :=
  let '(fc, fr, _, _) := m in
  (fc, fr + (if Ascii.eqb (current_player s) WHITE then 1 else -1)).

(** The 64 squares in the order [get_all_pieces] visits them. *)
Definition all_squares : list square :=
  flat_map (fun row => map (fun col => (col, row)) (range BOARD_SIZE))
    (range BOARD_SIZE).

(** The initial position. *)
Definition initial_position : GameState :=
  match setup_initial_position new_GameState with
  | Ok s => s
  | Raise _ => new_GameState
  end.

(** A file letter, a to h. *)
Definition is_file_letter (c : ascii) : bool :=
  (ord "a" <=? ord c) && (ord c <=? ord "h").

(** A rank digit, 1 to 8. *)
Definition is_rank_digit (c : ascii) : bool :=
  (ord "1" <=? ord c) && (ord c <=? ord "8").

(** [str.lower] on one character: only A to Z change. *)
Definition lower_char (c : ascii) : ascii :=
  if (ord "A" <=? ord c) && (ord c <=? ord "Z")
  then ascii_of_N (Z.to_N (ord c + 32)) else c.

(** [str.lower] *)
Fixpoint lower (s : string) : string :=
  match s with
  | EmptyString => EmptyString
  | String c r => String (lower_char c) (lower r)
  end.

(** The position a setup string describes ([new_GameState] if the
    string is rejected). *)
Definition position_of (setup : string) : GameState :=
  match setup_from_string new_GameState setup with
  | Ok s => s
  | Raise _ => new_GameState
  end.

(** A white pawn on rank 8 of file [c], and no black pawn on rank 1 of
    an earlier file. *)
Definition white_found_first (b : board_t) (c : Z) : Prop :=
  cell_at b c 7 = WHITE /\ forall c', 0 <= c' < c -> cell_at b c' 0 <> BLACK.

(** A black pawn on rank 1 of file [c], and no white pawn on rank 8 of
    that file or an earlier one. *)
Definition black_found_first (b : board_t) (c : Z) : Prop :=
  cell_at b c 0 = BLACK /\ forall c', 0 <= c' <= c -> cell_at b c' 7 <> WHITE.

(** What the two loops of [evaluate] add for one pawn. *)
Definition my_pawn_term (ev : Evaluator) (b : board_t) (c : ascii)
    (p : square) : Z :=
  advancement_of c (snd p) * advancement_weight ev
  + passed_bonus ev 5 b c p
  + (if in_center (fst p) then center_weight ev else 0).

Definition opp_pawn_term (ev : Evaluator) (b : board_t) (c : ascii)
    (p : square) : Z :=
  advancement_of c (snd p) * advancement_weight ev + passed_bonus ev 5 b c p.

(** Most a pawn of [c] on [p] can add to the score of its side, material
    included, with the weights of [new_Evaluator]. *)
Definition pawn_cap (c : ascii) (p : square) : Z :=
  130 + 15 * advancement_of c (snd p) + (if in_center (fst p) then 5 else 0).

(** The squares a pawn of [c] can stand on while the game is not over:
    not on the rank it is heading for. *)
Definition not_arrived (c : ascii) (p : square) : bool :=
  if Ascii.eqb c WHITE then negb (snd p =? 7) else negb (snd p =? 0).

(** What is shown of a search [rec] against the reference [fw] at a
    node, for an engine of colour [c] with the weights [ev]: it returns
    a number, leaves the colour and the weights alone, and the number
    relates to the full-width value as a fail-soft alpha-beta result
    does: exact inside the window, a bound on the right side outside. *)
Definition sound_at (c : ascii) (ev : Evaluator)
    (rec : GameState -> Z -> ext -> ext -> bool -> M ext)
    (fw : GameState -> Z -> result ext) (state : GameState) (depth : Z)
  : Prop :=
  forall alpha beta mx self,
    color self = c -> evaluator self = ev ->
    exists z self',
      rec state depth alpha beta mx self = (Ok (Fin z), self')
      /\ color self' = c /\ evaluator self' = ev
      /\ exists v, fw state depth = Ok v
           /\ (ext_lt alpha beta ->
               (ext_lt (Fin z) beta -> ext_le v (Fin z))
               /\ (ext_lt alpha (Fin z) -> ext_le (Fin z) v)).

(** A result that is a value with property [P], or the engine's own
    [TimeoutError]; no other exception. *)
Definition benign {A} (P : A -> Prop) (r : result A) : Prop :=
  match r with
  | Ok a => P a
  | Raise TimeoutError => True
  | Raise _ => False
  end.

(** No depth completes in a call of [get_best_move]: the deadline has
    passed when depth 1 is about to start, or the search at depth 1 is
    cut short by [TimeoutError].  (A depth that does not complete ends
    the deepening loop, so no later depth completes either.) *)
Definition depth_one_aborts (deadline : nat -> bool) (state : GameState)
    (self : TwoFlagsAI) : Prop :=
  match should_stop deadline (snd (reset_nodes self)) with
  | (Ok true, _) => True
  | (Ok false, self1) =>
      fst (search_root deadline state 1 self1) = Raise TimeoutError
  | (Raise _, _) => False
  end.

(** The initial position after e2-e4: black to move. *)
Definition after_e2e4 : GameState :=
  match make_move initial_position (4, 1, 4, 3) with
  | Ok s => s
  | Raise _ => initial_position
  end.

(** The initial position as objects: rows at 0 to 7, the board at 8, the
    history at 9, the [GameState] at 10. *)
Definition initial_heap : Heap.heap :=
  map Heap.ORow (board initial_position)
  ++ [Heap.OBoard (seq 0 8); Heap.OMoves [];
      Heap.OState 8%nat WHITE None 9%nat].

(** A position in which white wins at once by a7-a8, and the position
    after that move. *)
Definition before_a7a8 : GameState := position_of "Wa7 Wh2 Bh7".

Definition after_a7a8 : GameState :=
  match make_move before_a7a8 (0, 6, 0, 7) with
  | Ok s => s
  | Raise _ => before_a7a8
  end.

(* ================================================================= *)
(** * The callers: [client.py] and [main.py] *)

(** [str.lstrip()], [str.rstrip()], [str.strip()] *)
Fixpoint lstrip (s : string) : string :=
  match s with
  | EmptyString => EmptyString
  | String c rest => if is_space c then lstrip rest else s
  end.

Fixpoint rstrip (s : string) : string :=
  match s with
  | EmptyString => EmptyString
  | String c rest =>
      match rstrip rest with
      | EmptyString => if is_space c then EmptyString else String c EmptyString
      | rest' => String c rest'
      end
  end.

Definition strip (s : string) : string := rstrip (lstrip s).

(** [str.lower] on one character of the model: A to Z and the accented
    capitals 192 to 222, the multiplication sign 215 apart, move up by
    32. *)
Definition py_lower_char (c : ascii) : ascii :=
  let n := ord c in
  if ((65 <=? n) && (n <=? 90))
     || ((192 <=? n) && (n <=? 222) && negb (n =? 215))
  then ascii_of_N (Z.to_N (n + 32)) else c.

Fixpoint py_lower (s : string) : string :=
  match s with
  | EmptyString => EmptyString
  | String c r => String (py_lower_char c) (py_lower r)
  end.

(** [move in legal_moves] *)
Definition move_in (m : move) (l : list move) : bool := existsb (move_eqb m) l.

(** What [handle_opponent_move] prints. *)
Inductive notice : Type :=
| OpponentPlayed    (* "Opponent played: ..." and the board *)
| SeemsInvalid      (* "Warning: opponent move ... seems invalid, applying
                       anyway" *)
| CouldNotParse.    (* "Could not parse opponent move: ..." *)

(** [TwoFlagsClient.handle_opponent_move], on the client's [self.state] *)
Definition handle_opponent_move (state : GameState) (move_str : string)
  : result (GameState * notice) :=
  let move_str := strip move_str in
  (mv <- string_to_move move_str ;;
   match mv with
   | Some move =>
       let legal_moves := generate_moves state in
       if move_in move legal_moves then
         (state' <- make_move state move ;; Ok (state', OpponentPlayed))
       else
         (state' <- make_move state move ;; Ok (state', SeemsInvalid))
   | None => Ok (state, CouldNotParse)
   end)%result.

(** [TwoFlagsClient.get_my_move], on the client's [self.state] and
    [self.ai]: the new state and the text to send, if there is a move. *)
Definition get_my_move (deadline : nat -> bool) (state : GameState)
  : M (GameState * option string) :=
  (mv <- get_best_move deadline state ;;
   match mv with
   | Some move =>
       state' <- lift (make_move state move) ;;
       move_str <- lift (move_to_string move) ;;
       ret (state', Some move_str)
   | None => ret (state, None)
   end)%engine.

(** [pat in s] for strings *)
Fixpoint contains (pat s : string) : bool :=
  String.prefix pat s
  || match s with
     | EmptyString => false
     | String _ rest => contains pat rest
     end.

(** [TwoFlagsClient.handle_setup]: the new [self.state] *)
Definition handle_setup (setup_str : string) : result GameState :=
  let state := new_GameState in
  if contains "Setup" setup_str then setup_from_string state setup_str
  else setup_initial_position state.

(** One pass of the input loop of [play_from_setup] and
    [play_human_vs_ai] for the line the user typed. *)
Inductive human_outcome : Type :=
| Quit                       (* the line was "quit" *)
| Played (s : GameState)     (* the move was made *)
| Invalid.                   (* "Invalid move!" *)

Definition human_turn (state : GameState) (line : string)
  : result human_outcome :=
  let moves := generate_moves state in
  let move_str := py_lower (strip line) in
  if String.eqb move_str "quit" then Ok Quit
  else
    (mv <- string_to_move move_str ;;
     match mv with
     | Some move =>
         if move_in move moves then
           (state' <- make_move state move ;; Ok (Played state'))
         else Ok Invalid
     | None => Ok Invalid
     end)%result.

(* ================================================================= *)
(** * Vocabulary of the further statements *)

(** The rules [generate_moves] implements, for the move
    [(fc, fr, tc, tr)]: a pawn of the side to move stands on the source,
    and the move is a step forward onto an empty cell, a double step from
    the start row over and onto empty cells, or a diagonal step onto an
    opponent pawn or onto the en-passant target with an opponent pawn
    level with the mover. *)
Definition legal_move (s : GameState) (m : move) : Prop :=
  let '(fc, fr, tc, tr) := m in
  let b := board s in
  let player := current_player s in
  let d := if Ascii.eqb player WHITE then 1 else -1 in
  let start_row := if Ascii.eqb player WHITE then 1 else 6 in
  (0 <= fc < 8 /\ 0 <= fr < 8) /\ cell_at b fc fr = player
  /\ (0 <= tc < 8 /\ 0 <= tr < 8)
  /\ ((tc = fc /\ tr = fr + d /\ cell_at b tc tr = EMPTY)
      \/ (tc = fc /\ fr = start_row /\ tr = fr + 2 * d
          /\ cell_at b fc (fr + d) = EMPTY /\ cell_at b tc tr = EMPTY)
      \/ ((tc = fc - 1 \/ tc = fc + 1) /\ tr = fr + d
          /\ (cell_at b tc tr = other_player player
              \/ (en_passant_target s = Some (tc, tr)
                  /\ cell_at b tc fr = other_player player)))).

(** Number of pawns of [c]. *)
Definition pawn_count (b : board_t) (c : ascii) : nat :=
  List.length (get_all_pieces b c).

(** The en-passant target, when there is one, is an empty cell of the
    board. *)
Definition ep_target_empty (s : GameState) : Prop :=
  match en_passant_target s with
  | Some (c, r) => (0 <= c < 8 /\ 0 <= r < 8) /\ cell_at (board s) c r = EMPTY
  | None => True
  end.

(** A game played the way the play loops do: while the game is not
    over, a move that [generate_moves] lists is made.  [None] when the
    game was over before the moves ran out, or a move was not listed. *)
Fixpoint play (s : GameState) (ms : list move) : option GameState :=
  match ms with
  | [] => Some s
  | m :: rest =>
      if fst (is_terminal s) then None
      else if move_in m (generate_moves s) then
        match make_move s m with
        | Ok s' => play s' rest
        | Raise _ => None
        end
      else None
  end.

(** A short game: white walks the a-pawn up, takes on b7 and arrives
    on b8 while black pushes the h-pawn. *)
Definition short_game : list move :=
  [(0, 1, 0, 3); (7, 6, 7, 5); (0, 3, 0, 4); (7, 5, 7, 4); (0, 4, 0, 5);
   (7, 4, 7, 3); (0, 5, 1, 6); (7, 3, 7, 2); (1, 6, 1, 7)].

Definition short_game_end : GameState :=
  match play initial_position short_game with
  | Some s => s
  | None => initial_position
  end.

(** The cells hold a white pawn, a black pawn or nothing. *)
Definition pawns_only (b : board_t) : Prop :=
  forall c r, 0 <= c < 8 -> 0 <= r < 8 ->
    cell_at b c r = WHITE \/ cell_at b c r = BLACK \/ cell_at b c r = EMPTY.

(** What holds of every position of a game played from the initial
    position: the board is 8x8 and holds pawns only, white or black is
    to move, neither side has more than eight pawns, the en-passant
    target is an empty cell, white is to move exactly after an even
    number of moves, the side that moved last has a pawn left, and no
    pawn of the side to move stands on the row it is heading for. *)
Definition play_invariant (s : GameState) : Prop :=
  wf_board (board s)
  /\ pawns_only (board s)
  /\ (current_player s = WHITE \/ current_player s = BLACK)
  /\ (pawn_count (board s) WHITE <= 8)%nat
  /\ (pawn_count (board s) BLACK <= 8)%nat
  /\ ep_target_empty s
  /\ Nat.even (List.length (move_history s)) = Ascii.eqb (current_player s) WHITE
  /\ (1 <= pawn_count (board s) (other_player (current_player s)))%nat
  /\ (forall c, 0 <= c < 8 ->
        cell_at (board s) c (if Ascii.eqb (current_player s) WHITE then 7 else 0)
        <> current_player s).

(** How a search that started with the engine in state [self] and
    ended with the outcome [out] has used the clock: the colour, the
    weights and the recorded depth are as they were; one node was
    counted for each reading of the clock; and either the search returned
    and every reading found time left, or it raised [TimeoutError], the
    last reading being the first that found none. *)
Definition clocked {A} (deadline : nat -> bool) (self : TwoFlagsAI)
    (out : result A * TwoFlagsAI) : Prop :=
  let self' := snd out in
  color self' = color self
  /\ evaluator self' = evaluator self
  /\ max_depth_reached self' = max_depth_reached self
  /\ (clock_reads self <= clock_reads self')%nat
  /\ nodes_searched self'
     = nodes_searched self + Z.of_nat (clock_reads self' - clock_reads self)
  /\ match fst out with
     | Ok _ =>
         forall k, (clock_reads self <= k < clock_reads self')%nat ->
                   deadline k = false
     | Raise e =>
         e = TimeoutError
         /\ exists k, clock_reads self' = S k
              /\ (clock_reads self <= k)%nat
              /\ deadline k = true
              /\ forall j, (clock_reads self <= j < k)%nat -> deadline j = false
     end.

(** The same account for a search that also reads the clock between
    nodes: at most one node was counted for each reading. *)
Definition prompt {A} (deadline : nat -> bool) (self : TwoFlagsAI)
    (out : result A * TwoFlagsAI) : Prop :=
  let self' := snd out in
  color self' = color self
  /\ evaluator self' = evaluator self
  /\ (clock_reads self <= clock_reads self')%nat
  /\ nodes_searched self <= nodes_searched self'
     <= nodes_searched self + Z.of_nat (clock_reads self' - clock_reads self)
  /\ match fst out with
     | Ok _ =>
         forall k, (clock_reads self <= k < clock_reads self')%nat ->
                   deadline k = false
     | Raise e =>
         e = TimeoutError
         /\ exists k, clock_reads self' = S k
              /\ (clock_reads self <= k)%nat
              /\ deadline k = true
              /\ forall j, (clock_reads self <= j < k)%nat -> deadline j = false
     end.

(** Every reading of the clock between [self] and [self'], the last one
    apart, found time left. *)
Definition all_but_last (deadline : nat -> bool) (self self' : TwoFlagsAI)
  : Prop :=
  forall k, (clock_reads self <= k)%nat -> (S k < clock_reads self')%nat ->
            deadline k = false.

(** A move [order_moves] scores as a capture: it lands on an opponent
    pawn or on the en-passant target. *)
Definition takes (s : GameState) (m : move) : bool :=
  let '(_, _, to_col, to_row) := m in
  Ascii.eqb (cell_at (board s) to_col to_row) (other_player (current_player s))
  || is_ep_target (en_passant_target s) to_col to_row.

(** Row [r] lies ahead of a pawn of [color] on [row]: beyond it in its
    direction of travel. *)
Definition row_ahead (color : ascii) (row r : Z) : Prop :=
  if Ascii.eqb color WHITE then row < r else r < row.

(** The sorting key of [order_moves] as a number (0 where the key
    cannot be computed). *)
Definition move_key (state : GameState) (m : move) : Z :=
  match move_score state m with
  | Ok z => z
  | Raise _ => 0
  end.

(** The decimal digits. *)
Definition is_digit (c : ascii) : bool := (48 <=? ord c) && (ord c <=? 57).

(** A token [setup_from_string] gets through without raising: shorter
    than three characters, or with a digit in third place. *)
Definition token_passes (t : string) : bool :=
  match t with
  | String _ (String _ (String c _)) => is_digit c
  | _ => true
  end.

(** The colour a token puts on the cell [(col, row)], if it names that
    cell. *)
Definition token_paints (t : string) (col row : Z) : option ascii :=
  match t with
  | String color (String f (String d _)) =>
      if (ord f - ord "a" =? col) && (ord d - ord "0" - 1 =? row)
      then Some color else None
  | _ => None
  end.

(** The content of [(col, row)] after the tokens: the colour of the last
    token that names the cell, [EMPTY] when none does. *)
Definition painted (tokens : list string) (col row : Z) : ascii :=
  fold_left (fun acc t => match token_paints t col row with
                          | Some color => color
                          | None => acc
                          end) tokens EMPTY.

(** The tokens of a setup string without the leading keyword. *)
Definition setup_tokens (setup_str : string) : list string :=
  match str_split setup_str with
  | [] => []
  | p0 :: rest => if String.eqb p0 "Setup" then rest else p0 :: rest
  end.

(* ================================================================= *)
(** * Text of any characters

    The strings above hold characters below 256.  The text the program
    reads from the command line, the keyboard and the socket can hold
    any character of Unicode, and [int] accepts the decimal digits of
    every script.  The functions that read text are given here once
    more, on lists of code points.  What [int] makes of one character
    and what [str.split] takes for a separator are tables of the
    interpreter's Unicode database; they are parameters ([decimal],
    [space]), and [unicode_decimal] and [unicode_space] are the tables
    of Unicode 14.0, which CPython 3.11 carries. *)

Definition text : Type := list Z.

(** The code points of a string of characters below 256. *)
Definition points (s : string) : text := map ord (list_ascii_of_string s).

(** [chr(n)], the character as its code point *)
Definition chr_w (n : Z) : result Z :=
  if (0 <=? n) && (n <? 1114112) then Ok n
  else if (-2147483648 <=? n) && (n <? 2147483648) then Raise ValueError
  else Raise OverflowError.

(** [s[i]] for [i >= 0] *)
Definition text_index (t : text) (i : nat) : result Z :=
  of_option IndexError (nth_error t i).

(** [s == t] *)
Definition text_eqb (a b : text) : bool :=
  if list_eq_dec Z.eq_dec a b then true else false.

(** [move_to_string] *)
Definition move_to_string_w (m : move) : result text :=
  let '(from_col, from_row, to_col, to_row) := m in
  (c1 <- chr_w (ord "a" + from_col) ;;
   c2 <- chr_w (ord "a" + to_col) ;;
   Ok (c1 :: points (str (from_row + 1)) ++ c2 :: points (str (to_row + 1)))
  )%result.

(** A board whose cells hold any character. *)
Definition wide_board : Type := list (list Z).

Definition wide_wf (b : wide_board) : Prop :=
  List.length b = 8%nat /\ Forall (fun r => List.length r = 8%nat) b.

Definition empty_wide_board : wide_board :=
  map (fun _ => map (fun _ => ord EMPTY) (range BOARD_SIZE)) (range BOARD_SIZE).

(** [self.board[row][col] = v] *)
Definition wide_set (b : wide_board) (row col : Z) (v : Z) : result wide_board :=
  (r <- py_index b row ;;
   r' <- py_setitem r col v ;;
   py_setitem b row r')%result.

(** The cell [(col, row)] of a board, for indices in [0, 8). *)
Definition wide_cell (b : wide_board) (col row : Z) : Z :=
  match (r <- py_index b row ;; py_index r col)%result with
  | Ok c => c
  | Raise _ => ord EMPTY
  end.

(** A board of characters below 256 as a board of code points. *)
Definition widen (b : board_t) : wide_board := map (map ord) b.

Section Text.
(** [int(c)] for a one-character string: the value of [c] if it is a
    decimal digit, [None] for the [ValueError] of any other
    character. *)
Variable decimal : Z -> option Z.

(** [c.isspace()]: the characters [str.split()] and [str.strip()]
    take for white space. *)
Variable space : Z -> bool.

Definition int_of_point (c : Z) : result Z :=
  match decimal c with
  | Some v => Ok v
  | None => Raise ValueError
  end.

(** [string_to_move] *)
Definition string_to_move_w (move_str : text) : result (option move) :=
  if (List.length move_str <? 4)%nat then Ok None
  else
    (c0 <- text_index move_str 0 ;;
     let from_col := c0 - ord "a" in
     c1 <- text_index move_str 1 ;;
     d1 <- int_of_point c1 ;;
     let from_row := d1 - 1 in
     c2 <- text_index move_str 2 ;;
     let to_col := c2 - ord "a" in
     c3 <- text_index move_str 3 ;;
     d3 <- int_of_point c3 ;;
     let to_row := d3 - 1 in
     Ok (Some (from_col, from_row, to_col, to_row)))%result.

Definition flush_token_w (cur : text) : list text :=
  match cur with
  | [] => []
  | _ => [cur]
  end.

Fixpoint split_from_w (s cur : text) : list text :=
  match s with
  | [] => flush_token_w cur
  | c :: rest =>
      if space c then flush_token_w cur ++ split_from_w rest []
      else split_from_w rest (cur ++ [c])
  end.

(** [s.split()] *)
Definition str_split_w (s : text) : list text := split_from_w s [].

(** One iteration of the loop of [setup_from_string]. *)
Definition place_piece_w (b : wide_board) (piece : text) : result wide_board :=
  if (3 <=? List.length piece)%nat then
    (color <- text_index piece 0 ;;
     c1 <- text_index piece 1 ;;
     let col := c1 - ord "a" in
     c2 <- text_index piece 2 ;;
     d <- int_of_point c2 ;;
     let row := d - 1 in
     if (0 <=? col) && (col <? 8) && (0 <=? row) && (row <? 8)
     then wide_set b row col color
     else Ok b)%result
  else Ok b.

Fixpoint place_pieces_w (b : wide_board) (parts : list text)
  : result wide_board :=
  match parts with
  | [] => Ok b
  | piece :: rest =>
      (b' <- place_piece_w b piece ;; place_pieces_w b' rest)%result
  end.

(** [setup_from_string]: the board it assigns to [self.board] (it
    assigns to nothing else). *)
Definition setup_from_string_w (setup_str : text) : result wide_board :=
  let parts := str_split_w setup_str in
  (p0 <- py_index parts 0 ;;
   let parts := if text_eqb p0 (points "Setup") then tl parts else parts in
   place_pieces_w empty_wide_board parts)%result.

(** A token [setup_from_string] gets through without raising: shorter
    than three characters, or with a decimal digit in third place. *)
Definition token_passes_w (t : text) : bool :=
  match t with
  | _ :: _ :: c :: _ => match decimal c with Some _ => true | None => false end
  | _ => true
  end.

(** The character a token puts on the cell [(col, row)], if it names
    that cell. *)
Definition token_paints_w (t : text) (col row : Z) : option Z :=
  match t with
  | color :: f :: d :: _ =>
      match decimal d with
      | Some v =>
          if (f - ord "a" =? col) && (v - 1 =? row) then Some color else None
      | None => None
      end
  | _ => None
  end.

(** The content of [(col, row)] after the tokens: the first character
    of the last token that names the cell, [EMPTY] when none does. *)
Definition painted_w (tokens : list text) (col row : Z) : Z :=
  fold_left (fun acc t => match token_paints_w t col row with
                          | Some color => color
                          | None => acc
                          end) tokens (ord EMPTY).

(** The tokens of a setup text without the leading keyword. *)
Definition setup_tokens_w (setup_str : text) : list text :=
  match str_split_w setup_str with
  | [] => []
  | p0 :: rest => if text_eqb p0 (points "Setup") then rest else p0 :: rest
  end.
End Text.

(** The decimal digits of Unicode 14.0: each script has ten of them in
    a row, and these are the code points of the zeros. *)
Definition digit_zeros : list Z :=
  [48; 1632; 1776; 1984; 2406; 2534; 2662; 2790; 2918; 3046; 3174; 3302;
   3430; 3558; 3664; 3792; 3872; 4160; 4240; 6112; 6160; 6470; 6608; 6784;
   6800; 6992; 7088; 7232; 7248; 42528; 43216; 43264; 43472; 43504; 43600;
   44016; 65296; 66720; 68912; 69734; 69872; 69942; 70096; 70384; 70736;
   70864; 71248; 71360; 71472; 71904; 72016; 72784; 73040; 73120; 92768;
   92864; 93008; 120782; 120792; 120802; 120812; 120822; 123200; 123632;
   125264; 130032].

Definition unicode_decimal (c : Z) : option Z :=
  match find (fun z => (z <=? c) && (c <=? z + 9)) digit_zeros with
  | Some z => Some (c - z)
  | None => None
  end.

(** The white space of Unicode 14.0. *)
Definition unicode_space (c : Z) : bool :=
  existsb (Z.eqb c)
    [9; 10; 11; 12; 13; 28; 29; 30; 31; 32; 133; 160; 5760; 8192; 8193; 8194;
     8195; 8196; 8197; 8198; 8199; 8200; 8201; 8202; 8232; 8233; 8239; 8287;
     12288].

(* ================================================================= *)
(** * Lists and boards *)

Section PyListFacts.
Context {A : Type}.

Lemma length_list_update (l : list A) k x :
  List.length (list_update l k x) = List.length l.
Proof.
  revert k; induction l as [|y t IH]; intros [|k]; simpl; auto.
Qed.

Lemma nth_error_list_update_eq (l : list A) k x :
  (k < List.length l)%nat -> nth_error (list_update l k x) k = Some x.
Proof.
  revert k; induction l as [|y t IH]; intros [|k] H; simpl in *;
    try lia; auto.
  apply IH; lia.
Qed.

Lemma nth_error_list_update_neq (l : list A) k j x :
  k <> j -> nth_error (list_update l k x) j = nth_error l j.
Proof.
  revert k j; induction l as [|y t IH]; intros [|k] [|j] H; simpl;
    auto; try congruence.
Qed.

Lemma list_update_out (l : list A) k x :
  (List.length l <= k)%nat -> list_update l k x = l.
Proof.
  revert k; induction l as [|y t IH]; intros [|k] H; simpl in *;
    auto; try lia.
  f_equal; apply IH; lia.
Qed.
Lemma py_index_in_range (l : list A) (i : Z) :
  0 <= i < Z.of_nat (List.length l) ->
  exists x, py_index l i = Ok x /\ nth_error l (Z.to_nat i) = Some x.
Proof.
  intros Hi. unfold py_index.
  replace ((0 <=? i) && (i <? Z.of_nat (List.length l))) with true
    by (symmetry; apply andb_true_iff; split; [apply Z.leb_le|apply Z.ltb_lt]; lia).
  destruct (nth_error l (Z.to_nat i)) as [x|] eqn:E.
  - exists x; auto.
  - apply nth_error_None in E. lia.
Qed.

Lemma py_setitem_in_range (l : list A) (i : Z) (x : A) :
  0 <= i < Z.of_nat (List.length l) ->
  py_setitem l i x = Ok (list_update l (Z.to_nat i) x).
Proof.
  intros Hi. unfold py_setitem.
  replace ((0 <=? i) && (i <? Z.of_nat (List.length l))) with true
    by (symmetry; apply andb_true_iff; split; [apply Z.leb_le|apply Z.ltb_lt]; lia).
  reflexivity.
Qed.

Lemma Forall_list_update (P : A -> Prop) (l : list A) k x :
  Forall P l -> P x -> Forall P (list_update l k x).
Proof.
  intros Hl Hx. revert k. induction Hl as [|y t Hy Ht IH]; intros [|k];
    simpl; constructor; auto.
Qed.
End PyListFacts.

Lemma in_range_iff (n x : Z) : In x (range n) <-> 0 <= x < n.
Proof.
  unfold range. rewrite in_map_iff. split.
  - intros (k & <- & Hk). apply in_seq in Hk. lia.
  - intros Hx. exists (Z.to_nat x). split; [lia|]. apply in_seq. lia.
Qed.

Lemma wf_boardb_spec (b : board_t) : wf_boardb b = true <-> wf_board b.
Proof.
  unfold wf_boardb, wf_board. rewrite andb_true_iff, Nat.eqb_eq, forallb_forall,
    Forall_forall.
  split; intros [H1 H2]; split; auto; intros r Hr; apply Nat.eqb_eq; auto.
Qed.

Lemma wf_board_row (b : board_t) (row : Z) :
  wf_board b -> 0 <= row < 8 ->
  exists r, py_index b row = Ok r /\ nth_error b (Z.to_nat row) = Some r
            /\ List.length r = 8%nat.
Proof.
  intros [Hlen Hrows] Hrow.
  destruct (py_index_in_range b row) as (r & E & N); [lia|].
  exists r; repeat split; auto.
  rewrite Forall_forall in Hrows. apply Hrows. eapply nth_error_In; eauto.
Qed.

Lemma board_get_cell_at (b : board_t) (row col : Z) :
  wf_board b -> 0 <= row < 8 -> 0 <= col < 8 ->
  board_get b row col = Ok (cell_at b col row).
Proof.
  intros Hwf Hrow Hcol. unfold cell_at, board_get.
  destruct (wf_board_row b row Hwf Hrow) as (r & E & _ & Hr).
  rewrite E. simpl.
  destruct (py_index_in_range r col) as (x & Ex & _); [lia|].
  rewrite Ex. reflexivity.
Qed.

Lemma board_set_ok (b : board_t) (row col : Z) (v : ascii) :
  wf_board b -> 0 <= row < 8 -> 0 <= col < 8 ->
  exists b', board_set b row col v = Ok b' /\ wf_board b'
    /\ forall c r, 0 <= c < 8 -> 0 <= r < 8 ->
         cell_at b' c r = if (c =? col) && (r =? row) then v else cell_at b c r.
Proof.
  intros Hwf Hrow Hcol.
  destruct (wf_board_row b row Hwf Hrow) as (rw & E & N & Hr).
  destruct Hwf as [Hlen Hrows].
  unfold board_set. rewrite E. simpl.
  rewrite py_setitem_in_range by lia. simpl.
  rewrite py_setitem_in_range by lia.
  eexists; split; [reflexivity|]. split.
  - split.
    + rewrite length_list_update; auto.
    + apply Forall_list_update; auto. rewrite length_list_update; auto.
  - intros c r Hc Hrr. unfold cell_at, board_get.
    set (rw' := list_update rw (Z.to_nat col) v).
    assert (Hlen' : List.length (list_update b (Z.to_nat row) rw') = 8%nat)
      by (rewrite length_list_update; auto).
    destruct (py_index_in_range (list_update b (Z.to_nat row) rw') r)
      as (x & Ex & Nx); [lia|].
    destruct (py_index_in_range b r) as (y & Ey & Ny); [lia|].
    rewrite Ex, Ey. simpl.
    destruct (Z.eqb_spec r row) as [->|Hne].
    + rewrite nth_error_list_update_eq in Nx by lia.
      injection Nx as <-. rewrite N in Ny. injection Ny as <-.
      rewrite andb_true_r.
      destruct (py_index_in_range rw' c) as (x & Ex' & Nx');
        [unfold rw'; rewrite length_list_update; lia|].
      destruct (py_index_in_range rw c) as (y & Ey' & Ny'); [lia|].
      rewrite Ex', Ey'. unfold rw' in Nx'.
      destruct (Z.eqb_spec c col) as [->|Hnc].
      * rewrite nth_error_list_update_eq in Nx' by lia. congruence.
      * rewrite nth_error_list_update_neq in Nx' by lia. congruence.
    + rewrite andb_false_r.
      rewrite nth_error_list_update_neq in Nx by lia.
      rewrite Ny in Nx. injection Nx as <-. reflexivity.
Qed.

(* ================================================================= *)
(** * The object-level [make_move] *)

Module HeapFacts.
Import Heap.

Lemma load_app_l (h t : heap) (l : loc) :
  (l < List.length h)%nat -> load (h ++ t) l = load h l.
Proof. intros H. unfold load. apply nth_error_app1; auto. Qed.

Lemma load_some_lt (h : heap) (l : loc) (o : obj) :
  load h l = Some o -> (l < List.length h)%nat.
Proof. intros H. apply nth_error_Some. unfold load in H. congruence. Qed.

Lemma load_app_some (h t : heap) (l : loc) (o : obj) :
  load h l = Some o -> load (h ++ t) l = Some o.
Proof. intros H. rewrite load_app_l; eauto using load_some_lt. Qed.

Lemma load_alloc (h : heap) (o : obj) :
  load (h ++ [o]) (List.length h) = Some o.
Proof.
  unfold load. rewrite nth_error_app2 by lia. rewrite Nat.sub_diag. reflexivity.
Qed.

Lemma load_store_eq (h : heap) (l : loc) (o : obj) :
  (l < List.length h)%nat -> load (list_update h l o) l = Some o.
Proof. apply nth_error_list_update_eq. Qed.

Lemma load_store_neq (h : heap) (l l' : loc) (o : obj) :
  l <> l' -> load (list_update h l o) l' = load h l'.
Proof. apply nth_error_list_update_neq. Qed.

Lemma agree_refl (h : heap) : agree (List.length h) h h.
Proof. split; auto. Qed.

Lemma agree_alloc n h0 h o : agree n h0 h -> agree n h0 (h ++ [o]).
Proof.
  intros [Hn Hl]. split.
  - rewrite length_app. lia.
  - intros l Hlt. rewrite load_app_l by lia. auto.
Qed.

Lemma agree_app n h0 h t : agree n h0 h -> agree n h0 (h ++ t).
Proof.
  intros [Hn Hl]. split.
  - rewrite length_app. lia.
  - intros l Hlt. rewrite load_app_l by lia. auto.
Qed.

Lemma agree_store n h0 h l o :
  (n <= l)%nat -> agree n h0 h -> agree n h0 (list_update h l o).
Proof.
  intros Hle [Hn Hl]. split.
  - rewrite length_list_update. lia.
  - intros l' Hlt. rewrite load_store_neq by lia. auto.
Qed.

Lemma read_rows_length h rows b :
  read_rows h rows = Some b -> List.length b = List.length rows.
Proof.
  revert b. induction rows as [|r rest IH]; simpl; intros b H.
  - injection H as <-. reflexivity.
  - destruct (load h r) as [[cells| | |]|]; try discriminate.
    destruct (read_rows h rest) as [b'|]; try discriminate.
    injection H as <-. simpl. f_equal. auto.
Qed.

Lemma read_rows_nth h rows b k r :
  read_rows h rows = Some b -> nth_error rows k = Some r ->
  exists cells, nth_error b k = Some cells /\ load h r = Some (ORow cells).
Proof.
  revert b k. induction rows as [|r0 rest IH]; intros b k H Hk.
  - destruct k; discriminate.
  - simpl in H.
    destruct (load h r0) as [[cells| | |]|] eqn:E; try discriminate.
    destruct (read_rows h rest) as [b'|] eqn:E'; try discriminate.
    injection H as <-. destruct k as [|k]; simpl in *.
    + injection Hk as <-. eauto.
    + eapply IH; eauto.
Qed.

(** Reading rows only looks at the rows. *)
Lemma read_rows_ext h h' rows :
  (forall r, In r rows -> load h' r = load h r) ->
  read_rows h' rows = read_rows h rows.
Proof.
  induction rows as [|r rest IH]; simpl; intros H; auto.
  rewrite H by auto. rewrite IH by auto. reflexivity.
Qed.

Lemma read_rows_loaded h rows b r :
  read_rows h rows = Some b -> In r rows -> exists cells, load h r = Some (ORow cells).
Proof.
  intros H Hin. apply In_nth_error in Hin as [k Hk].
  destruct (read_rows_nth _ _ _ _ _ H Hk) as (cells & _ & L). eauto.
Qed.

Lemma read_rows_app h t rows b :
  read_rows h rows = Some b -> read_rows (h ++ t) rows = Some b.
Proof.
  intros H. rewrite <- H. apply read_rows_ext. intros r Hr.
  destruct (read_rows_loaded _ _ _ _ H Hr) as (cells & L).
  rewrite L. eapply load_app_some; eauto.
Qed.

(** Updating one row object changes that row of the board and no
    other, because no row is shared. *)
Lemma read_rows_store h rows b k r cells' :
  read_rows h rows = Some b -> NoDup rows -> nth_error rows k = Some r ->
  read_rows (list_update h r (ORow cells')) rows
  = Some (list_update b k cells').
Proof.
  revert b k. induction rows as [|r0 rest IH]; intros b k H Hnd Hk.
  - destruct k; discriminate.
  - simpl in H.
    destruct (load h r0) as [[cells| | |]|] eqn:E; try discriminate.
    destruct (read_rows h rest) as [b'|] eqn:E'; try discriminate.
    injection H as <-. inversion Hnd as [|? ? Hnotin Hnd']; subst.
    destruct k as [|k]; simpl in Hk.
    + injection Hk as <-. simpl.
      rewrite load_store_eq by eauto using load_some_lt.
      rewrite (read_rows_ext h).
      * rewrite E'. reflexivity.
      * intros r Hr. apply load_store_neq. intros ->. contradiction.
    + simpl. rewrite load_store_neq.
      * rewrite E. erewrite IH; eauto.
      * intros ->. apply Hnotin. eapply nth_error_In; eauto.
Qed.

Lemma alloc_rows_spec (rows : list (list ascii)) (h : heap) :
  alloc_rows rows h
  = Ok (seq (List.length h) (List.length rows), h ++ map ORow rows).
Proof.
  revert h. induction rows as [|r rest IH]; intros h; simpl.
  - unfold hret. rewrite app_nil_r. reflexivity.
  - unfold hbind, alloc at 1. rewrite IH. unfold hret.
    rewrite length_app, <- app_assoc. simpl.
    replace (List.length h + 1)%nat with (S (List.length h)) by lia.
    reflexivity.
Qed.

Lemma copy_rows_spec (rows : list loc) (b : board_t) (h : heap) :
  read_rows h rows = Some b ->
  copy_rows rows h
  = Ok (seq (List.length h) (List.length rows), h ++ map ORow b).
Proof.
  revert b h. induction rows as [|r rest IH]; intros b h H; simpl in *.
  - injection H as <-. unfold hret. simpl. rewrite app_nil_r. reflexivity.
  - destruct (load h r) as [[cells| | |]|] eqn:E; try discriminate.
    destruct (read_rows h rest) as [b'|] eqn:E'; try discriminate.
    injection H as <-.
    unfold hbind, load_row, alloc. rewrite E.
    rewrite (IH b') by (apply read_rows_app; auto).
    unfold hret. rewrite length_app, <- app_assoc. simpl.
    replace (List.length h + 1)%nat with (S (List.length h)) by lia.
    reflexivity.
Qed.

Lemma read_rows_fresh (h t : heap) (b : board_t) :
  read_rows (h ++ map ORow b ++ t) (seq (List.length h) (List.length b)) = Some b.
Proof.
  revert h. induction b as [|cells b IH]; intros h; simpl; auto.
  unfold load. rewrite nth_error_app2 by lia. rewrite Nat.sub_diag. simpl.
  specialize (IH (h ++ [ORow cells])).
  rewrite length_app, <- app_assoc in IH. simpl in IH.
  replace (List.length h + 1)%nat with (S (List.length h)) in IH by lia.
  rewrite IH. reflexivity.
Qed.
End HeapFacts.

Module HeapSteps.
Import Heap HeapFacts.

Lemma load_state_ok h l b p ep hs :
  load h l = Some (OState b p ep hs) -> load_state l h = Ok ((b, p, ep, hs), h).
Proof. intros H. unfold load_state. rewrite H. reflexivity. Qed.

Lemma load_board_ok h l rows :
  load h l = Some (OBoard rows) -> load_board l h = Ok (rows, h).
Proof. intros H. unfold load_board. rewrite H. reflexivity. Qed.

Lemma load_row_ok h l cells :
  load h l = Some (ORow cells) -> load_row l h = Ok (cells, h).
Proof. intros H. unfold load_row. rewrite H. reflexivity. Qed.

Lemma load_moves_ok h l ms :
  load h l = Some (OMoves ms) -> load_moves l h = Ok (ms, h).
Proof. intros H. unfold load_moves. rewrite H. reflexivity. Qed.

Lemma set_board_ok h l b p ep hs b' :
  load h l = Some (OState b p ep hs) ->
  set_board l b' h = Ok (tt, list_update h l (OState b' p ep hs)).
Proof.
  intros H. unfold set_board, hbind. rewrite (load_state_ok _ _ _ _ _ _ H).
  reflexivity.
Qed.

Lemma set_current_player_ok h l b p ep hs p' :
  load h l = Some (OState b p ep hs) ->
  set_current_player l p' h = Ok (tt, list_update h l (OState b p' ep hs)).
Proof.
  intros H. unfold set_current_player, hbind.
  rewrite (load_state_ok _ _ _ _ _ _ H). reflexivity.
Qed.

Lemma set_en_passant_target_ok h l b p ep hs ep' :
  load h l = Some (OState b p ep hs) ->
  set_en_passant_target l ep' h = Ok (tt, list_update h l (OState b p ep' hs)).
Proof.
  intros H. unfold set_en_passant_target, hbind.
  rewrite (load_state_ok _ _ _ _ _ _ H). reflexivity.
Qed.

Lemma set_move_history_ok h l b p ep hs hs' :
  load h l = Some (OState b p ep hs) ->
  set_move_history l hs' h = Ok (tt, list_update h l (OState b p ep hs')).
Proof.
  intros H. unfold set_move_history, hbind.
  rewrite (load_state_ok _ _ _ _ _ _ H). reflexivity.
Qed.

(** [GameState()] allocates above everything there is. *)
Lemma new_GameState_spec (h : heap) :
  exists ns h',
    Heap.new_GameState h = Ok (ns, h')
    /\ agree (List.length h) h h'
    /\ (List.length h <= ns)%nat
    /\ exists b p ep hs, load h' ns = Some (OState b p ep hs).
Proof.
  unfold Heap.new_GameState, hbind. rewrite alloc_rows_spec.
  unfold alloc. eexists _, _. split; [reflexivity|]. split; [|split].
  - repeat apply agree_alloc. apply agree_app. apply agree_refl.
  - rewrite !length_app. lia.
  - eexists _, _, _, _. apply load_alloc.
Qed.

Lemma read_state_inv h self s :
  read_state h self = Some s ->
  exists b hs rows,
    load h self = Some (OState b (current_player s) (en_passant_target s) hs)
    /\ load h b = Some (OBoard rows)
    /\ load h hs = Some (OMoves (move_history s))
    /\ read_rows h rows = Some (board s).
Proof.
  unfold read_state. intros H.
  destruct (load h self) as [[| | |b p ep hs]|] eqn:E1; try discriminate.
  destruct (load h b) as [[|rows | |]|] eqn:E2; try discriminate.
  destruct (load h hs) as [[| |ms |]|] eqn:E3; try discriminate.
  destruct (read_rows h rows) as [bd|] eqn:E4; try discriminate.
  injection H as <-. simpl. eauto 10.
Qed.

Lemma owned_read_state n h self s :
  owned n h self s -> read_state h self = Some s.
Proof.
  intros (b & hs & rows & L1 & _ & _ & _ & L2 & _ & _ & R & L3).
  unfold read_state. rewrite L1, L2, L3, R. destruct s; reflexivity.
Qed.

(** What lies below [n] and stands for a position keeps doing so. *)
Lemma read_state_agree h h' self s :
  agree (List.length h) h h' ->
  read_state h self = Some s -> read_state h' self = Some s.
Proof.
  intros [_ Hag] H.
  destruct (read_state_inv _ _ _ H) as (b & hs & rows & L1 & L2 & L3 & R).
  unfold read_state.
  rewrite (Hag self), L1 by eauto using load_some_lt.
  rewrite (Hag b), L2 by eauto using load_some_lt.
  rewrite (Hag hs), L3 by eauto using load_some_lt.
  rewrite (read_rows_ext h), R.
  - destruct s; reflexivity.
  - intros r Hr. destruct (read_rows_loaded _ _ _ _ R Hr) as (cells & L).
    apply Hag. eauto using load_some_lt.
Qed.

(** [copy]: fresh objects that stand for the same position. *)
Lemma copy_spec h self s :
  read_state h self = Some s ->
  exists ns h',
    copy self h = Ok (ns, h')
    /\ agree (List.length h) h h'
    /\ owned (List.length h) h' ns s.
Proof.
  intros H.
  destruct (read_state_inv _ _ _ H) as (b & hs & rows & L1 & L2 & L3 & R).
  destruct (new_GameState_spec h)
    as (ns & h2 & E & Hag2 & Hns & b0 & p0 & ep0 & hs0 & Lns).
  pose proof Hag2 as [Hlen2 Hag2'].
  assert (Hnslt : (ns < List.length h2)%nat) by eauto using load_some_lt.
  assert (Hself : load h2 self = Some (OState b (current_player s)
                                         (en_passant_target s) hs))
    by (rewrite Hag2'; eauto using load_some_lt).
  assert (Hb : load h2 b = Some (OBoard rows))
    by (rewrite Hag2'; eauto using load_some_lt).
  assert (Hhs : load h2 hs = Some (OMoves (move_history s)))
    by (rewrite Hag2'; eauto using load_some_lt).
  assert (Hrows : read_rows h2 rows = Some (board s)).
  { rewrite (read_rows_ext h); auto. intros r Hr.
    destruct (read_rows_loaded _ _ _ _ R Hr) as (cells & L).
    apply Hag2'. eauto using load_some_lt. }
  assert (Hhslt : (hs < List.length h)%nat) by eauto using load_some_lt.
  pose proof (read_rows_length _ _ _ R) as Hlenb.
  set (rows' := seq (List.length h2) (List.length rows)).
  set (h3 := h2 ++ map ORow (board s)).
  set (b' := List.length h3).
  set (h4 := h3 ++ [OBoard rows']).
  set (st1 := OState b' p0 ep0 hs0).
  set (st2 := OState b' (current_player s) ep0 hs0).
  set (st3 := OState b' (current_player s) (en_passant_target s) hs0).
  set (h7 := list_update (list_update (list_update h4 ns st1) ns st2) ns st3).
  set (hs' := List.length h7).
  set (h8 := h7 ++ [OMoves (move_history s)]).
  set (st4 := OState b' (current_player s) (en_passant_target s) hs').
  assert (Hlen3 : List.length h3 = (List.length h2 + List.length rows)%nat)
    by (unfold h3; rewrite length_app, length_map; lia).
  assert (Hlen4 : List.length h4 = S (List.length h3))
    by (unfold h4; rewrite length_app; simpl; lia).
  assert (Hlen7 : List.length h7 = List.length h4)
    by (unfold h7; rewrite !length_list_update; reflexivity).
  assert (Hlen8 : List.length h8 = S (List.length h7))
    by (unfold h8; rewrite length_app; simpl; lia).
  exists ns, (list_update h8 ns st4). split; [|split].
  - unfold copy, hbind. rewrite E.
    rewrite (load_state_ok _ _ _ _ _ _ Hself).
    rewrite (load_board_ok _ _ _ Hb).
    rewrite (copy_rows_spec _ _ _ Hrows). unfold alloc at 1.
    fold rows' h3 b' h4.
    rewrite (set_board_ok h4 ns b0 p0 ep0 hs0)
      by (unfold h4, h3; rewrite <- app_assoc; apply load_app_some; auto).
    rewrite (set_current_player_ok _ ns b' p0 ep0 hs0)
      by (apply load_store_eq; lia).
    rewrite (set_en_passant_target_ok _ ns b' (current_player s) ep0 hs0)
      by (apply load_store_eq; rewrite length_list_update; lia).
    fold st1 st2 st3 h7.
    rewrite (load_moves_ok h7 hs (move_history s)).
    2:{ unfold h7. rewrite !load_store_neq by lia.
        unfold h4, h3. rewrite <- app_assoc. apply load_app_some; auto. }
    unfold alloc. fold hs' h8.
    rewrite (set_move_history_ok h8 ns b' (current_player s)
               (en_passant_target s) hs0).
    2:{ unfold h8. apply load_app_some. unfold h7. apply load_store_eq.
        rewrite !length_list_update. lia. }
    reflexivity.
  - apply agree_store; [lia|]. unfold h8. apply agree_alloc.
    unfold h7. repeat (apply agree_store; [lia|]).
    unfold h4. apply agree_alloc. unfold h3. apply agree_app. auto.
  - exists b', hs', rows'. repeat split.
    + apply load_store_eq. lia.
    + lia.
    + lia.
    + lia.
    + rewrite load_store_neq by lia. unfold h8. rewrite load_app_l by lia.
      unfold h7. rewrite !load_store_neq by lia. unfold h4, b'. apply load_alloc.
    + unfold rows'. apply Forall_forall. intros r Hr. apply in_seq in Hr. lia.
    + apply seq_NoDup.
    + rewrite (read_rows_ext h4).
      * unfold h4, h3, rows'. rewrite <- app_assoc, <- Hlenb.
        apply read_rows_fresh.
      * intros r Hr. unfold rows' in Hr. apply in_seq in Hr.
        rewrite load_store_neq by lia. unfold h8. rewrite load_app_l by lia.
        unfold h7. rewrite !load_store_neq by lia. reflexivity.
    + rewrite load_store_neq by lia. unfold h8, hs'. apply load_alloc.
Qed.
End HeapSteps.

Lemma nth_error_lt {A} (l : list A) k x :
  nth_error l k = Some x -> (k < List.length l)%nat.
Proof. intros H. apply nth_error_Some. congruence. Qed.

Lemma py_index_nth {A} (l : list A) (i : Z) (x : A) :
  py_index l i = Ok x ->
  exists k, nth_error l k = Some x
    /\ (forall B (l' : list B), List.length l' = List.length l ->
          py_index l' i = of_option IndexError (nth_error l' k))
    /\ (forall y, py_setitem l i y = Ok (list_update l k y)).
Proof.
  unfold py_index, py_setitem. intros H.
  destruct ((0 <=? i) && (i <? Z.of_nat (List.length l))) eqn:E1.
  - exists (Z.to_nat i). repeat split.
    + destruct (nth_error l (Z.to_nat i)); simpl in H; congruence.
    + intros B l' Hl. rewrite Hl, E1. reflexivity.
  - destruct ((- Z.of_nat (List.length l) <=? i) && (i <? 0)) eqn:E2;
      [|discriminate].
    exists (Z.to_nat (i + Z.of_nat (List.length l))). repeat split.
    + destruct (nth_error l _); simpl in H; congruence.
    + intros B l' Hl. rewrite Hl, E1, E2. reflexivity.
Qed.

Module HeapMoves.
Import Heap HeapFacts HeapSteps.

Lemma owned_row_not_state h self s b hs rows :
  load h self = Some (OState b (current_player s) (en_passant_target s) hs) ->
  read_rows h rows = Some (board s) ->
  forall r, In r rows -> r <> self.
Proof.
  intros L R r Hr ->. destruct (read_rows_loaded _ _ _ _ R Hr) as (c & L').
  congruence.
Qed.

Lemma getitem_owned n h self s row col c :
  owned n h self s ->
  board_get (board s) row col = Ok c ->
  getitem self row col h = Ok (c, h).
Proof.
  intros (b & hs & rows & L1 & _ & _ & _ & L2 & _ & _ & R & _) Hget.
  unfold board_get in Hget.
  destruct (py_index (board s) row) as [cells|] eqn:E; [|discriminate].
  simpl in Hget.
  destruct (py_index_nth _ _ _ E) as (k & Nk & Hidx & _).
  unfold getitem, hbind.
  rewrite (load_state_ok _ _ _ _ _ _ L1), (load_board_ok _ _ _ L2).
  rewrite (Hidx _ rows) by (symmetry; eapply read_rows_length; eauto).
  destruct (nth_error rows k) as [r|] eqn:Er.
  - destruct (read_rows_nth _ _ _ _ _ R Er) as (cells' & Nk' & Lr).
    assert (cells' = cells) by congruence. subst cells'.
    simpl. rewrite (load_row_ok _ _ _ Lr). unfold hlift. rewrite Hget.
    reflexivity.
  - apply nth_error_None in Er. apply nth_error_lt in Nk.
    erewrite read_rows_length in Nk by eauto. lia.
Qed.

Lemma setitem_owned n h self s row col v b' :
  owned n h self s ->
  board_set (board s) row col v = Ok b' ->
  exists h', setitem self row col v h = Ok (tt, h')
    /\ owned n h' self (with_board s b')
    /\ forall h0, agree n h0 h -> agree n h0 h'.
Proof.
  intros (b & hs & rows & L1 & G1 & G2 & G3 & L2 & Hfresh & Hnd & R & L3) Hset.
  unfold board_set in Hset.
  destruct (py_index (board s) row) as [cells|] eqn:E; [|discriminate].
  simpl in Hset.
  destruct (py_setitem cells col v) as [cells'|] eqn:E'; [|discriminate].
  simpl in Hset.
  destruct (py_index_nth _ _ _ E) as (k & Nk & Hidx & Hupd).
  rewrite Hupd in Hset. injection Hset as <-.
  destruct (nth_error rows k) as [r|] eqn:Er.
  2:{ apply nth_error_None in Er. apply nth_error_lt in Nk.
      erewrite read_rows_length in Nk by eauto. lia. }
  destruct (read_rows_nth _ _ _ _ _ R Er) as (cells0 & Nk' & Lr).
  assert (cells0 = cells) by congruence. subst cells0.
  assert (Hr : In r rows) by (eapply nth_error_In; eauto).
  assert (Hrn : (n <= r)%nat) by (rewrite Forall_forall in Hfresh; auto).
  exists (list_update h r (ORow cells')). split; [|split].
  - unfold setitem, hbind.
    rewrite (load_state_ok _ _ _ _ _ _ L1), (load_board_ok _ _ _ L2).
    rewrite (Hidx _ rows) by (symmetry; eapply read_rows_length; eauto).
    rewrite Er. simpl. rewrite (load_row_ok _ _ _ Lr).
    unfold hlift. rewrite E'. reflexivity.
  - exists b, hs, rows. simpl. repeat split; auto.
    + rewrite load_store_neq; auto. intros ->. congruence.
    + rewrite load_store_neq; auto. intros ->. congruence.
    + apply read_rows_store; auto.
    + rewrite load_store_neq; auto. intros ->. congruence.
  - intros h0 Hag. apply agree_store; auto.
Qed.

Lemma set_en_passant_target_owned n h self s ep' :
  owned n h self s ->
  exists h', set_en_passant_target self ep' h = Ok (tt, h')
    /\ owned n h' self {| board := board s;
                          current_player := current_player s;
                          en_passant_target := ep';
                          move_history := move_history s |}
    /\ forall h0, agree n h0 h -> agree n h0 h'.
Proof.
  intros (b & hs & rows & L1 & G1 & G2 & G3 & L2 & Hfresh & Hnd & R & L3).
  eexists. split; [eapply set_en_passant_target_ok; eauto|]. split.
  - exists b, hs, rows. simpl. repeat split; auto.
    + apply load_store_eq. eauto using load_some_lt.
    + rewrite load_store_neq; auto. intros ->. congruence.
    + rewrite (read_rows_ext h); auto. intros r Hr.
      apply load_store_neq. intros <-.
      destruct (read_rows_loaded _ _ _ _ R Hr) as (c & L'). congruence.
    + rewrite load_store_neq; auto. intros ->. congruence.
  - intros h0 Hag. apply agree_store; auto.
Qed.

Lemma set_current_player_owned n h self s p' :
  owned n h self s ->
  exists h', set_current_player self p' h = Ok (tt, h')
    /\ owned n h' self {| board := board s;
                          current_player := p';
                          en_passant_target := en_passant_target s;
                          move_history := move_history s |}
    /\ forall h0, agree n h0 h -> agree n h0 h'.
Proof.
  intros (b & hs & rows & L1 & G1 & G2 & G3 & L2 & Hfresh & Hnd & R & L3).
  eexists. split; [eapply set_current_player_ok; eauto|]. split.
  - exists b, hs, rows. simpl. repeat split; auto.
    + apply load_store_eq. eauto using load_some_lt.
    + rewrite load_store_neq; auto. intros ->. congruence.
    + rewrite (read_rows_ext h); auto. intros r Hr.
      apply load_store_neq. intros <-.
      destruct (read_rows_loaded _ _ _ _ R Hr) as (c & L'). congruence.
    + rewrite load_store_neq; auto. intros ->. congruence.
  - intros h0 Hag. apply agree_store; auto.
Qed.

Lemma append_move_owned n h self s m :
  owned n h self s ->
  exists h', append_move self m h = Ok (tt, h')
    /\ owned n h' self {| board := board s;
                          current_player := current_player s;
                          en_passant_target := en_passant_target s;
                          move_history := move_history s ++ [m] |}
    /\ forall h0, agree n h0 h -> agree n h0 h'.
Proof.
  intros (b & hs & rows & L1 & G1 & G2 & G3 & L2 & Hfresh & Hnd & R & L3).
  exists (list_update h hs (OMoves (move_history s ++ [m]))). split; [|split].
  - unfold append_move, hbind.
    rewrite (load_state_ok _ _ _ _ _ _ L1), (load_moves_ok _ _ _ L3).
    reflexivity.
  - exists b, hs, rows. simpl. repeat split; auto.
    + rewrite load_store_neq; auto. intros ->. congruence.
    + rewrite load_store_neq; auto. intros ->. congruence.
    + rewrite (read_rows_ext h); auto. intros r Hr.
      apply load_store_neq. intros <-.
      destruct (read_rows_loaded _ _ _ _ R Hr) as (c & L'). congruence.
    + apply load_store_eq. eauto using load_some_lt.
  - intros h0 Hag. apply agree_store; auto.
Qed.

Lemma load_state_owned n h self s :
  owned n h self s ->
  exists b hs, load_state self h
               = Ok ((b, current_player s, en_passant_target s, hs), h).
Proof.
  intros (b & hs & rows & L1 & _). exists b, hs. apply load_state_ok; auto.
Qed.
End HeapMoves.

(** The object-level [make_move] builds, out of fresh objects only, an
    object that stands for the position the value-level [make_move]
    computes. *)
Lemma make_move_refines h self s m s' :
  Heap.read_state h self = Some s ->
  make_move s m = Ok s' ->
  exists ns h',
    Heap.make_move self m h = Ok (ns, h')
    /\ Heap.agree (List.length h) h h'
    /\ Heap.owned (List.length h) h' ns s'.
Proof.
  intros Hread Hmove.
  destruct m as [[[fc fr] tc] tr]. unfold make_move in Hmove.
  destruct (board_get (board s) fr fc) as [piece|] eqn:Eg; [|discriminate].
  simpl in Hmove.
  destruct (if is_ep_target (en_passant_target s) tc tr
            then board_set (board s) fr tc EMPTY else Ok (board s))
    as [b1|] eqn:E1; [|discriminate].
  simpl in Hmove.
  destruct (board_set b1 fr fc EMPTY) as [b2|] eqn:E2; [|discriminate].
  simpl in Hmove.
  destruct (board_set b2 tr tc piece) as [b3|] eqn:E3; [|discriminate].
  simpl in Hmove. injection Hmove as <-.
  destruct (HeapSteps.copy_spec _ _ _ Hread) as (ns & h1 & Ec & Hag1 & Ho1).
  assert (exists h2, (if is_ep_target (en_passant_target s) tc tr
                      then Heap.setitem ns fr tc EMPTY else Heap.hret tt) h1 = Ok (tt, h2)
                     /\ Heap.owned (List.length h) h2 ns (with_board s b1)
                     /\ Heap.agree (List.length h) h h2) as (h2 & Es1 & Ho2 & Hag2).
  { destruct (is_ep_target (en_passant_target s) tc tr).
    - destruct (HeapMoves.setitem_owned _ _ _ _ _ _ _ _ Ho1 E1) as (h2 & ? & ? & ?).
      eauto.
    - injection E1 as <-. exists h1. split; [reflexivity|].
      split; [|exact Hag1].
      replace (with_board s (board s)) with s by (destruct s; reflexivity).
      exact Ho1. }
  destruct (HeapMoves.setitem_owned _ _ _ _ fr fc EMPTY b2 Ho2 E2)
    as (h3 & Es2 & Ho3 & Hag3).
  destruct (HeapMoves.setitem_owned _ _ _ _ tr tc piece b3 Ho3 E3)
    as (h4 & Es3 & Ho4 & Hag4).
  destruct (HeapMoves.set_en_passant_target_owned _ _ _ _ None Ho4)
    as (h5 & Es4 & Ho5 & Hag5).
  simpl in Ho5.
  set (ep' := if Z.abs (tr - fr) =? 2
              then Some (tc, (fr + tr) / 2) else None).
  assert (exists h6, (if Z.abs (tr - fr) =? 2
                      then Heap.set_en_passant_target ns (Some (tc, (fr + tr) / 2))
                      else Heap.hret tt) h5 = Ok (tt, h6)
                     /\ Heap.owned (List.length h) h6 ns
                          {| board := b3;
                             current_player := current_player s;
                             en_passant_target := ep';
                             move_history := move_history s |}
                     /\ (forall h0, Heap.agree (List.length h) h0 h5 ->
                                    Heap.agree (List.length h) h0 h6))
    as (h6 & Es5 & Ho6 & Hag6).
  { unfold ep'. destruct (Z.abs (tr - fr) =? 2).
    - destruct (HeapMoves.set_en_passant_target_owned _ _ _ _
                  (Some (tc, (fr + tr) / 2)) Ho5) as (h6 & ? & ? & ?).
      eauto.
    - exists h5. split; [reflexivity|]. split; auto. }
  destruct (HeapMoves.set_current_player_owned _ _ _ _
              (other_player (current_player s)) Ho6)
    as (h7 & Es6 & Ho7 & Hag7).
  simpl in Ho7.
  destruct (HeapMoves.append_move_owned _ _ _ _ (fc, fr, tc, tr) Ho7)
    as (h8 & Es7 & Ho8 & Hag8).
  simpl in Ho8.
  destruct (HeapMoves.load_state_owned _ _ _ _ Ho1) as (bl1 & hl1 & Ls1).
  destruct (HeapMoves.load_state_owned _ _ _ _ Ho6) as (bl6 & hl6 & Ls6).
  simpl in Ls6.
  exists ns, h8. split; [|split].
  - unfold Heap.make_move, Heap.hbind. rewrite Ec.
    rewrite (HeapMoves.getitem_owned _ _ _ _ _ _ _ Ho1 Eg).
    rewrite Ls1, Es1, Es2, Es3, Es4, Es5, Ls6, Es6, Es7. reflexivity.
  - apply Hag8, Hag7, Hag6, Hag5, Hag4, Hag3, Hag2.
  - exact Ho8.
Qed.

(* ================================================================= *)
(** * [make_move] on well-formed positions *)

(** On an 8x8 board a move within bounds is applied without error, and
    the new board is the old one with the destination, the source and
    (for an en-passant capture) the cell level with the mover rewritten. *)
Lemma make_move_ok (s : GameState) (fc fr tc tr : Z) :
  wf_board (board s) -> move_in_bounds (fc, fr, tc, tr) ->
  exists s',
    make_move s (fc, fr, tc, tr) = Ok s'
    /\ wf_board (board s')
    /\ (forall c r, 0 <= c < 8 -> 0 <= r < 8 ->
          cell_at (board s') c r =
            if (c =? tc) && (r =? tr) then cell_at (board s) fc fr
            else if (c =? fc) && (r =? fr) then EMPTY
            else if is_ep_target (en_passant_target s) tc tr
                    && ((c =? tc) && (r =? fr)) then EMPTY
            else cell_at (board s) c r)
    /\ current_player s' = other_player (current_player s)
    /\ en_passant_target s' =
         (if rows_two_apart (fc, fr, tc, tr)
          then Some (tc, (fr + tr) / 2) else None)
    /\ move_history s' = move_history s ++ [(fc, fr, tc, tr)].
Proof.
  intros Hwf (Hfc & Hfr & Htc & Htr).
  assert (exists b1,
    (if is_ep_target (en_passant_target s) tc tr
     then board_set (board s) fr tc EMPTY else Ok (board s)) = Ok b1
    /\ wf_board b1
    /\ forall c r, 0 <= c < 8 -> 0 <= r < 8 ->
         cell_at b1 c r =
           if is_ep_target (en_passant_target s) tc tr && ((c =? tc) && (r =? fr))
           then EMPTY else cell_at (board s) c r) as (b1 & E1 & W1 & C1).
  { destruct (is_ep_target (en_passant_target s) tc tr).
    - destruct (board_set_ok (board s) fr tc EMPTY Hwf Hfr Htc)
        as (b1 & E & W & C).
      exists b1. split; [exact E|]. split; [exact W|].
      intros c r Hc Hr. rewrite C by auto. reflexivity.
    - exists (board s). split; [reflexivity|]. split; [exact Hwf|].
      reflexivity. }
  destruct (board_set_ok b1 fr fc EMPTY W1 Hfr Hfc) as (b2 & E2 & W2 & C2).
  destruct (board_set_ok b2 tr tc (cell_at (board s) fc fr) W2 Htr Htc)
    as (b3 & E3 & W3 & C3).
  eexists. split.
  - unfold make_move. rewrite (board_get_cell_at _ _ _ Hwf Hfr Hfc). simpl.
    rewrite E1. simpl. rewrite E2. simpl. rewrite E3. simpl. reflexivity.
  - simpl. repeat split; auto; try apply W3.
    intros c r Hc Hr. rewrite C3, C2, C1 by auto. reflexivity.
Qed.

Lemma make_move_wf (s s' : GameState) (m : move) :
  wf_board (board s) -> move_in_bounds m -> make_move s m = Ok s' ->
  wf_board (board s').
Proof.
  destruct m as [[[fc fr] tc] tr]. intros Hwf Hm E.
  destruct (make_move_ok s fc fr tc tr Hwf Hm) as (s2 & E2 & W & _).
  congruence.
Qed.

(* ================================================================= *)
(** * Terminal detection *)

Lemma reached_end_white (b : board_t) (n a c : nat) :
  (a <= c < a + n)%nat ->
  cell_at b (Z.of_nat c) 7 = WHITE ->
  (forall c', (a <= c' < c)%nat -> cell_at b (Z.of_nat c') 0 <> BLACK) ->
  reached_end b (map Z.of_nat (seq a n)) = Some WHITE.
Proof.
  revert a. induction n as [|n IH]; intros a Hc Hw Hb; [lia|].
  simpl. destruct (Ascii.eqb_spec (cell_at b (Z.of_nat a) 7) WHITE) as [|Hnw]; auto.
  assert (a <> c) by congruence.
  destruct (Ascii.eqb_spec (cell_at b (Z.of_nat a) 0) BLACK) as [Hbl|_].
  - exfalso. apply (Hb a); auto. lia.
  - apply IH; auto; try lia. intros c' Hc'. apply Hb. lia.
Qed.

Lemma reached_end_black (b : board_t) (n a c : nat) :
  (a <= c < a + n)%nat ->
  cell_at b (Z.of_nat c) 0 = BLACK ->
  (forall c', (a <= c' <= c)%nat -> cell_at b (Z.of_nat c') 7 <> WHITE) ->
  reached_end b (map Z.of_nat (seq a n)) = Some BLACK.
Proof.
  revert a. induction n as [|n IH]; intros a Hc Hb Hw; [lia|].
  simpl. destruct (Ascii.eqb_spec (cell_at b (Z.of_nat a) 7) WHITE) as [Hwh|_].
  - exfalso. apply (Hw a); auto. lia.
  - destruct (Ascii.eqb_spec (cell_at b (Z.of_nat a) 0) BLACK) as [|Hnb]; auto.
    assert (a <> c) by congruence.
    apply IH; auto; try lia. intros c' Hc'. apply Hw. lia.
Qed.

Lemma reached_end_none (b : board_t) (cols : list Z) :
  reached_end b cols = None <->
  forall c, In c cols -> cell_at b c 7 <> WHITE /\ cell_at b c 0 <> BLACK.
Proof.
  induction cols as [|c0 rest IH]; simpl.
  - split; [intros _ c []|reflexivity].
  - destruct (Ascii.eqb_spec (cell_at b c0 7) WHITE) as [Hw|Hw].
    + split; [discriminate|]. intros H. destruct (H c0) as [A B]; [left; reflexivity|]. contradiction.
    + destruct (Ascii.eqb_spec (cell_at b c0 0) BLACK) as [Hb|Hb].
      * split; [discriminate|]. intros H. destruct (H c0) as [A B]; [left; reflexivity|]. contradiction.
      * rewrite IH. split.
        -- intros H c [<-|Hc]; auto.
        -- intros H c Hc. apply H. auto.
Qed.

(** C3 (as the code has it).  The scan goes file by file, and in each
    file looks for white on rank 8 before black on rank 1.  So a white
    pawn on rank 8 of file [c] decides for white when no black pawn
    stands on rank 1 of an earlier file, and a black pawn on rank 1 of
    file [c] decides for black when no white pawn stands on rank 8 of
    that file or an earlier one. *)
Theorem is_terminal_first_file (s : GameState) (c : Z) :
  0 <= c < 8 ->
  (white_found_first (board s) c -> is_terminal s = (true, Some WHITE))
  /\ (black_found_first (board s) c -> is_terminal s = (true, Some BLACK)).
Proof.
  intros Hc. unfold is_terminal, range. change (Z.to_nat BOARD_SIZE) with 8%nat.
  split; intros [Hcell Hfree].
  - rewrite (reached_end_white (board s) 8 0 (Z.to_nat c)); auto.
    + lia.
    + rewrite Z2Nat.id by lia. auto.
    + intros c' Hc'. apply Hfree. lia.
  - rewrite (reached_end_black (board s) 8 0 (Z.to_nat c)); auto.
    + lia.
    + rewrite Z2Nat.id by lia. auto.
    + intros c' Hc'. apply Hfree. lia.
Qed.

(** C3 as the specification words it does not hold: with a black pawn
    on a1 and a white pawn on h8 the rule of the specification names
    white, the code black. *)
Lemma is_terminal_both_ends_black :
  let s := position_of "Ba1 Wh8" in
  cell_at (board s) 7 7 = WHITE
  /\ cell_at (board s) 0 0 = BLACK
  /\ spec_reached_end (board s) = Some WHITE
  /\ is_terminal s = (true, Some BLACK)
  /\ is_terminal s <> (true, Some WHITE).
Proof. vm_compute. repeat split. discriminate. Qed.

Lemma is_terminal_first_file_witness :
  is_terminal (position_of "Bb1 Wa8") = (true, Some WHITE).
Proof.
  apply (is_terminal_first_file (position_of "Bb1 Wa8") 0); [lia|].
  split; [reflexivity|]. intros c' Hc'. lia.
Defined.

(* ================================================================= *)
(** * The evaluator *)

(** The loop of [is_passed_pawn] ends within the bound it is given:
    each turn moves [check_row] one step towards the edge of the board. *)
Lemma passed_loop_total (b : board_t) (col row : Z) (color : ascii) :
  let direction := if Ascii.eqb color WHITE then 1 else -1 in
  exists r, passed_loop 9 b col (row + direction) direction
              (other_player color) = Some r.
Proof.
  assert (Hup : forall fuel check_row opp,
             (1 <= fuel)%nat -> 8 - check_row < Z.of_nat fuel ->
             exists r, passed_loop fuel b col check_row 1 opp = Some r).
  { induction fuel as [|fuel IH]; intros check_row opp H1 Hf; [lia|].
    cbn [passed_loop].
    destruct ((0 <=? check_row) && (check_row <? 8)) eqn:E; eauto.
    match goal with
    | |- context [if ?x then Some false else _] => destruct x
    end; eauto.
    apply andb_true_iff in E. apply IH; lia. }
  assert (Hdown : forall fuel check_row opp,
             (1 <= fuel)%nat -> check_row + 1 < Z.of_nat fuel ->
             exists r, passed_loop fuel b col check_row (-1) opp = Some r).
  { induction fuel as [|fuel IH]; intros check_row opp H1 Hf; [lia|].
    cbn [passed_loop].
    destruct ((0 <=? check_row) && (check_row <? 8)) eqn:E; eauto.
    match goal with
    | |- context [if ?x then Some false else _] => destruct x
    end; eauto.
    apply andb_true_iff in E. apply IH; lia. }
  cbv zeta. destruct (Ascii.eqb color WHITE).
  - destruct (Z_lt_le_dec (row + 1) 0) as [Hneg|Hnn].
    + exists true. cbn [passed_loop].
      replace (0 <=? row + 1) with false by (symmetry; apply Z.leb_gt; lia).
      reflexivity.
    + apply Hup; lia.
  - destruct (Z_lt_le_dec (row + -1) 8) as [Hlt|Hge].
    + apply Hdown; lia.
    + exists true. cbn [passed_loop].
      replace (row + -1 <? 8) with false by (symmetry; apply Z.ltb_ge; lia).
      rewrite andb_false_r. reflexivity.
Qed.

Lemma zsum_cons {A} (f : A -> Z) x l : zsum f (x :: l) = f x + zsum f l.
Proof. reflexivity. Qed.

Lemma zsum_add {A} (f g : A -> Z) l :
  zsum (fun x => f x + g x) l = zsum f l + zsum g l.
Proof. induction l as [|x l IH]; simpl; lia. Qed.

Lemma zsum_scale {A} (k : Z) (f : A -> Z) l :
  zsum (fun x => f x * k) l = k * zsum f l.
Proof. induction l as [|x l IH]; simpl; lia. Qed.

Lemma zsum_indicator {A} (k : Z) (p : A -> bool) l :
  zsum (fun x => if p x then k else 0) l = k * Z.of_nat (List.length (filter p l)).
Proof.
  induction l as [|x l IH]; simpl; [lia|].
  destruct (p x); simpl List.length; lia.
Qed.

Lemma zsum_le {A} (f g : A -> Z) l :
  (forall x, In x l -> f x <= g x) -> zsum f l <= zsum g l.
Proof.
  induction l as [|x l IH]; simpl; intros H; [lia|].
  assert (f x <= g x) by auto. assert (zsum f l <= zsum g l) by auto. lia.
Qed.

Lemma zsum_filter_le {A} (f : A -> Z) (p q : A -> bool) l :
  (forall x, In x l -> 0 <= f x) ->
  (forall x, In x l -> p x = true -> q x = true) ->
  zsum f (filter p l) <= zsum f (filter q l).
Proof.
  induction l as [|x l IH]; simpl; intros Hf Hpq; [lia|].
  assert (IH' : zsum f (filter p l) <= zsum f (filter q l)) by auto.
  assert (H0 : 0 <= f x) by auto.
  destruct (p x) eqn:Ep.
  - rewrite (Hpq x) by auto. simpl. lia.
  - destruct (q x); simpl; lia.
Qed.

Lemma zsum_bound {A} (f : A -> Z) (k : Z) l :
  (forall x, In x l -> f x <= k) -> zsum f l <= k * Z.of_nat (List.length l).
Proof.
  induction l as [|x l IH]; intros H; [simpl; lia|].
  assert (f x <= k) by (apply H; left; auto).
  assert (zsum f l <= k * Z.of_nat (List.length l)) by (apply IH; intros; apply H; right; auto).
  rewrite zsum_cons. simpl List.length. lia.
Qed.

Lemma zsum_nonneg {A} (f : A -> Z) l :
  (forall x, In x l -> 0 <= f x) -> 0 <= zsum f l.
Proof.
  induction l as [|x l IH]; simpl; intros H; [lia|].
  assert (0 <= f x) by auto. assert (0 <= zsum f l) by auto. lia.
Qed.

Lemma fold_eval_my_pawn ev b c l acc :
  fold_left (eval_my_pawn ev b c) l acc = acc + zsum (my_pawn_term ev b c) l.
Proof.
  revert acc. induction l as [|[col row] l IH]; intros acc; [simpl; lia|].
  cbn [fold_left]. rewrite IH, zsum_cons.
  unfold eval_my_pawn, my_pawn_term, passed_bonus, in_center. cbn [fst snd].
  destruct (is_passed_pawn b col row c);
    destruct ((2 <=? col) && (col <=? 5)); lia.
Qed.

Lemma fold_eval_opp_pawn ev b c l acc :
  fold_left (eval_opp_pawn ev b c) l acc = acc - zsum (opp_pawn_term ev b c) l.
Proof.
  revert acc. induction l as [|[col row] l IH]; intros acc; [simpl; lia|].
  cbn [fold_left]. rewrite IH, zsum_cons.
  unfold eval_opp_pawn, opp_pawn_term, passed_bonus. cbn [fst snd].
  destruct (is_passed_pawn b col row c); lia.
Qed.

(** The score of a position that is not over, as the code computes it. *)
Lemma evaluate_nonterminal (ev : Evaluator) (s : GameState) (c : ascii) :
  is_terminal s = (false, None) ->
  evaluate ev s c
  = (Z.of_nat (List.length (get_all_pieces (board s) c))
     - Z.of_nat (List.length (get_all_pieces (board s) (other_player c))))
    * material_weight ev
    + zsum (my_pawn_term ev (board s) c) (get_all_pieces (board s) c)
    - zsum (opp_pawn_term ev (board s) (other_player c))
        (get_all_pieces (board s) (other_player c)).
Proof.
  intros Ht. unfold evaluate. rewrite Ht.
  rewrite fold_eval_opp_pawn, fold_eval_my_pawn. lia.
Qed.

(** C5 (as the code has it).  For a position that is not over, the
    score is the material term, the two advancement terms, the centre
    term, plus for each own passed pawn [passed_pawn_weight] and 5 for
    each rank it has advanced, minus the same for each passed pawn of
    the opponent. *)
Theorem evaluate_passed_pawn_term (ev : Evaluator) (s : GameState) (c : ascii) :
  is_terminal s = (false, None) ->
  evaluate ev s c = heuristic_sum ev 5 (board s) c.
Proof.
  intros Ht. rewrite (evaluate_nonterminal ev s c Ht).
  unfold heuristic_sum, my_pawn_term, opp_pawn_term.
  rewrite !zsum_add, !zsum_scale.
  rewrite (zsum_indicator (center_weight ev) (fun p : square => in_center (fst p))).
  unfold square. lia.
Qed.

(** C5 as the specification words it does not hold: with a white pawn
    on a3 and a black one on h7 the code scores 15 for white, the
    formula of the specification 60. *)
Lemma evaluate_not_spec_heuristic :
  let s := position_of "Wa3 Bh7" in
  is_terminal s = (false, None)
  /\ evaluate new_Evaluator s WHITE = 15
  /\ spec_heuristic new_Evaluator (board s) WHITE = 60
  /\ evaluate new_Evaluator s WHITE <> spec_heuristic new_Evaluator (board s) WHITE.
Proof. vm_compute. repeat split. discriminate. Qed.

Lemma evaluate_passed_pawn_term_witness :
  evaluate new_Evaluator (position_of "Wa3 Bh7") WHITE
  = heuristic_sum new_Evaluator 5 (board (position_of "Wa3 Bh7")) WHITE.
Proof.
  apply (evaluate_passed_pawn_term new_Evaluator (position_of "Wa3 Bh7") WHITE).
  reflexivity.
Defined.

(* ================================================================= *)
(** * Bounds on the heuristic score *)

Lemma flat_map_singleton_filter {A B} (f : A -> B) (p : B -> bool) (l : list A) :
  flat_map (fun x => if p (f x) then [f x] else []) l = filter p (map f l).
Proof.
  induction l as [|x l IH]; simpl; auto.
  destruct (p (f x)); simpl; rewrite IH; reflexivity.
Qed.

Lemma filter_flat_map {A B} (f : A -> list B) (p : B -> bool) (l : list A) :
  filter p (flat_map f l) = flat_map (fun x => filter p (f x)) l.
Proof.
  induction l as [|x l IH]; simpl; auto.
  rewrite filter_app, IH. reflexivity.
Qed.

Lemma get_all_pieces_filter (b : board_t) (c : ascii) :
  get_all_pieces b c
  = filter (fun p => Ascii.eqb (cell_at b (fst p) (snd p)) c) all_squares.
Proof.
  unfold get_all_pieces, all_squares. rewrite filter_flat_map.
  apply flat_map_ext. intros row.
  apply (flat_map_singleton_filter (fun col => (col, row))
           (fun p => Ascii.eqb (cell_at b (fst p) (snd p)) c)).
Qed.

Lemma in_all_squares (p : square) :
  In p all_squares <-> 0 <= fst p < 8 /\ 0 <= snd p < 8.
Proof.
  unfold all_squares. rewrite in_flat_map. split.
  - intros (row & Hrow & Hp). apply in_map_iff in Hp as (col & <- & Hcol).
    apply in_range_iff in Hrow, Hcol. simpl. unfold BOARD_SIZE in *. lia.
  - intros [Hc Hr]. exists (snd p). split.
    + apply in_range_iff. unfold BOARD_SIZE. lia.
    + apply in_map_iff. exists (fst p). split.
      * destruct p; reflexivity.
      * apply in_range_iff. unfold BOARD_SIZE. lia.
Qed.

Lemma in_get_all_pieces (b : board_t) (c : ascii) (p : square) :
  In p (get_all_pieces b c) <->
  (0 <= fst p < 8 /\ 0 <= snd p < 8) /\ cell_at b (fst p) (snd p) = c.
Proof.
  rewrite get_all_pieces_filter, filter_In, in_all_squares, Ascii.eqb_eq.
  reflexivity.
Qed.

Lemma advancement_range (c : ascii) (row : Z) :
  0 <= row < 8 -> 0 <= advancement_of c row <= 7.
Proof. unfold advancement_of. destruct (Ascii.eqb c WHITE); lia. Qed.

Lemma is_terminal_false (s : GameState) :
  is_terminal s = (false, None) ->
  reached_end (board s) (range BOARD_SIZE) = None
  /\ get_all_pieces (board s) WHITE <> []
  /\ get_all_pieces (board s) BLACK <> []
  /\ generate_moves s <> [].
Proof.
  unfold is_terminal. destruct (reached_end _ _); [discriminate|].
  destruct (get_all_pieces (board s) WHITE); [discriminate|].
  destruct (get_all_pieces (board s) BLACK); [discriminate|].
  destruct (generate_moves s); [discriminate|].
  intros _. repeat split; discriminate.
Qed.

(** While the game is not over no pawn stands on the rank it is heading
    for. *)
Lemma nonterminal_not_arrived (s : GameState) (c : ascii) (p : square) :
  is_terminal s = (false, None) -> c = WHITE \/ c = BLACK ->
  In p all_squares ->
  Ascii.eqb (cell_at (board s) (fst p) (snd p)) c = true ->
  not_arrived c p = true.
Proof.
  intros Ht Hc Hp Hcell. apply is_terminal_false in Ht as (Hre & _).
  rewrite reached_end_none in Hre. apply in_all_squares in Hp as [Hcol Hrow].
  destruct (Hre (fst p)) as [Hw Hb]; [apply in_range_iff; exact Hcol|].
  apply Ascii.eqb_eq in Hcell. unfold not_arrived.
  destruct Hc as [-> | ->]; simpl.
  - destruct (Z.eqb_spec (snd p) 7) as [E|]; auto. rewrite E in Hcell.
    contradiction.
  - destruct (Z.eqb_spec (snd p) 0) as [E|]; auto. rewrite E in Hcell.
    contradiction.
Qed.

Lemma passed_bonus_range (b : board_t) (c : ascii) (p : square) :
  0 <= snd p < 8 ->
  0 <= passed_bonus new_Evaluator 5 b c p <= 30 + 5 * advancement_of c (snd p).
Proof.
  intros Hr. pose proof (advancement_range c _ Hr).
  unfold passed_bonus. change (passed_pawn_weight new_Evaluator) with 30.
  destruct (is_passed_pawn _ _ _ _); lia.
Qed.

Lemma my_pawn_term_range (b : board_t) (c : ascii) (p : square) :
  0 <= snd p < 8 ->
  0 <= my_pawn_term new_Evaluator b c p /\
  100 + my_pawn_term new_Evaluator b c p <= pawn_cap c p.
Proof.
  intros Hr. pose proof (advancement_range c _ Hr).
  pose proof (passed_bonus_range b c p Hr).
  unfold my_pawn_term, pawn_cap.
  change (advancement_weight new_Evaluator) with 10.
  change (center_weight new_Evaluator) with 5.
  destruct (in_center (fst p)); lia.
Qed.

Lemma opp_pawn_term_range (b : board_t) (c : ascii) (p : square) :
  0 <= snd p < 8 ->
  0 <= opp_pawn_term new_Evaluator b c p /\
  100 + opp_pawn_term new_Evaluator b c p <= pawn_cap c p.
Proof.
  intros Hr. pose proof (advancement_range c _ Hr).
  pose proof (passed_bonus_range b c p Hr).
  unfold opp_pawn_term, pawn_cap.
  change (advancement_weight new_Evaluator) with 10.
  destruct (in_center (fst p)); lia.
Qed.

Lemma pawn_cap_range (c : ascii) (p : square) :
  0 <= snd p < 8 -> 0 <= pawn_cap c p <= 240.
Proof.
  intros Hr. pose proof (advancement_range c _ Hr). unfold pawn_cap.
  destruct (in_center (fst p)); lia.
Qed.

Lemma zsum_const_add {A} (k : Z) (f : A -> Z) l :
  zsum (fun x => k + f x) l = k * Z.of_nat (List.length l) + zsum f l.
Proof.
  induction l as [|x l IH]; [simpl; lia|].
  rewrite !zsum_cons, IH. simpl List.length. lia.
Qed.

(** All the pawns of one side together, on a board where the game is
    not over. *)
Lemma side_total_cap (s : GameState) (c : ascii) (term : square -> Z) :
  is_terminal s = (false, None) -> c = WHITE \/ c = BLACK ->
  (forall p, 0 <= snd p < 8 -> 0 <= term p /\ 100 + term p <= pawn_cap c p) ->
  let pawns := get_all_pieces (board s) c in
  100 <= 100 * Z.of_nat (List.length pawns) + zsum term pawns <= 9940.
Proof.
  intros Ht Hc Hterm pawns.
  assert (Hin : forall p, In p pawns -> 0 <= snd p < 8)
    by (intros p Hp; apply in_get_all_pieces in Hp; tauto).
  split.
  - assert (0 <= zsum term pawns)
      by (apply zsum_nonneg; intros p Hp; apply Hterm; auto).
    assert (pawns <> []).
    { apply is_terminal_false in Ht as (_ & Hw & Hb & _).
      unfold pawns. destruct Hc as [-> | ->]; auto. }
    destruct pawns; [congruence|]. simpl List.length. lia.
  - rewrite <- zsum_const_add.
    transitivity (zsum (pawn_cap c) pawns).
    { apply zsum_le. intros p Hp. apply Hterm; auto. }
    unfold pawns. rewrite get_all_pieces_filter.
    transitivity (zsum (pawn_cap c) (filter (not_arrived c) all_squares)).
    { apply zsum_filter_le.
      - intros p Hp. apply in_all_squares in Hp. apply pawn_cap_range. tauto.
      - intros p Hp Hcell. eapply nonterminal_not_arrived; eauto. }
    destruct Hc as [-> | ->]; vm_compute; discriminate.
Qed.

Lemma side_eight_cap (b : board_t) (c : ascii) (term : square -> Z) :
  (forall p, 0 <= snd p < 8 -> 0 <= term p /\ 100 + term p <= pawn_cap c p) ->
  let pawns := get_all_pieces b c in
  (List.length pawns <= 8)%nat ->
  0 <= 100 * Z.of_nat (List.length pawns) + zsum term pawns <= 1920.
Proof.
  intros Hterm pawns Hlen.
  assert (Hin : forall p, In p pawns -> 0 <= snd p < 8)
    by (intros p Hp; apply in_get_all_pieces in Hp; tauto).
  split.
  - assert (0 <= zsum term pawns)
      by (apply zsum_nonneg; intros p Hp; apply Hterm; auto).
    lia.
  - rewrite <- zsum_const_add.
    transitivity (240 * Z.of_nat (List.length pawns)); [|lia].
    apply zsum_bound. intros p Hp.
    pose proof (Hterm p (Hin p Hp)). pose proof (pawn_cap_range c p (Hin p Hp)).
    lia.
Qed.

(** C10 (as the code has it).  For a position that is not over the
    score, seen from either side, stays below [WIN_VALUE - 100] in
    absolute value: it is at most 9840, and at most 1920 when neither
    side has more than eight pawns. *)
Theorem evaluate_bounded (s : GameState) (c : ascii) :
  c = WHITE \/ c = BLACK ->
  is_terminal s = (false, None) ->
  Z.abs (evaluate new_Evaluator s c) < WIN_VALUE - 100
  /\ Z.abs (evaluate new_Evaluator s c) <= 9840
  /\ ((List.length (get_all_pieces (board s) WHITE) <= 8)%nat ->
      (List.length (get_all_pieces (board s) BLACK) <= 8)%nat ->
      Z.abs (evaluate new_Evaluator s c) <= 1920).
Proof.
  intros Hc Ht.
  assert (Hc' : other_player c = WHITE \/ other_player c = BLACK)
    by (destruct Hc as [-> | ->]; vm_compute; auto).
  rewrite (evaluate_nonterminal _ _ _ Ht).
  change (material_weight new_Evaluator) with 100.
  pose proof (side_total_cap s c (my_pawn_term new_Evaluator (board s) c) Ht Hc
                (my_pawn_term_range (board s) c)) as Hmy.
  pose proof (side_total_cap s (other_player c)
                (opp_pawn_term new_Evaluator (board s) (other_player c)) Ht Hc'
                (opp_pawn_term_range (board s) (other_player c))) as Hopp.
  cbv zeta in Hmy, Hopp. unfold WIN_VALUE.
  split; [lia|]. split; [lia|].
  intros Hw Hb.
  assert (Hl : (List.length (get_all_pieces (board s) c) <= 8)%nat
               /\ (List.length (get_all_pieces (board s) (other_player c)) <= 8)%nat)
    by (destruct Hc as [-> | ->]; split; assumption).
  destruct Hl as [Hl1 Hl2].
  pose proof (side_eight_cap (board s) c (my_pawn_term new_Evaluator (board s) c)
                (my_pawn_term_range (board s) c) Hl1) as Hmy8.
  pose proof (side_eight_cap (board s) (other_player c)
                (opp_pawn_term new_Evaluator (board s) (other_player c))
                (opp_pawn_term_range (board s) (other_player c)) Hl2) as Hopp8.
  lia.
Qed.

(** C10 as the specification words it does not hold: nothing keeps a
    side to eight pawns, and with sixteen white pawns on ranks 2 and 3
    against one black pawn the score passes 1920 although the game is
    not over. *)
Lemma evaluate_above_1920 :
  let s := position_of
    "Wa2 Wb2 Wc2 Wd2 We2 Wf2 Wg2 Wh2 Wa3 Wb3 Wc3 Wd3 We3 Wf3 Wg3 Wh3 Bh8" in
  is_terminal s = (false, None)
  /\ evaluate new_Evaluator s WHITE = 2230
  /\ ~ Z.abs (evaluate new_Evaluator s WHITE) <= 1920.
Proof.
  split; [vm_compute; reflexivity|]. split; [vm_compute; reflexivity|].
  intros H. vm_compute in H. apply H. reflexivity.
Qed.

Lemma evaluate_bounded_witness :
  Z.abs (evaluate new_Evaluator initial_position BLACK) < WIN_VALUE - 100.
Proof.
  apply (evaluate_bounded initial_position BLACK);
    [right; reflexivity | reflexivity].
Defined.

(* ================================================================= *)
(** * Generated moves and their ordering *)

Lemma is_valid_pos_spec (col row : Z) :
  is_valid_pos col row = true <-> 0 <= col < 8 /\ 0 <= row < 8.
Proof.
  unfold is_valid_pos, BOARD_SIZE.
  rewrite !andb_true_iff, !Z.leb_le, !Z.ltb_lt. lia.
Qed.

Lemma pawn_moves_in_bounds (s : GameState) (col row : Z) (m : move) :
  0 <= col < 8 -> 0 <= row < 8 -> In m (pawn_moves s col row) ->
  move_in_bounds m.
Proof.
  intros Hc Hr. unfold pawn_moves.
  destruct (Ascii.eqb (current_player s) WHITE);
  (rewrite in_app_iff; intros [H|H];
   [ destruct (is_valid_pos col _ && _) eqn:E1; [|destruct H];
     apply andb_true_iff in E1 as [V1 _]; apply is_valid_pos_spec in V1;
     destruct H as [<-|H]; [simpl; lia|];
     destruct (row =? _); [|destruct H];
     destruct (is_valid_pos col _ && _) eqn:E2; [|destruct H];
     apply andb_true_iff in E2 as [V2 _]; apply is_valid_pos_spec in V2;
     destruct H as [<-|[]]; simpl; lia
   | apply in_flat_map in H as (dcol & _ & H);
     destruct (is_valid_pos (col + dcol) _) eqn:V; [|destruct H];
     apply is_valid_pos_spec in V;
     destruct (Ascii.eqb _ _);
     [ destruct H as [<-|[]]; simpl; lia
     | destruct (is_ep_target _ _ _); [|destruct H];
       destruct (Ascii.eqb _ _); [|destruct H];
       destruct H as [<-|[]]; simpl; lia ] ]).
Qed.

(** Every generated move stays on the board. *)
Lemma generate_moves_in_bounds (s : GameState) :
  Forall move_in_bounds (generate_moves s).
Proof.
  apply Forall_forall. intros m Hm. unfold generate_moves in Hm.
  apply in_flat_map in Hm as (p & Hp & Hm).
  apply in_get_all_pieces in Hp as [[Hc Hr] _].
  exact (pawn_moves_in_bounds s (fst p) (snd p) m Hc Hr Hm).
Qed.

Lemma move_score_ok (s : GameState) (m : move) :
  wf_board (board s) -> move_in_bounds m -> exists z, move_score s m = Ok z.
Proof.
  destruct m as [[[fc fr] tc] tr]. intros Hwf (_ & _ & Htc & Htr).
  unfold move_score. rewrite (board_get_cell_at _ _ _ Hwf Htr Htc). simpl.
  eauto.
Qed.

Lemma score_moves_ok (s : GameState) (ms : list move) :
  wf_board (board s) -> Forall move_in_bounds ms ->
  exists l, score_moves s ms = Ok l /\ map snd l = ms.
Proof.
  intros Hwf Hms. induction Hms as [|m ms Hm _ IH].
  - exists []. auto.
  - destruct (move_score_ok s m Hwf Hm) as (z & Ez).
    destruct IH as (l & El & Hl).
    exists ((z, m) :: l). simpl. rewrite Ez, El. simpl. rewrite Hl. auto.
Qed.

Lemma insert_desc_perm (x : Z * move) (l : list (Z * move)) :
  Permutation (insert_desc x l) (x :: l).
Proof.
  induction l as [|y t IH]; simpl; auto.
  destruct (fst x <? fst y); auto.
  rewrite IH. apply perm_swap.
Qed.

Lemma sort_desc_perm (l : list (Z * move)) : Permutation (sort_desc l) l.
Proof.
  induction l as [|x t IH]; simpl; auto.
  rewrite insert_desc_perm. auto.
Qed.

(** Ordering never fails on generated moves and only rearranges them. *)
Lemma order_moves_ok (s : GameState) (ms : list move) :
  wf_board (board s) -> Forall move_in_bounds ms ->
  exists ms', order_moves s ms = Ok ms' /\ Permutation ms' ms.
Proof.
  intros Hwf Hms. destruct (score_moves_ok s ms Hwf Hms) as (l & El & Hl).
  exists (map snd (sort_desc l)). unfold order_moves. rewrite El. simpl.
  split; auto. rewrite <- Hl. apply Permutation_map. apply sort_desc_perm.
Qed.

(* ================================================================= *)
(** * The order on scores *)

Ltac ext_crush :=
  unfold ext_le, ext_lt, py_max, ext_leb in *;
  repeat match goal with x : ext |- _ => destruct x end;
  cbn [ext_ltb ext_neg negb] in *;
  repeat (match goal with
          | H : context [?a <? ?b] |- _ => destruct (Z.ltb_spec a b)
          | |- context [?a <? ?b] => destruct (Z.ltb_spec a b)
          end; cbn [ext_ltb ext_neg negb] in *);
  try tauto; try congruence; try lia;
  try (intuition (try congruence; try lia); fail);
  try (intros; f_equal; lia).

Lemma ext_le_refl x : ext_le x x.
Proof. ext_crush. Qed.

Lemma ext_le_neginf x : ext_le NegInf x.
Proof. destruct x; reflexivity. Qed.

Lemma ext_neg_involutive x : ext_neg (ext_neg x) = x.
Proof. destruct x; simpl; try reflexivity. f_equal; lia. Qed.

Lemma ext_ltb_neg x y : ext_ltb (ext_neg x) (ext_neg y) = ext_ltb y x.
Proof.
  destruct x, y; simpl; auto.
  destruct (Z.ltb_spec (- z) (- z0)), (Z.ltb_spec z0 z); auto; lia.
Qed.

Lemma ext_leb_neg x y : ext_leb (ext_neg x) (ext_neg y) = ext_leb y x.
Proof. unfold ext_leb. rewrite ext_ltb_neg. reflexivity. Qed.

Lemma py_max_comm x y : py_max x y = py_max y x.
Proof. ext_crush. Qed.

Lemma py_max_assoc x y z : py_max x (py_max y z) = py_max (py_max x y) z.
Proof. ext_crush. Qed.

Lemma py_max_neginf_l x : py_max NegInf x = x.
Proof. ext_crush. Qed.

Lemma py_max_fin_r x z : x <> PosInf -> is_fin (py_max x (Fin z)).
Proof. unfold is_fin. intros H. destruct x; unfold py_max; simpl; eauto.
  - destruct (z0 <? z); eauto.
  - congruence.
Qed.

Lemma fold_py_max_init l a :
  fold_left py_max l a = py_max a (fold_left py_max l NegInf).
Proof.
  revert a. induction l as [|x l IH]; intros a; simpl.
  - ext_crush.
  - rewrite IH, (IH (py_max NegInf x)), py_max_neginf_l, py_max_assoc.
    reflexivity.
Qed.

Lemma ext_maximum_cons x l : ext_maximum (x :: l) = py_max x (ext_maximum l).
Proof.
  unfold ext_maximum. simpl. rewrite fold_py_max_init, py_max_neginf_l.
  reflexivity.
Qed.

Lemma ext_maximum_perm l l' :
  Permutation l l' -> ext_maximum l = ext_maximum l'.
Proof.
  induction 1 as [|x l l' _ IH|x y l|l l' l'' _ IH1 _ IH2].
  - reflexivity.
  - rewrite !ext_maximum_cons, IH. reflexivity.
  - rewrite !ext_maximum_cons, !py_max_assoc, (py_max_comm y x). reflexivity.
  - congruence.
Qed.

Lemma ext_le_lt_dec x y : ext_le x y \/ ext_lt y x.
Proof. unfold ext_le, ext_lt, ext_leb. destruct (ext_ltb y x); auto. Qed.

Lemma ext_lt_not_le x y : ext_lt x y -> ext_le y x -> False.
Proof. unfold ext_le, ext_lt, ext_leb. intros ->. discriminate. Qed.

Lemma ext_le_trans x y z : ext_le x y -> ext_le y z -> ext_le x z.
Proof. ext_crush. Qed.

Lemma ext_lt_le_trans x y z : ext_lt x y -> ext_le y z -> ext_lt x z.
Proof. ext_crush. Qed.

Lemma ext_le_lt_trans x y z : ext_le x y -> ext_lt y z -> ext_lt x z.
Proof. ext_crush. Qed.

Lemma ext_lt_le x y : ext_lt x y -> ext_le x y.
Proof. ext_crush. Qed.

Lemma ext_le_antisym x y : ext_le x y -> ext_le y x -> x = y.
Proof. ext_crush. Qed.

Lemma py_max_case x y :
  (ext_lt x y /\ py_max x y = y) \/ (ext_le y x /\ py_max x y = x).
Proof.
  unfold py_max, ext_lt, ext_le, ext_leb. destruct (ext_ltb x y); auto.
Qed.

Lemma py_max_ge_l x y : ext_le x (py_max x y).
Proof.
  destruct (py_max_case x y) as [[H ->]|[H ->]].
  - apply ext_lt_le; auto.
  - apply ext_le_refl.
Qed.

Lemma py_max_ge_r x y : ext_le y (py_max x y).
Proof.
  destruct (py_max_case x y) as [[H ->]|[H ->]]; auto. apply ext_le_refl.
Qed.

Lemma py_max_lub x y z : ext_le x z -> ext_le y z -> ext_le (py_max x y) z.
Proof. intros. destruct (py_max_case x y) as [[_ ->]|[_ ->]]; auto. Qed.

(** One turn of the loop of [alpha_beta] that ends in a cutoff. *)
Lemma ab_step_cut (best a beta s v n : ext) :
  ext_le best a -> ext_lt a beta ->
  (ext_lt a s -> ext_le s v) -> (ext_lt s beta -> ext_le v s) ->
  ext_le beta (py_max a s) ->
  ext_le best (py_max best s)
  /\ (ext_lt (py_max best s) beta -> ext_le (py_max v n) (py_max best s))
  /\ (ext_lt a (py_max best s) -> ext_le (py_max best s) (py_max v n)).
Proof.
  intros H1 H2 H3 H4 H5.
  assert (Has : ext_lt a s /\ ext_le beta s).
  { destruct (py_max_case a s) as [[Hlt E]|[Hle E]]; rewrite E in H5; auto.
    exfalso. eapply ext_lt_not_le; eauto. }
  destruct Has as [Has Hbs].
  split; [apply py_max_ge_l|]. split.
  - intros Hlt. exfalso. eapply ext_lt_not_le; [exact Hlt|].
    eapply ext_le_trans; [exact Hbs|apply py_max_ge_r].
  - intros _. eapply ext_le_trans; [|apply py_max_ge_l].
    eapply ext_le_trans; [|apply H3; auto].
    apply py_max_lub; [|apply ext_le_refl].
    apply ext_lt_le. eapply ext_le_lt_trans; eauto.
Qed.

(** One turn of the loop of [alpha_beta] after which it goes on. *)
Lemma ab_step_cont (best a beta s v n r : ext) :
  ext_le best a -> ext_lt a beta ->
  (ext_lt a s -> ext_le s v) -> (ext_lt s beta -> ext_le v s) ->
  ext_le (py_max best s) r ->
  (ext_lt r beta -> ext_le n r) ->
  (ext_lt (py_max a s) r -> ext_le r n) ->
  ext_le best r
  /\ (ext_lt r beta -> ext_le (py_max v n) r)
  /\ (ext_lt a r -> ext_le r (py_max v n)).
Proof.
  intros H1 H2 H3 H4 H5 H6 H7.
  assert (Hsr : ext_le s r)
    by (eapply ext_le_trans; [apply py_max_ge_r|exact H5]).
  split; [eapply ext_le_trans; [apply py_max_ge_l|exact H5]|]. split.
  - intros Hlt. apply py_max_lub; auto.
    eapply ext_le_trans; [apply H4|exact Hsr].
    eapply ext_le_lt_trans; eauto.
  - intros Hlt. destruct (ext_le_lt_dec r (py_max a s)) as [Hle|Hgt].
    + destruct (py_max_case a s) as [[Has E]|[_ E]]; rewrite E in Hle.
      * eapply ext_le_trans; [exact Hle|].
        eapply ext_le_trans; [apply H3; auto|apply py_max_ge_l].
      * exfalso. eapply ext_lt_not_le; eauto.
    + eapply ext_le_trans; [apply H7; auto|apply py_max_ge_r].
Qed.

(** One turn of the loop of [search_root], whose window is open above. *)
Lemma root_step (best s v : ext) :
  ext_lt s PosInf ->
  (ext_lt best s -> ext_le s v) -> ext_le v s ->
  py_max best s = py_max best v.
Proof.
  intros _ H1 H2.
  destruct (py_max_case best s) as [[Hlt E]|[Hle E]]; rewrite E.
  - assert (s = v) by (apply ext_le_antisym; auto). subst v.
    symmetry. exact E.
  - destruct (py_max_case best v) as [[Hlt' E']|[_ E']]; rewrite E'; auto.
    exfalso. eapply ext_lt_not_le; [exact Hlt'|].
    eapply ext_le_trans; eauto.
Qed.

(* ================================================================= *)
(** * Alpha-beta against full-width negamax *)

Lemma mapM_perm {A B} (f : A -> result B) (l l' : list A) (ys : list B) :
  Permutation l l' -> mapM f l = Ok ys ->
  exists ys', mapM f l' = Ok ys' /\ Permutation ys ys'.
Proof.
  intros HP. revert ys.
  induction HP as [|x l l' _ IH|x y l|l l' l'' _ IH1 _ IH2]; intros ys H.
  - exists ys. auto.
  - simpl in *. destruct (f x) as [b|]; [|discriminate]. simpl in *.
    destruct (mapM f l) as [bs|]; [|discriminate]. simpl in H.
    injection H as <-. destruct (IH bs eq_refl) as (bs' & -> & HP').
    exists (b :: bs'). simpl. auto.
  - simpl in *. destruct (f y) as [b|]; [|discriminate]. simpl in *.
    destruct (f x) as [a|]; [|discriminate]. simpl in *.
    destruct (mapM f l) as [bs|]; [|discriminate]. simpl in H.
    injection H as <-. exists (a :: b :: bs). split; auto. apply perm_swap.
  - destruct (IH1 ys H) as (ys' & H' & P1).
    destruct (IH2 ys' H') as (ys'' & H'' & P2).
    exists ys''. split; auto. eapply perm_trans; eauto.
Qed.

Lemma is_terminal_false_none (s : GameState) (w : option ascii) :
  is_terminal s = (false, w) -> w = None.
Proof.
  unfold is_terminal. destruct (reached_end _ _); [discriminate|].
  destruct (_ =? _)%nat; [discriminate|].
  destruct (_ =? _)%nat; [discriminate|].
  destruct (_ =? _)%nat; [discriminate|]. congruence.
Qed.

Lemma py_max_mono_l (x y s : ext) :
  ext_le x y -> ext_le (py_max x s) (py_max y s).
Proof.
  intros H. apply py_max_lub.
  - eapply ext_le_trans; [exact H|apply py_max_ge_l].
  - apply py_max_ge_r.
Qed.

Lemma py_max_not_posinf (x : ext) (z : Z) :
  x <> PosInf -> py_max x (Fin z) <> PosInf.
Proof.
  intros H. destruct (py_max_fin_r x z H) as (w & ->). discriminate.
Qed.

(** The window a child is searched with, read from the parent's side. *)
Lemma child_window (r v a beta : ext) :
  (ext_lt (ext_neg beta) (ext_neg a) ->
   (ext_lt r (ext_neg a) -> ext_le v r) /\ (ext_lt (ext_neg beta) r -> ext_le r v)) ->
  ext_lt a beta ->
  (ext_lt a (ext_neg r) -> ext_le (ext_neg r) (ext_neg v))
  /\ (ext_lt (ext_neg r) beta -> ext_le (ext_neg v) (ext_neg r)).
Proof.
  intros H Hab. unfold ext_lt, ext_le in *.
  rewrite ext_ltb_neg in H. destruct (H Hab) as [H1 H2]. split.
  - intros Hl. rewrite ext_leb_neg. apply H1.
    rewrite <- ext_ltb_neg, ext_neg_involutive. exact Hl.
  - intros Hl. rewrite ext_leb_neg. apply H2.
    rewrite <- ext_ltb_neg, ext_neg_involutive. exact Hl.
Qed.

Section Soundness.
Variable c : ascii.
Variable ev : Evaluator.

Section Loop.
Variable rec : GameState -> Z -> ext -> ext -> bool -> M ext.
Variable fw : GameState -> Z -> result ext.
Variable state : GameState.
Variable depth : Z.
Hypothesis Hwf : wf_board (board state).
Hypothesis Hrec : forall child,
    wf_board (board child) -> sound_at c ev rec fw child (depth - 1).

Lemma child_step (mv : move) (alpha beta : ext) (mx : bool)
    (self : TwoFlagsAI) :
  move_in_bounds mv -> color self = c -> evaluator self = ev ->
  exists child z self' v,
    make_move state mv = Ok child
    /\ rec child (depth - 1) alpha beta mx self = (Ok (Fin z), self')
    /\ color self' = c /\ evaluator self' = ev
    /\ child_score fw state depth mv = Ok (ext_neg v)
    /\ (ext_lt alpha beta ->
        (ext_lt (Fin z) beta -> ext_le v (Fin z))
        /\ (ext_lt alpha (Fin z) -> ext_le (Fin z) v)).
Proof.
  intros Hmv Hc Hev. destruct mv as [[[fc fr] tc] tr].
  destruct (make_move_ok state fc fr tc tr Hwf Hmv) as (child & E & W & _).
  destruct (Hrec child W alpha beta mx self Hc Hev)
    as (z & self' & Er & Hc' & Hev' & v & Ev & Hb).
  exists child, z, self', v. repeat split; auto; try apply Hb; auto.
  unfold child_score. rewrite E. simpl. rewrite Ev. reflexivity.
Qed.

Lemma child_scores_ok (moves : list move) :
  Forall move_in_bounds moves ->
  exists scores, mapM (child_score fw state depth) moves = Ok scores.
Proof.
  induction 1 as [|mv moves Hmv _ IH].
  - exists []. reflexivity.
  - destruct (child_step mv NegInf PosInf false
                {| color := c; evaluator := ev; nodes_searched := 0;
                   max_depth_reached := 0; clock_reads := 0 |}
                Hmv eq_refl eq_refl)
      as (_ & _ & _ & v & _ & _ & _ & _ & Es & _).
    destruct IH as (scores & El).
    exists (ext_neg v :: scores). simpl. rewrite Es, El. reflexivity.
Qed.

(** The loop of [alpha_beta]: from [best_score <= alpha < beta] it
    ends with a result that is exact inside the window and a bound
    on the right side outside it. *)
Lemma alpha_beta_loop_sound (beta : ext) (mx : bool) (moves : list move) :
  Forall move_in_bounds moves ->
  forall best a self,
    color self = c -> evaluator self = ev ->
    exists R self' scores,
      alpha_beta_loop rec state depth beta mx moves best a self
      = (Ok R, self')
      /\ color self' = c /\ evaluator self' = ev
      /\ mapM (child_score fw state depth) moves = Ok scores
      /\ (moves <> [] \/ is_fin best -> best <> PosInf -> is_fin R)
      /\ (ext_le best a -> ext_lt a beta ->
          ext_le best R
          /\ (ext_lt R beta -> ext_le (ext_maximum scores) R)
          /\ (ext_lt a R -> ext_le R (ext_maximum scores))).
Proof.
  induction 1 as [|mv moves Hmv Hmoves IH];
    intros best a self Hc Hev.
  - exists best, self, []. simpl. repeat split; auto.
    + intros [Hne|Hf] _; [congruence|exact Hf].
    + apply ext_le_refl.
    + intros _. unfold ext_maximum. simpl.
      destruct best; reflexivity.
    + intros Hlt. exfalso. eapply ext_lt_not_le; eauto.
  - destruct (child_step mv (ext_neg beta) (ext_neg a) (negb mx) self
                Hmv Hc Hev)
      as (child & z & self1 & v & Em & Er & Hc1 & Hev1 & Es & Hb).
    set (s := ext_neg (Fin z)) in *.
    destruct (child_scores_ok moves Hmoves) as (rest & Erest).
    cbn [alpha_beta_loop]. unfold bind at 1, lift at 1. rewrite Em.
    unfold bind at 1. rewrite Er. fold s.
    destruct (ext_leb beta (py_max a s)) eqn:Ecut.
    + exists (py_max best s), self1, (ext_neg v :: rest).
      rewrite ext_maximum_cons. simpl mapM. rewrite Es, Erest.
      split; [reflexivity|]. split; [exact Hc1|]. split; [exact Hev1|].
      split; [reflexivity|]. split.
      * intros _ Hbest. apply py_max_fin_r. exact Hbest.
      * intros Hba Hab.
        destruct (child_window (Fin z) v a beta Hb Hab) as [Hb1 Hb2].
        exact (ab_step_cut best a beta s (ext_neg v) (ext_maximum rest)
                 Hba Hab Hb1 Hb2 Ecut).
    + assert (Hab1 : ext_lt (py_max a s) beta).
      { unfold ext_lt. unfold ext_leb in Ecut.
        apply negb_false_iff in Ecut. exact Ecut. }
      destruct (IH (py_max best s) (py_max a s) self1 Hc1 Hev1)
        as (R & self' & scores & El & Hc' & Hev' & Esc & G4 & G).
      assert (rest = scores) by congruence. subst scores.
      exists R, self', (ext_neg v :: rest).
      rewrite ext_maximum_cons. simpl mapM. rewrite Es, Erest.
      split; [exact El|]. split; [exact Hc'|]. split; [exact Hev'|].
      split; [reflexivity|]. split.
      * intros _ Hbest. apply G4.
        -- right. apply py_max_fin_r. exact Hbest.
        -- apply py_max_not_posinf. exact Hbest.
      * intros Hba Hab.
        destruct (child_window (Fin z) v a beta Hb Hab) as [Hb1 Hb2].
        destruct (G (py_max_mono_l _ _ _ Hba) Hab1) as (G1 & G2 & G3).
        exact (ab_step_cont best a beta s (ext_neg v) (ext_maximum rest) R
                 Hba Hab Hb1 Hb2 G1 G2 G3).
Qed.
End Loop.
End Soundness.


Ltac node_done :=
  unfold ret;
  eexists _, _; (split; [reflexivity|]);
  (split; [reflexivity|]); (split; [reflexivity|]);
  eexists; (split; [reflexivity|]); intros _;
  split; intros _; apply ext_le_refl.

(** [alpha_beta] with a clock that never stops, against full-width
    negamax unfolded as many times. *)
Lemma alpha_beta_sound (c : ascii) (ev : Evaluator) (fuel : nat) :
  forall state depth,
    wf_board (board state) -> (Z.to_nat depth < fuel)%nat ->
    sound_at c ev (alpha_beta_fuel never fuel) (full_width_fuel fuel c ev)
      state depth.
Proof.
  induction fuel as [|fuel IH]; intros state depth Hwf Hfuel; [lia|].
  intros alpha beta mx self Hc Hev. subst c ev.
  cbn [alpha_beta_fuel full_width_fuel].
  unfold alpha_beta_body, node_value.
  unfold bind at 1, count_node at 1. unfold bind at 1, should_stop at 1.
  unfold never at 1.
  cbn [color evaluator nodes_searched max_depth_reached clock_reads].
  destruct (is_terminal state) as [is_over winner] eqn:Et.
  destruct is_over.
  - (* a finished game *)
    destruct winner as [w|];
      cbn [color evaluator nodes_searched max_depth_reached clock_reads].
    + destruct (Ascii.eqb w (color self)); node_done.
    + node_done.
  - destruct (depth <=? 0) eqn:Ed.
    + (* a leaf *)
      cbn [color evaluator nodes_searched max_depth_reached clock_reads].
      node_done.
    + (* an inner node *)
      apply Z.leb_gt in Ed.
      pose proof (is_terminal_false_none _ _ Et) as ->.
      destruct (is_terminal_false _ Et) as (_ & _ & _ & Hne).
      pose proof (generate_moves_in_bounds state) as Hgen.
      destruct (order_moves_ok state _ Hwf Hgen) as (ms & Eo & Hperm).
      assert (Hms : Forall move_in_bounds ms).
      { apply Forall_forall. intros m Hm. rewrite Forall_forall in Hgen.
        apply Hgen. eapply Permutation_in; eauto. }
      assert (Hrec : forall child, wf_board (board child) ->
                sound_at (color self) (evaluator self)
                  (alpha_beta_fuel never fuel)
                  (full_width_fuel fuel (color self) (evaluator self))
                  child (depth - 1))
        by (intros child Hw; apply IH; [exact Hw|lia]).
      unfold bind at 1, lift at 1. rewrite Eo.
      set (self1 := {| color := color self; evaluator := evaluator self;
                       nodes_searched := nodes_searched self + 1;
                       max_depth_reached := max_depth_reached self;
                       clock_reads := S (clock_reads self) |}).
      destruct (alpha_beta_loop_sound (color self) (evaluator self) _ _
                  state depth Hwf Hrec beta mx ms
                  Hms NegInf alpha self1 eq_refl eq_refl)
        as (R & self' & scores & El & Hc' & Hev' & Esc & G4 & G).
      destruct G4 as (z & ->).
      { left. intros ->. apply Permutation_nil in Hperm. congruence. }
      { discriminate. }
      destruct (mapM_perm _ _ _ _ Hperm Esc) as (scores' & Esc' & Hp').
      exists z, self'. split; [exact El|]. split; [exact Hc'|].
      split; [exact Hev'|].
      exists (ext_maximum scores'). rewrite Esc'. split; [reflexivity|].
      intros Hab. rewrite <- (ext_maximum_perm _ _ Hp').
      destruct (G (ext_le_neginf alpha) Hab) as (_ & G2 & G3). split; assumption.
Qed.

Lemma ext_lt_posinf (x : ext) : x <> PosInf -> ext_lt x PosInf.
Proof. destruct x; intros H; try reflexivity. congruence. Qed.

(** [alpha_beta] and [full_width] as [search_root] calls them. *)
Lemma alpha_beta_sound_top (c : ascii) (ev : Evaluator) (state : GameState)
    (depth : Z) :
  wf_board (board state) ->
  sound_at c ev (alpha_beta never) (full_width c ev) state depth.
Proof.
  intros Hwf. unfold alpha_beta, full_width.
  apply (alpha_beta_sound c ev (S (Z.to_nat depth)) state depth Hwf). lia.
Qed.

(** The loop of [search_root]: the running best is the greatest
    full-width score of the moves tried so far. *)
Lemma search_root_loop_sound (c : ascii) (ev : Evaluator) (state : GameState)
    (depth : Z) (moves : list move) :
  wf_board (board state) ->
  Forall move_in_bounds moves ->
  forall bm best self,
    color self = c -> evaluator self = ev -> best <> PosInf ->
    exists bm' R self' scores,
      search_root_loop never state depth PosInf moves bm best best self
      = (Ok (bm', R), self')
      /\ color self' = c /\ evaluator self' = ev
      /\ mapM (child_score (full_width c ev) state depth) moves = Ok scores
      /\ R = py_max best (ext_maximum scores)
      /\ (bm' = bm \/ In bm' moves).
Proof.
  intros Hwf. induction 1 as [|mv moves Hmv Hmoves IH];
    intros bm best self Hc Hev Hbest.
  - exists bm, best, self, []. simpl. repeat split; auto.
    unfold ext_maximum. simpl. destruct best; reflexivity.
  - cbn [search_root_loop]. unfold bind at 1, should_stop at 1, never at 1.
    set (self1 := {| color := color self; evaluator := evaluator self;
                     nodes_searched := nodes_searched self;
                     max_depth_reached := max_depth_reached self;
                     clock_reads := S (clock_reads self) |}).
    assert (Hrec : forall child, wf_board (board child) ->
              sound_at c ev (fun st d => alpha_beta never st d) (full_width c ev)
                child (depth - 1))
      by (intros child Hw; apply alpha_beta_sound_top; exact Hw).
    destruct (child_step c ev _ _ state depth Hwf Hrec mv
                (ext_neg PosInf) (ext_neg best) false self1 Hmv Hc Hev)
      as (child & z & self2 & v & Em & Er & Hc2 & Hev2 & Es & Hb).
    destruct (child_window (Fin z) v best PosInf Hb (ext_lt_posinf _ Hbest))
      as [Hb1 Hb2].
    unfold bind at 1, lift at 1. rewrite Em. unfold bind at 1. rewrite Er.
    set (s := ext_neg (Fin z)) in *.
    assert (Hs : ext_lt s PosInf) by reflexivity.
    assert (Hmax : py_max best s = py_max best (ext_neg v))
      by (apply root_step; [exact Hs | exact Hb1 | exact (Hb2 Hs)]).
    assert (Hnext : forall bm1,
      (bm1 = bm \/ bm1 = mv) ->
      exists bm' R self' scores,
        search_root_loop never state depth PosInf moves bm1
          (py_max best s) (py_max best s) self2 = (Ok (bm', R), self')
        /\ color self' = c /\ evaluator self' = ev
        /\ mapM (child_score (full_width c ev) state depth) (mv :: moves)
           = Ok scores
        /\ R = py_max best (ext_maximum scores)
        /\ (bm' = bm \/ In bm' (mv :: moves))).
    { intros bm1 Hbm1.
      destruct (IH bm1 (py_max best s) self2 Hc2 Hev2
                  (py_max_not_posinf best _ Hbest))
        as (bm' & R & self' & scores & El & Hc' & Hev' & Esc & HR & Hbm').
      exists bm', R, self', (ext_neg v :: scores).
      split; [exact El|]. split; [exact Hc'|]. split; [exact Hev'|].
      simpl mapM. rewrite Es, Esc. split; [reflexivity|]. split.
      - rewrite HR, Hmax, ext_maximum_cons, py_max_assoc. reflexivity.
      - simpl. destruct Hbm' as [->|Hin]; [|auto].
        destruct Hbm1 as [->| ->]; auto. }
    destruct (ext_ltb best s) eqn:Elt.
    + assert (E : py_max best s = s) by (unfold py_max; rewrite Elt; reflexivity).
      rewrite E in Hnext. cbv zeta iota beta. rewrite E.
      apply Hnext. right. reflexivity.
    + assert (E : py_max best s = best)
        by (unfold py_max; rewrite Elt; reflexivity).
      rewrite E in Hnext. cbv zeta iota beta. rewrite E.
      apply Hnext. left. reflexivity.
Qed.

(** C4.  With a clock that never reaches the deadline, the root search
    of a position that is not over returns, at every depth, a move and
    the score a full-width negamax search of the same position to the
    same depth computes from the same terminal values and the same leaf
    evaluation. *)
Theorem search_root_equals_full_width (state : GameState) (depth : Z)
    (self : TwoFlagsAI) :
  wf_board (board state) ->
  is_terminal state = (false, None) ->
  exists mv score self',
    search_root never state depth self = (Ok (Some mv, score), self')
    /\ full_width_root (color self) (evaluator self) state depth = Ok score
    /\ In mv (generate_moves state).
Proof.
  intros Hwf Ht.
  destruct (is_terminal_false _ Ht) as (_ & _ & _ & Hne).
  pose proof (generate_moves_in_bounds state) as Hgen.
  destruct (order_moves_ok state _ Hwf Hgen) as (ms & Eo & Hperm).
  assert (Hms : Forall move_in_bounds ms).
  { apply Forall_forall. intros m Hm. rewrite Forall_forall in Hgen.
    apply Hgen. eapply Permutation_in; eauto. }
  unfold search_root.
  destruct (generate_moves state) as [|g gs] eqn:Eg; [congruence|].
  rewrite <- Eg in *. clear Eg g gs.
  unfold bind at 1, lift at 1. rewrite Eo.
  destruct ms as [|m0 ms'] eqn:Ems.
  { apply Permutation_nil in Hperm. congruence. }
  rewrite <- Ems in *.
  assert (E0 : py_index ms 0 = Ok m0) by (rewrite Ems; reflexivity).
  unfold bind at 1, lift at 1. rewrite E0.
  destruct (search_root_loop_sound (color self) (evaluator self) state depth ms
              Hwf Hms m0 NegInf self eq_refl eq_refl)
    as (bm & R & self' & scores & El & _ & _ & Esc & HR & Hbm);
    [discriminate|].
  destruct (mapM_perm _ _ _ _ Hperm Esc) as (scores' & Esc' & Hp').
  unfold bind at 1. rewrite El. unfold ret. cbn [fst snd].
  exists bm, R, self'. split; [reflexivity|]. split.
  - unfold full_width_root. rewrite Esc'. simpl.
    rewrite HR, py_max_neginf_l. f_equal. symmetry.
    apply ext_maximum_perm. exact Hp'.
  - eapply Permutation_in; [exact Hperm|].
    destruct Hbm as [->|Hin]; auto. rewrite Ems. left. reflexivity.
Qed.

Lemma search_root_equals_full_width_witness :
  exists mv score self',
    search_root never initial_position 3 (new_TwoFlagsAI WHITE)
    = (Ok (Some mv, score), self')
    /\ full_width_root WHITE new_Evaluator initial_position 3 = Ok score.
Proof.
  destruct (search_root_equals_full_width initial_position 3
              (new_TwoFlagsAI WHITE))
    as (mv & score & self' & H1 & H2 & _).
  - apply wf_boardb_spec. reflexivity.
  - reflexivity.
  - exists mv, score, self'. split; assumption.
Defined.

(* ================================================================= *)
(** * [get_best_move] under any clock *)

Lemma benign_bind {A B} (P : A -> Prop) (Q : B -> Prop)
    (m : M A) (k : A -> M B) (self : TwoFlagsAI) :
  benign P (fst (m self)) ->
  (forall a self', P a -> benign Q (fst (k a self'))) ->
  benign Q (fst (bind m k self)).
Proof.
  intros Hm Hk. unfold bind. destruct (m self) as [[a|e] self']; simpl in *.
  - apply Hk. exact Hm.
  - exact Hm.
Qed.

Section AnyClock.
Variable deadline : nat -> bool.

Section Loops.
Variable rec : GameState -> Z -> ext -> ext -> bool -> M ext.
Variable state : GameState.
Variable depth : Z.
Hypothesis Hwf : wf_board (board state).
Hypothesis Hrec : forall child alpha beta mx self,
    wf_board (board child) ->
    benign (fun _ => True) (fst (rec child (depth - 1) alpha beta mx self)).

Lemma alpha_beta_loop_benign (beta : ext) (mx : bool) (moves : list move) :
  Forall move_in_bounds moves ->
  forall best a self,
    benign (fun _ => True)
      (fst (alpha_beta_loop rec state depth beta mx moves best a self)).
Proof.
  induction 1 as [|mv moves Hmv _ IH]; intros best a self.
  - exact I.
  - cbn [alpha_beta_loop]. destruct mv as [[[fc fr] tc] tr].
    destruct (make_move_ok state fc fr tc tr Hwf Hmv) as (child & E & W & _).
    unfold bind at 1, lift at 1. rewrite E.
    apply (benign_bind (fun _ => True)).
    + apply Hrec. exact W.
    + intros r self' _. destruct (ext_leb beta _); [exact I|apply IH].
Qed.
End Loops.

(** Whatever the clock does, on a well-formed position [alpha_beta]
    returns a score or raises [TimeoutError]. *)
Lemma alpha_beta_benign (fuel : nat) :
  forall state depth alpha beta mx self,
    wf_board (board state) -> (Z.to_nat depth < fuel)%nat ->
    benign (fun _ => True)
      (fst (alpha_beta_fuel deadline fuel state depth alpha beta mx self)).
Proof.
  induction fuel as [|fuel IH];
    intros state depth alpha beta mx self Hwf Hfuel; [lia|].
  cbn [alpha_beta_fuel]. unfold alpha_beta_body.
  unfold bind at 1, count_node at 1. unfold bind at 1, should_stop at 1.
  cbn [clock_reads].
  destruct (deadline (clock_reads self)); [exact I|].
  destruct (is_terminal state) as [is_over winner] eqn:Et.
  destruct is_over.
  - destruct winner as [w|]; [|exact I].
    cbn [color]. destruct (Ascii.eqb w (color self)); exact I.
  - destruct (depth <=? 0) eqn:Ed; [exact I|]. apply Z.leb_gt in Ed.
    pose proof (generate_moves_in_bounds state) as Hgen.
    destruct (order_moves_ok state _ Hwf Hgen) as (ms & Eo & Hperm).
    assert (Hms : Forall move_in_bounds ms).
    { apply Forall_forall. intros m Hm. rewrite Forall_forall in Hgen.
      apply Hgen. eapply Permutation_in; eauto. }
    unfold bind at 1, lift at 1. rewrite Eo.
    apply alpha_beta_loop_benign; auto.
    intros child a b m s Hw. apply IH; [exact Hw|lia].
Qed.

Lemma search_root_loop_benign (state : GameState) (depth : Z)
    (moves : list move) :
  wf_board (board state) ->
  Forall move_in_bounds moves ->
  forall beta bm best a self,
    benign (fun res => fst res = bm \/ In (fst res) moves)
      (fst (search_root_loop deadline state depth beta moves bm best a self)).
Proof.
  intros Hwf. induction 1 as [|mv moves Hmv _ IH]; intros beta bm best a self.
  - simpl. auto.
  - cbn [search_root_loop]. unfold bind at 1, should_stop at 1.
    destruct (deadline (clock_reads self)); [exact I|].
    destruct mv as [[[fc fr] tc] tr].
    destruct (make_move_ok state fc fr tc tr Hwf Hmv) as (child & E & W & _).
    unfold bind at 1, lift at 1. rewrite E.
    apply (benign_bind (fun _ => True)).
    + unfold alpha_beta. apply alpha_beta_benign; [exact W|lia].
    + intros r self' _.
      destruct (ext_ltb best (ext_neg r)).
      * specialize (IH beta (fc, fr, tc, tr) (ext_neg r)
                      (py_max a (ext_neg r)) self').
        destruct (fst (search_root_loop _ _ _ _ _ _ _ _ _)) as [res|[]];
          simpl in *; auto.
        destruct IH as [->|Hin]; auto.
      * specialize (IH beta bm best (py_max a (ext_neg r)) self').
        destruct (fst (search_root_loop _ _ _ _ _ _ _ _ _)) as [res|[]];
          simpl in *; auto.
        destruct IH as [->|Hin]; auto.
Qed.

(** [search_root] returns a legal move (none exactly when there is
    none) or raises [TimeoutError]. *)
Lemma search_root_benign (state : GameState) (depth : Z) (self : TwoFlagsAI) :
  wf_board (board state) ->
  benign (fun res => match fst res with
                     | Some m => In m (generate_moves state)
                     | None => generate_moves state = []
                     end)
    (fst (search_root deadline state depth self)).
Proof.
  intros Hwf. unfold search_root.
  pose proof (generate_moves_in_bounds state) as Hgen.
  destruct (order_moves_ok state _ Hwf Hgen) as (ms & Eo & Hperm).
  assert (Hms : Forall move_in_bounds ms).
  { apply Forall_forall. intros m Hm. rewrite Forall_forall in Hgen.
    apply Hgen. eapply Permutation_in; eauto. }
  destruct (generate_moves state) as [|g gs] eqn:Eg; [reflexivity|].
  assert (Hne : generate_moves state <> []) by (rewrite Eg; discriminate).
  rewrite <- Eg in *. clear Eg g gs.
  unfold bind at 1, lift at 1. rewrite Eo.
  destruct ms as [|m0 ms'] eqn:Ems.
  - apply Permutation_nil in Hperm. contradiction.
  - rewrite <- Ems in *.
    assert (E0 : py_index ms 0 = Ok m0) by (rewrite Ems; reflexivity).
    unfold bind at 1, lift at 1. rewrite E0.
    apply (benign_bind (fun res => fst res = m0 \/ In (fst res) ms)).
    + apply search_root_loop_benign; auto.
    + intros res self' Hres. simpl.
      eapply Permutation_in; [exact Hperm|].
      destruct Hres as [->|Hin]; auto. rewrite Ems. left. reflexivity.
Qed.

(** One turn of the deepening loop never raises, and keeps
    [best_move] legal. *)
Lemma deepen_step_legal (state : GameState) (depth : Z) (bm : move)
    (self : TwoFlagsAI) :
  wf_board (board state) -> In bm (generate_moves state) ->
  exists bm' go self',
    deepen_step deadline state depth bm self = (Ok (bm', go), self')
    /\ In bm' (generate_moves state).
Proof.
  intros Hwf Hbm. unfold deepen_step.
  unfold bind at 1, should_stop at 1.
  destruct (deadline (clock_reads self)); [unfold ret; eauto|].
  match goal with
  | |- context [search_root deadline state depth ?s] =>
      pose proof (search_root_benign state depth s Hwf) as Hs;
      destruct (search_root deadline state depth s) as [[[mv score]|e] self1]
  end; simpl in Hs.
  - destruct mv as [m|].
    + unfold bind at 1. unfold bind at 1, set_max_depth at 1, ret at 1.
      destruct (ext_leb _ score); unfold ret; eauto.
    + unfold bind at 1, ret at 1.
      destruct (ext_leb _ score); unfold ret; eauto.
  - destruct e; try contradiction. eauto.
Qed.

Lemma deepen_legal (state : GameState) (depths : list Z) :
  wf_board (board state) ->
  forall bm self,
    In bm (generate_moves state) ->
    exists bm' self',
      deepen deadline state depths bm self = (Ok bm', self')
      /\ In bm' (generate_moves state).
Proof.
  intros Hwf. induction depths as [|d rest IH]; intros bm self Hbm.
  - simpl. unfold ret. eauto.
  - cbn [deepen].
    destruct (deepen_step_legal state d bm self Hwf Hbm)
      as (bm1 & go & self1 & E & Hbm1).
    unfold bind at 1. rewrite E. cbn [fst snd].
    destruct go; [apply IH; exact Hbm1|unfold ret; eauto].
Qed.

(** When depth 1 does not complete the loop ends at once and
    [best_move] is what it was. *)
Lemma deepen_aborted (state : GameState) (rest : list Z) (bm : move)
    (self : TwoFlagsAI) :
  match should_stop deadline self with
  | (Ok true, _) => True
  | (Ok false, self1) =>
      fst (search_root deadline state 1 self1) = Raise TimeoutError
  | (Raise _, _) => False
  end ->
  fst (deepen deadline state (1 :: rest) bm self) = Ok bm.
Proof.
  cbn [deepen]. unfold deepen_step.
  unfold bind at 1. unfold bind at 1. unfold should_stop at 1 2.
  destruct (deadline (clock_reads self)); [reflexivity|].
  intros H.
  match goal with
  | |- context [search_root deadline state 1 ?s] =>
      destruct (search_root deadline state 1 s) as [[res|e] self1]
  end; simpl in H; [discriminate|].
  injection H as ->. reflexivity.
Qed.

(** C6 (as the code has it).  On a well-formed position
    [get_best_move] returns without raising; it returns no move
    exactly when there is no legal move and a legal move otherwise;
    and when no depth completes the move is the first one in
    generation order. *)
Theorem get_best_move_contract (state : GameState) (self : TwoFlagsAI) :
  wf_board (board state) ->
  exists r self',
    get_best_move deadline state self = (Ok r, self')
    /\ (r = None <-> generate_moves state = [])
    /\ (forall m, r = Some m -> In m (generate_moves state))
    /\ (depth_one_aborts deadline state self ->
        r = hd_error (generate_moves state)).
Proof.
  intros Hwf. unfold get_best_move, depth_one_aborts.
  unfold bind at 1, reset_nodes at 1. cbn [snd reset_nodes].
  set (self0 := {| color := color self; evaluator := evaluator self;
                   nodes_searched := 0;
                   max_depth_reached := max_depth_reached self;
                   clock_reads := clock_reads self |}).
  destruct (generate_moves state) as [|m0 [|m1 ms]] eqn:Eg.
  - exists None, self0. unfold ret. repeat split; auto; discriminate.
  - exists (Some m0), self0. unfold ret. repeat split; auto; try discriminate.
    intros m [= <-]. left. reflexivity.
  - rewrite <- Eg. assert (Hm0 : In m0 (generate_moves state))
      by (rewrite Eg; left; reflexivity).
    destruct (deepen_legal state (map (fun d => d + 1) (range 49)) Hwf
                m0 self0 Hm0) as (bm & self' & E & Hbm).
    exists (Some bm), self'. unfold bind at 1. rewrite E. unfold ret.
    split; [reflexivity|]. split; [|split].
    + split; [discriminate|]. rewrite Eg. discriminate.
    + intros m [= <-]. exact Hbm.
    + intros Hab. rewrite Eg. simpl. f_equal.
      change (map (fun d => d + 1) (range 49))
        with (1 :: map (fun d => d + 1) (map Z.of_nat (seq 1 48))) in E.
      pose proof (deepen_aborted state
                    (map (fun d => d + 1) (map Z.of_nat (seq 1 48)))
                    m0 self0 Hab) as Hd.
      rewrite E in Hd. simpl in Hd. congruence.
Qed.
End AnyClock.

(** C6 as the specification words it does not hold: from the initial
    position, with a clock that stops the search in the middle of
    depth 1, the move returned is a2-a3, the first move generated, and
    not c2-c4, the first move in the order of [order_moves]. *)
Lemma get_best_move_fallback_not_ordered :
  let deadline := fun n => (5 <=? n)%nat in
  let self := new_TwoFlagsAI WHITE in
  depth_one_aborts deadline initial_position self
  /\ fst (get_best_move deadline initial_position self) = Ok (Some (0, 1, 0, 2))
  /\ (exists ms, order_moves initial_position (generate_moves initial_position)
                = Ok ((2, 1, 2, 3) :: ms))
  /\ (0, 1, 0, 2) <> (2, 1, 2, 3).
Proof.
  split; [vm_compute; reflexivity|]. split; [vm_compute; reflexivity|].
  split; [eexists; vm_compute; reflexivity|]. discriminate.
Qed.

Lemma get_best_move_contract_witness :
  exists r self',
    get_best_move (fun n => (5 <=? n)%nat) initial_position
      (new_TwoFlagsAI WHITE) = (Ok r, self')
    /\ r = hd_error (generate_moves initial_position).
Proof.
  destruct (get_best_move_contract (fun n => (5 <=? n)%nat) initial_position
              (new_TwoFlagsAI WHITE))
    as (r & self' & E & _ & _ & H).
  - apply wf_boardb_spec. reflexivity.
  - exists r, self'. split; [exact E|]. apply H. vm_compute. reflexivity.
Defined.

(* ================================================================= *)
(** * Moves as text *)

Ltac coord_cases c :=
  let H := fresh in
  assert (H : c = 0 \/ c = 1 \/ c = 2 \/ c = 3 \/ c = 4 \/ c = 5 \/ c = 6 \/ c = 7)
    by lia;
  repeat (destruct H as [H | H]); subst c.

Lemma chr_file (c : Z) :
  0 <= c < 8 ->
  exists a, chr (ord "a" + c) = Ok a /\ ord a - ord "a" = c
            /\ is_file_letter a = true /\ lower_char a = a.
Proof.
  intros Hc. coord_cases c; eexists; repeat split; reflexivity.
Qed.

Lemma str_rank (r : Z) :
  0 <= r < 8 ->
  exists d, str (r + 1) = String d EmptyString /\ int_of_char d = Ok (r + 1)
            /\ is_rank_digit d = true /\ lower_char d = d.
Proof.
  intros Hr. coord_cases r; eexists; repeat split; reflexivity.
Qed.

(** C9.  For a move whose four coordinates lie in 0..7,
    [move_to_string] yields four characters, a file letter a-h, a rank
    digit 1-8, a file letter and a rank digit, which lower-casing leaves
    as they are, and [string_to_move] reads the move back from them. *)
Theorem move_text_roundtrip (m : move) :
  move_in_bounds m ->
  exists c1 d1 c2 d2,
    move_to_string m = Ok (String c1 (String d1 (String c2 (String d2 EmptyString))))
    /\ string_to_move (String c1 (String d1 (String c2 (String d2 EmptyString))))
       = Ok (Some m)
    /\ is_file_letter c1 = true /\ is_rank_digit d1 = true
    /\ is_file_letter c2 = true /\ is_rank_digit d2 = true
    /\ lower (String c1 (String d1 (String c2 (String d2 EmptyString))))
       = String c1 (String d1 (String c2 (String d2 EmptyString))).
Proof.
  destruct m as [[[fc fr] tc] tr]. intros (Hfc & Hfr & Htc & Htr).
  destruct (chr_file fc Hfc) as (c1 & E1 & O1 & F1 & L1).
  destruct (chr_file tc Htc) as (c2 & E2 & O2 & F2 & L2).
  destruct (str_rank fr Hfr) as (d1 & S1 & I1 & R1 & M1).
  destruct (str_rank tr Htr) as (d2 & S2 & I2 & R2 & M2).
  exists c1, d1, c2, d2.
  unfold move_to_string. rewrite E1, E2, S1, S2. simpl.
  repeat split; auto.
  - unfold string_to_move. simpl. rewrite I1, I2. simpl.
    rewrite O1, O2. replace (fr + 1 - 1) with fr by lia. replace (tr + 1 - 1) with tr by lia. reflexivity.
  - rewrite L1, L2, M1, M2. reflexivity.
Qed.

(** Off the board the text is no longer four characters long: rank 10
    takes two digits. *)
Example move_to_string_rank_10 : move_to_string (0, 9, 0, 0) = Ok "a10a1"%string.
Proof. reflexivity. Qed.

Lemma move_text_roundtrip_witness :
  exists c1 d1 c2 d2,
    move_to_string (4, 1, 4, 3)
    = Ok (String c1 (String d1 (String c2 (String d2 EmptyString))))
    /\ string_to_move (String c1 (String d1 (String c2 (String d2 EmptyString))))
       = Ok (Some (4, 1, 4, 3)).
Proof.
  destruct (move_text_roundtrip (4, 1, 4, 3)) as (c1 & d1 & c2 & d2 & H1 & H2 & _).
  - simpl. lia.
  - exists c1, d1, c2, d2. split; assumption.
Defined.

(* ================================================================= *)
(** * Where the code and the specification part *)

(** At depth 0 or below, on a position that is not over and with time
    left, [alpha_beta] returns the static evaluation seen from the
    engine's own colour, whoever is to move. *)
Lemma alpha_beta_leaf (deadline : nat -> bool) (state : GameState) (depth : Z)
    (alpha beta : ext) (mx : bool) (self : TwoFlagsAI) :
  depth <= 0 ->
  is_terminal state = (false, None) ->
  deadline (clock_reads self) = false ->
  fst (alpha_beta deadline state depth alpha beta mx self)
  = Ok (Fin (evaluate (evaluator self) state (color self))).
Proof.
  intros Hd Ht Hclock. unfold alpha_beta. cbn [alpha_beta_fuel].
  unfold alpha_beta_body.
  unfold bind at 1, count_node at 1. unfold bind at 1, should_stop at 1.
  cbn [clock_reads]. rewrite Hclock, Ht.
  replace (depth <=? 0) with true by (symmetry; apply Z.leb_le; exact Hd).
  reflexivity.
Qed.

(** C1 (the code departs from it).  The white engine searches the
    position after e2-e4, black to move, at depth 0: the value returned
    is 40, the evaluation for white, where the evaluation for the side
    to move is 0. *)
Theorem alpha_beta_leaf_engine_side :
  is_terminal after_e2e4 = (false, None)
  /\ current_player after_e2e4 = BLACK
  /\ fst (alpha_beta never after_e2e4 0 NegInf PosInf false
            (new_TwoFlagsAI WHITE)) = Ok (Fin 40)
  /\ evaluate new_Evaluator after_e2e4 WHITE = 40
  /\ evaluate new_Evaluator after_e2e4 (current_player after_e2e4) = 0.
Proof. vm_compute. repeat split. Qed.

(** The same defect at the root: with a7-a8 on the board, which wins at
    once, the white engine values the won position 9950, so the move
    -9950, and at depth 1 returns h2-h3 with the score -230. *)
Lemma search_root_shuns_win :
  In (0, 6, 0, 7) (generate_moves before_a7a8)
  /\ make_move before_a7a8 (0, 6, 0, 7) = Ok after_a7a8
  /\ is_terminal after_a7a8 = (true, Some WHITE)
  /\ fst (alpha_beta never after_a7a8 0 NegInf PosInf false
            (new_TwoFlagsAI WHITE)) = Ok (Fin 9950)
  /\ fst (search_root never before_a7a8 1 (new_TwoFlagsAI WHITE))
     = Ok (Some (7, 1, 7, 2), Fin (-230)).
Proof.
  split; [vm_compute; auto|].
  split; [vm_compute; reflexivity|].
  split; [vm_compute; reflexivity|].
  split; vm_compute; reflexivity.
Qed.

(** C7 (the code departs from it).  A token whose rank is not a digit
    stops the setup with [ValueError]; a token whose colour is neither W
    nor B is placed on the board all the same; an input without tokens
    raises [IndexError]. *)
Theorem setup_from_string_malformed :
  setup_from_string new_GameState "Setup Wa2 Wbx" = Raise ValueError
  /\ (exists s, setup_from_string new_GameState "Setup Wa2 Xb3" = Ok s
                /\ cell_at (board s) 1 2 = "X"%char)
  /\ setup_from_string new_GameState "" = Raise IndexError.
Proof.
  split; [vm_compute; reflexivity|].
  split; [eexists; split; vm_compute; reflexivity|].
  vm_compute; reflexivity.
Qed.

(** C8 (the code departs from it).  Only a string shorter than four
    characters is reported as unparsable.  A rank that is not a digit
    raises [ValueError]; letters and digits outside a-h and 1-8 give a
    move off the board; characters after the fourth are dropped. *)
Theorem string_to_move_malformed :
  string_to_move "e2" = Ok None
  /\ string_to_move "e2ex" = Raise ValueError
  /\ string_to_move "z9z9" = Ok (Some (25, 8, 25, 8))
  /\ string_to_move "e2e4??" = Ok (Some (4, 1, 4, 3)).
Proof. vm_compute. repeat split. Qed.

(* ================================================================= *)
(** * The move generator, rule by rule *)

Lemma is_ep_target_spec (ep : option square) (c r : Z) :
  is_ep_target ep c r = true <-> ep = Some (c, r).
Proof.
  unfold is_ep_target, square_eqb. destruct ep as [[c' r']|]; simpl.
  - rewrite andb_true_iff, !Z.eqb_eq. split.
    + intros [-> ->]. reflexivity.
    + intros [= -> ->]. auto.
  - split; discriminate.
Qed.

Lemma in_if_nil {A} (c : bool) (l : list A) (x : A) :
  In x (if c then l else []) <-> c = true /\ In x l.
Proof. destruct c; simpl; intuition discriminate. Qed.

Lemma in_capture_list {A} (c1 c2 c3 : bool) (y x : A) :
  In x (if c1 then [y] else if c2 then if c3 then [y] else [] else [])
  <-> x = y /\ (c1 = true \/ (c2 = true /\ c3 = true)).
Proof.
  destruct c1, c2, c3; simpl; intuition (try discriminate; auto).
Qed.

(** The moves generated for one pawn. *)
Lemma pawn_moves_iff (s : GameState) (col row fc fr tc tr : Z) :
  let b := board s in
  let player := current_player s in
  let d := if Ascii.eqb player WHITE then 1 else -1 in
  let start_row := if Ascii.eqb player WHITE then 1 else 6 in
  0 <= row < 8 ->
  (In (fc, fr, tc, tr) (pawn_moves s col row) <->
   fc = col /\ fr = row /\ (0 <= tc < 8 /\ 0 <= tr < 8)
   /\ ((tc = fc /\ tr = fr + d /\ cell_at b tc tr = EMPTY)
       \/ (tc = fc /\ fr = start_row /\ tr = fr + 2 * d
           /\ cell_at b fc (fr + d) = EMPTY /\ cell_at b tc tr = EMPTY)
       \/ ((tc = fc - 1 \/ tc = fc + 1) /\ tr = fr + d
           /\ (cell_at b tc tr = other_player player
               \/ (en_passant_target s = Some (tc, tr)
                   /\ cell_at b tc fr = other_player player))))).
Proof.
  intros b player d start_row Hrow. unfold pawn_moves.
  fold b player. fold d start_row. cbv zeta.
  rewrite in_app_iff, in_flat_map.
  rewrite in_if_nil. simpl In at 1.
  rewrite in_if_nil, in_if_nil. simpl In at 1.
  rewrite !andb_true_iff, !is_valid_pos_spec, !Ascii.eqb_eq, Z.eqb_eq.
  split.
  - intros [H|H].
    + destruct H as [[V1 E1] [H|[R [[V2 E2] [H|[]]]]]];
        injection H as <- <- <- <-.
      * repeat split; try lia. left. auto.
      * repeat split; try lia. right; left. repeat split; auto.
    + destruct H as (dcol & Hd & H).
      rewrite in_if_nil, in_capture_list in H.
      rewrite is_valid_pos_spec, !Ascii.eqb_eq, is_ep_target_spec in H.
      destruct H as (V & H & C). injection H as -> -> -> ->.
      repeat split; try lia. right; right.
      split; [simpl in Hd; lia|]. split; [reflexivity|]. exact C.
  - intros (-> & -> & Vt & [(-> & -> & E)|[(-> & R & -> & E1 & E2)|(Hc & -> & C)]]).
    + left. split; [split; [lia|exact E]|]. left. reflexivity.
    + left. unfold d, start_row in *.
      destruct (Ascii.eqb player WHITE).
      * split; [split; [lia|exact E1]|]. right.
        split; [exact R|]. split; [split; [lia|exact E2]|]. left. reflexivity.
      * split; [split; [lia|exact E1]|]. right.
        split; [exact R|]. split; [split; [lia|exact E2]|]. left. reflexivity.
    + right. exists (tc - col). split; [simpl; lia|].
      rewrite in_if_nil, in_capture_list.
      rewrite is_valid_pos_spec, !Ascii.eqb_eq, is_ep_target_spec.
      replace (col + (tc - col)) with tc by lia.
      split; [lia|]. split; [reflexivity|]. exact C.
Qed.

(** Membership in [generate_moves], rule by rule. *)
Lemma generate_moves_legal (s : GameState) (m : move) :
  In m (generate_moves s) <-> legal_move s m.
Proof.
  destruct m as [[[fc fr] tc] tr]. unfold generate_moves, legal_move.
  rewrite in_flat_map. split.
  - intros ([col row] & Hp & Hm). apply in_get_all_pieces in Hp.
    simpl in Hp. destruct Hp as [[Hc Hr] Hcell]. simpl in Hm.
    apply (pawn_moves_iff s col row fc fr tc tr Hr) in Hm.
    destruct Hm as (-> & -> & Vt & Hcases). auto.
  - intros (Vf & Hcell & Vt & Hcases). exists (fc, fr). split.
    + apply in_get_all_pieces. simpl. auto.
    + simpl. apply (pawn_moves_iff s fc fr fc fr tc tr); [lia|]. auto.
Qed.

Lemma NoDup_flat_map {A B} (f : A -> list B) (l : list A) :
  NoDup l ->
  (forall x, In x l -> NoDup (f x)) ->
  (forall x y b, In x l -> In y l -> In b (f x) -> In b (f y) -> x = y) ->
  NoDup (flat_map f l).
Proof.
  induction 1 as [|x t Hx Ht IH]; intros Hf Hd; simpl; [constructor|].
  apply NoDup_app.
  - apply Hf. left. reflexivity.
  - apply IH.
    + intros y Hy. apply Hf. right. exact Hy.
    + intros y z b Hy Hz. apply Hd; right; assumption.
  - intros b Hb Hb'. apply in_flat_map in Hb'. destruct Hb' as (y & Hy & Hby).
    assert (x = y) by (apply (Hd x y b); simpl; auto).
    subst y. contradiction.
Qed.

Lemma NoDup_range (n : Z) : NoDup (range n).
Proof.
  unfold range. apply Finite.Injective_map_NoDup.
  - intros a b. apply Nat2Z.inj.
  - apply seq_NoDup.
Qed.

Lemma NoDup_all_squares : NoDup all_squares.
Proof.
  unfold all_squares. apply NoDup_flat_map.
  - apply NoDup_range.
  - intros row _. apply Finite.Injective_map_NoDup; [|apply NoDup_range].
    intros a b [= ->]. reflexivity.
  - intros x y b _ _ Hx Hy. apply in_map_iff in Hx, Hy.
    destruct Hx as (c & <- & _). destruct Hy as (c' & [= _ ->] & _).
    reflexivity.
Qed.

Lemma NoDup_get_all_pieces (b : board_t) (c : ascii) :
  NoDup (get_all_pieces b c).
Proof.
  rewrite get_all_pieces_filter. apply NoDup_filter. apply NoDup_all_squares.
Qed.

Lemma pawn_moves_source (s : GameState) (col row : Z) (m : move) :
  In m (pawn_moves s col row) -> fst (fst (fst m)) = col /\ snd (fst (fst m)) = row.
Proof.
  unfold pawn_moves. cbv zeta. rewrite in_app_iff, in_flat_map.
  intros [H|(d & _ & H)].
  - destruct (_ && _); [|contradiction]. destruct H as [<-|H]; [auto|].
    destruct (_ =? _); [|contradiction].
    destruct (_ && _); [|contradiction].
    destruct H as [<-|[]]. auto.
  - destruct (is_valid_pos _ _); [|contradiction].
    destruct (Ascii.eqb _ _); [destruct H as [<-|[]]; auto|].
    destruct (is_ep_target _ _ _); [|contradiction].
    destruct (Ascii.eqb _ _); [destruct H as [<-|[]]; auto|contradiction].
Qed.

Lemma NoDup_pawn_moves (s : GameState) (col row : Z) :
  NoDup (pawn_moves s col row).
Proof.
  unfold pawn_moves. cbv zeta. simpl flat_map.
  set (d := if Ascii.eqb (current_player s) WHITE then 1 else -1).
  assert (Hd : d = 1 \/ d = -1)
    by (unfold d; destruct (Ascii.eqb _ _); auto).
  repeat match goal with
         | |- context [if ?c then _ else _] =>
             lazymatch c with
             | context [if _ then _ else _] => fail
             | _ => destruct c
             end
         end;
    simpl app;
    repeat (constructor; simpl;
            [intros H; repeat (destruct H as [H|H]; [injection H; lia|]);
             exact H|]);
    constructor.
Qed.

Lemma generate_moves_NoDup (s : GameState) : NoDup (generate_moves s).
Proof.
  unfold generate_moves. apply NoDup_flat_map.
  - apply NoDup_get_all_pieces.
  - intros x _. apply NoDup_pawn_moves.
  - intros [c r] [c' r'] m _ _ H H'. simpl in H, H'.
    apply pawn_moves_source in H, H'. destruct H as [<- <-].
    destruct H' as [<- <-]. reflexivity.
Qed.

Lemma move_eqb_eq (a b : move) : move_eqb a b = true <-> a = b.
Proof.
  destruct a as [[[a1 a2] a3] a4], b as [[[b1 b2] b3] b4].
  unfold move_eqb. cbn. rewrite !andb_true_iff, !Z.eqb_eq. split.
  - intros [[[-> ->] ->] ->]. reflexivity.
  - intros [= -> -> -> ->]. auto.
Qed.

Lemma move_in_In (m : move) (l : list move) : move_in m l = true <-> In m l.
Proof.
  unfold move_in. rewrite existsb_exists. split.
  - intros (x & Hx & E). apply move_eqb_eq in E. subst. exact Hx.
  - intros H. exists m. split; [exact H|]. apply move_eqb_eq. reflexivity.
Qed.

(** X1.  On an 8x8 board [generate_moves] lists exactly the moves the
    rules allow: a pawn of the side to move steps one cell forward onto
    an empty cell, two cells from its start row over and onto empty
    cells, or one cell diagonally forward onto an opponent pawn or onto
    the en-passant target beside an opponent pawn, always within the
    board; and it lists no move twice. *)
Theorem generate_moves_rules (s : GameState) :
  wf_board (board s) ->
  (forall m, In m (generate_moves s) <-> legal_move s m)
  /\ NoDup (generate_moves s).
Proof.
  intros _. split.
  - intros m. apply generate_moves_legal.
  - apply generate_moves_NoDup.
Qed.

Lemma generate_moves_rules_witness :
  (forall m, In m (generate_moves after_e2e4) <-> legal_move after_e2e4 m)
  /\ NoDup (generate_moves after_e2e4).
Proof.
  apply (generate_moves_rules after_e2e4).
  apply wf_boardb_spec. vm_compute. reflexivity.
Defined.

(* ================================================================= *)
(** * The end of the game and the two sides of the evaluation *)

Lemma reached_end_side (b : board_t) (cols : list Z) (w : ascii) :
  reached_end b cols = Some w -> w = WHITE \/ w = BLACK.
Proof.
  induction cols as [|c cols IH]; simpl; [discriminate|].
  destruct (Ascii.eqb _ WHITE); [intros [= <-]; auto|].
  destruct (Ascii.eqb _ BLACK); [intros [= <-]; auto|]. exact IH.
Qed.

Lemma other_player_side (p : ascii) :
  other_player p = WHITE \/ other_player p = BLACK.
Proof. unfold other_player. destruct (Ascii.eqb p WHITE); auto. Qed.

Lemma is_terminal_cases (s : GameState) :
  (exists w, is_terminal s = (true, Some w) /\ (w = WHITE \/ w = BLACK))
  \/ is_terminal s = (false, None).
Proof.
  unfold is_terminal.
  destruct (reached_end (board s) (range BOARD_SIZE)) as [w|] eqn:E.
  - left. exists w. split; [reflexivity|]. eapply reached_end_side; eauto.
  - destruct (_ =? _)%nat; [left; exists BLACK; auto|].
    destruct (_ =? _)%nat; [left; exists WHITE; auto|].
    destruct (_ =? _)%nat; [|right; reflexivity].
    left. eexists. split; [reflexivity|]. apply other_player_side.
Qed.

(** X2.  On an 8x8 board [is_terminal] never reports a draw: when the
    game is over the winner is white or black, and a winner is named
    only when the game is over.  (The [Draw!] branches of the play loops
    and the [return 0] of [evaluate] are never taken.) *)
Theorem is_terminal_never_draw (s : GameState) :
  wf_board (board s) ->
  (fst (is_terminal s) = true
   /\ (snd (is_terminal s) = Some WHITE \/ snd (is_terminal s) = Some BLACK))
  \/ is_terminal s = (false, None).
Proof.
  intros _.
  destruct (is_terminal_cases s) as [(w & E & Hw)|E]; [left|right; exact E].
  rewrite E. simpl. split; [reflexivity|]. destruct Hw as [-> | ->]; auto.
Qed.

Lemma is_terminal_never_draw_witness :
  (fst (is_terminal short_game_end) = true
   /\ (snd (is_terminal short_game_end) = Some WHITE
       \/ snd (is_terminal short_game_end) = Some BLACK))
  \/ is_terminal short_game_end = (false, None).
Proof.
  apply (is_terminal_never_draw short_game_end).
  apply wf_boardb_spec. vm_compute. reflexivity.
Defined.

Lemma zsum_my_opp (ev : Evaluator) (b : board_t) (c : ascii) (l : list square) :
  zsum (my_pawn_term ev b c) l - zsum (opp_pawn_term ev b c) l
  = center_weight ev
    * Z.of_nat (List.length (filter (fun p => in_center (fst p)) l)).
Proof.
  induction l as [|p l IH]; [simpl; lia|].
  rewrite !zsum_cons. cbn [filter]. unfold my_pawn_term at 1, opp_pawn_term at 1.
  destruct (in_center (fst p)); cbn [List.length]; lia.
Qed.

(** X3.  The evaluation is not zero-sum: for an 8x8 position that is
    not over the scores for white and for black add up to the centre
    bonus of all the pawns on files c to f, because each side's centre
    bonus is counted in its own score and never subtracted from the
    other's; for a position that is over they add up to zero. *)
Theorem evaluate_both_sides (ev : Evaluator) (s : GameState) :
  wf_board (board s) ->
  evaluate ev s WHITE + evaluate ev s BLACK
  = if fst (is_terminal s) then 0
    else center_weight ev
         * Z.of_nat (List.length
             (filter (fun p => in_center (fst p))
                (get_all_pieces (board s) WHITE
                 ++ get_all_pieces (board s) BLACK))).
Proof.
  intros _. destruct (is_terminal_cases s) as [(w & E & Hw)|E].
  - unfold evaluate. rewrite E. cbn [fst].
    destruct Hw as [-> | ->]; vm_compute; reflexivity.
  - rewrite !(evaluate_nonterminal _ _ _ E). rewrite E. cbn [fst].
    change (other_player WHITE) with BLACK.
    change (other_player BLACK) with WHITE.
    rewrite filter_app, length_app, Nat2Z.inj_add.
    pose proof (zsum_my_opp ev (board s) WHITE (get_all_pieces (board s) WHITE)).
    pose proof (zsum_my_opp ev (board s) BLACK (get_all_pieces (board s) BLACK)).
    rewrite Z.mul_add_distr_l.
    set (nw := Z.of_nat (List.length (get_all_pieces (board s) WHITE))) in *.
    set (nb := Z.of_nat (List.length (get_all_pieces (board s) BLACK))) in *.
    replace ((nb - nw) * material_weight ev)
      with (- ((nw - nb) * material_weight ev)) by ring.
    unfold square in *. lia.
Qed.

Lemma evaluate_both_sides_witness :
  evaluate new_Evaluator initial_position WHITE
  + evaluate new_Evaluator initial_position BLACK
  = if fst (is_terminal initial_position) then 0
    else center_weight new_Evaluator
         * Z.of_nat (List.length
             (filter (fun p => in_center (fst p))
                (get_all_pieces (board initial_position) WHITE
                 ++ get_all_pieces (board initial_position) BLACK))).
Proof.
  apply (evaluate_both_sides new_Evaluator initial_position).
  apply wf_boardb_spec. vm_compute. reflexivity.
Defined.

(* ================================================================= *)
(** * Passed pawns *)

(** The [for check_col] loop on one row. *)
Lemma passed_row_check (b : board_t) (col k : Z) (opp : ascii) :
  existsb (fun check_col =>
             (0 <=? check_col) && (check_col <? 8)
             && Ascii.eqb (cell_at b check_col k) opp)
    [col - 1; col; col + 1] = false
  <-> forall c, col - 1 <= c <= col + 1 -> 0 <= c < 8 -> cell_at b c k <> opp.
Proof.
  split.
  - intros H c Hc Hb E.
    assert (Hin : In c [col - 1; col; col + 1]) by (simpl; lia).
    assert (Ht : existsb (fun check_col =>
                   (0 <=? check_col) && (check_col <? 8)
                   && Ascii.eqb (cell_at b check_col k) opp)
                  [col - 1; col; col + 1] = true).
    { apply existsb_exists. exists c. split; [exact Hin|].
      rewrite !andb_true_iff, Ascii.eqb_eq. split; [lia|exact E]. }
    congruence.
  - intros H. apply not_true_is_false. intros Ht.
    apply existsb_exists in Ht. destruct Ht as (c & Hin & Hc).
    rewrite !andb_true_iff, Ascii.eqb_eq in Hc. destruct Hc as [Hb E].
    apply (H c); [simpl in Hin; lia|lia|exact E].
Qed.

(** The [while] loop going up the board. *)
Lemma passed_loop_up (b : board_t) (col : Z) (opp : ascii) (fuel : nat) :
  forall k, 0 <= k <= 8 -> 8 - k < Z.of_nat fuel ->
  exists r, passed_loop fuel b col k 1 opp = Some r
    /\ (r = true <->
        forall c r', col - 1 <= c <= col + 1 -> 0 <= c < 8 -> k <= r' < 8 ->
          cell_at b c r' <> opp).
Proof.
  induction fuel as [|fuel IH]; intros k Hk Hf; [lia|].
  cbn [passed_loop].
  destruct ((0 <=? k) && (k <? 8)) eqn:Ein.
  - apply andb_true_iff in Ein. rewrite Z.leb_le, Z.ltb_lt in Ein.
    destruct (existsb _ _) eqn:Ex.
    + exists false. split; [reflexivity|]. split; [discriminate|].
      intros H. exfalso.
      assert (Hn : existsb (fun check_col =>
                     (0 <=? check_col) && (check_col <? 8)
                     && Ascii.eqb (cell_at b check_col k) opp)
                    [col - 1; col; col + 1] = false).
      { apply passed_row_check. intros c Hc Hb. apply H; [exact Hc|exact Hb|lia]. }
      congruence.
    + destruct (IH (k + 1)) as (r & E & Hr); [lia|lia|].
      exists r. split; [exact E|]. rewrite Hr.
      pose proof (proj1 (passed_row_check b col k opp) Ex) as Hrow.
      split.
      * intros H c r' Hc Hb Hr'.
        destruct (Z.eq_dec r' k) as [->|Hne]; [apply Hrow; assumption|].
        apply H; [exact Hc|exact Hb|lia].
      * intros H c r' Hc Hb Hr'. apply H; [exact Hc|exact Hb|lia].
  - apply andb_false_iff in Ein. rewrite Z.leb_gt, Z.ltb_ge in Ein.
    exists true. split; [reflexivity|]. split; [|reflexivity].
    intros _ c r' _ _ Hr'. lia.
Qed.

(** The [while] loop going down the board. *)
Lemma passed_loop_down (b : board_t) (col : Z) (opp : ascii) (fuel : nat) :
  forall k, -1 <= k < 8 -> k + 1 < Z.of_nat fuel ->
  exists r, passed_loop fuel b col k (-1) opp = Some r
    /\ (r = true <->
        forall c r', col - 1 <= c <= col + 1 -> 0 <= c < 8 -> 0 <= r' <= k ->
          cell_at b c r' <> opp).
Proof.
  induction fuel as [|fuel IH]; intros k Hk Hf; [lia|].
  cbn [passed_loop].
  destruct ((0 <=? k) && (k <? 8)) eqn:Ein.
  - apply andb_true_iff in Ein. rewrite Z.leb_le, Z.ltb_lt in Ein.
    destruct (existsb _ _) eqn:Ex.
    + exists false. split; [reflexivity|]. split; [discriminate|].
      intros H. exfalso.
      assert (Hn : existsb (fun check_col =>
                     (0 <=? check_col) && (check_col <? 8)
                     && Ascii.eqb (cell_at b check_col k) opp)
                    [col - 1; col; col + 1] = false).
      { apply passed_row_check. intros c Hc Hb. apply H; [exact Hc|exact Hb|lia]. }
      congruence.
    + destruct (IH (k + -1)) as (r & E & Hr); [lia|lia|].
      exists r. split; [exact E|]. rewrite Hr.
      pose proof (proj1 (passed_row_check b col k opp) Ex) as Hrow.
      split.
      * intros H c r' Hc Hb Hr'.
        destruct (Z.eq_dec r' k) as [->|Hne]; [apply Hrow; assumption|].
        apply H; [exact Hc|exact Hb|lia].
      * intros H c r' Hc Hb Hr'. apply H; [exact Hc|exact Hb|lia].
  - apply andb_false_iff in Ein. rewrite Z.leb_gt, Z.ltb_ge in Ein.
    exists true. split; [reflexivity|]. split; [|reflexivity].
    intros _ c r' _ _ Hr'. lia.
Qed.

(** X4.  On an 8x8 board a pawn of [color] on a row of the board is
    passed exactly when no pawn of the other side stands on a row ahead
    of it, in its own file or in a neighbouring file of the board. *)
Theorem is_passed_pawn_iff (b : board_t) (col row : Z) (color : ascii) :
  wf_board b -> 0 <= row < 8 ->
  (is_passed_pawn b col row color = true <->
   forall c r, col - 1 <= c <= col + 1 -> 0 <= c < 8 -> 0 <= r < 8 ->
     row_ahead color row r -> cell_at b c r <> other_player color).
Proof.
  intros _ Hrow. unfold is_passed_pawn, row_ahead. cbv zeta.
  destruct (Ascii.eqb color WHITE).
  - destruct (passed_loop_up b col (other_player color) 9 (row + 1))
      as (r & E & Hr); [lia|change (Z.of_nat 9) with 9; lia|].
    rewrite E, Hr. split.
    + intros H c r' Hc Hb Hr' Ha. apply H; [exact Hc|exact Hb|lia].
    + intros H c r' Hc Hb Hr'. apply H; [exact Hc|exact Hb|lia|lia].
  - destruct (passed_loop_down b col (other_player color) 9 (row + -1))
      as (r & E & Hr); [lia|change (Z.of_nat 9) with 9; lia|].
    rewrite E, Hr. split.
    + intros H c r' Hc Hb Hr' Ha. apply H; [exact Hc|exact Hb|lia].
    + intros H c r' Hc Hb Hr'. apply H; [exact Hc|exact Hb|lia|lia].
Qed.

Lemma is_passed_pawn_iff_witness :
  is_passed_pawn (board initial_position) 4 1 WHITE = true <->
  forall c r, 4 - 1 <= c <= 4 + 1 -> 0 <= c < 8 -> 0 <= r < 8 ->
    row_ahead WHITE 1 r ->
    cell_at (board initial_position) c r <> other_player WHITE.
Proof.
  apply (is_passed_pawn_iff (board initial_position) 4 1 WHITE).
  - apply wf_boardb_spec. vm_compute. reflexivity.
  - lia.
Defined.

(* ================================================================= *)
(** * Move ordering *)

Lemma insert_desc_sorted (x : Z * move) (l : list (Z * move)) :
  StronglySorted (fun a b => fst b <= fst a) l ->
  StronglySorted (fun a b => fst b <= fst a) (insert_desc x l).
Proof.
  induction 1 as [|y t Ht IH Hy]; simpl.
  - constructor; constructor.
  - destruct (fst x <? fst y) eqn:E.
    + apply Z.ltb_lt in E. constructor; [exact IH|].
      apply Forall_forall. intros z Hz.
      apply (Permutation_in _ (insert_desc_perm x t)) in Hz.
      destruct Hz as [<-|Hz]; [lia|].
      rewrite Forall_forall in Hy. apply Hy. exact Hz.
    + apply Z.ltb_ge in E. constructor; [constructor; assumption|].
      constructor; [exact E|].
      apply Forall_forall. intros z Hz. rewrite Forall_forall in Hy.
      specialize (Hy z Hz). simpl in Hy. lia.
Qed.

Lemma sort_desc_sorted (l : list (Z * move)) :
  StronglySorted (fun a b => fst b <= fst a) (sort_desc l).
Proof.
  induction l as [|x l IH]; simpl; [constructor|].
  apply insert_desc_sorted. exact IH.
Qed.

Lemma insert_desc_filter (k : Z) (x : Z * move) (l : list (Z * move)) :
  filter (fun y => fst y =? k) (insert_desc x l)
  = filter (fun y => fst y =? k) (x :: l).
Proof.
  induction l as [|y t IH]; [reflexivity|].
  cbn [insert_desc]. destruct (fst x <? fst y) eqn:E; [|reflexivity].
  apply Z.ltb_lt in E. cbn [filter] in *. rewrite IH.
  destruct (fst x =? k) eqn:Ex; [|reflexivity].
  apply Z.eqb_eq in Ex. destruct (fst y =? k) eqn:Ey; [|reflexivity].
  apply Z.eqb_eq in Ey. lia.
Qed.

Lemma sort_desc_filter (k : Z) (l : list (Z * move)) :
  filter (fun y => fst y =? k) (sort_desc l) = filter (fun y => fst y =? k) l.
Proof.
  induction l as [|x l IH]; [reflexivity|].
  cbn [sort_desc fold_right]. fold (sort_desc l).
  rewrite insert_desc_filter. cbn [filter]. rewrite IH. reflexivity.
Qed.

(** The keys [order_moves] sorts by are the values of [move_key]. *)
Lemma score_moves_keys (s : GameState) (ms : list move) (l : list (Z * move)) :
  score_moves s ms = Ok l ->
  Forall (fun p => fst p = move_key s (snd p)) l.
Proof.
  revert l. induction ms as [|m ms IH]; intros l; simpl.
  - intros [= <-]. constructor.
  - destruct (move_score s m) as [sc|e] eqn:Em; [|discriminate]. simpl.
    destruct (score_moves s ms) as [tl'|e]; [|discriminate]. simpl.
    intros [= <-]. constructor; [|apply IH; reflexivity].
    simpl. unfold move_key. rewrite Em. reflexivity.
Qed.

Lemma keyed_filter (s : GameState) (k : Z) (l : list (Z * move)) :
  Forall (fun p => fst p = move_key s (snd p)) l ->
  map snd (filter (fun y => fst y =? k) l)
  = filter (fun m => move_key s m =? k) (map snd l).
Proof.
  induction 1 as [|p l Hp _ IH]; [reflexivity|].
  cbn [filter map]. rewrite <- Hp.
  destruct (fst p =? k); cbn [map]; rewrite IH; reflexivity.
Qed.

Lemma keyed_sorted (s : GameState) (l : list (Z * move)) :
  Forall (fun p => fst p = move_key s (snd p)) l ->
  StronglySorted (fun a b => fst b <= fst a) l ->
  StronglySorted (fun a b => move_key s b <= move_key s a) (map snd l).
Proof.
  intros Hk Hs. induction Hs as [|p l Hl IH Hp]; [constructor|].
  inversion Hk as [|? ? Hkp Hkl]; subst. cbn [map].
  constructor; [apply IH; exact Hkl|].
  apply Forall_forall. intros m Hm. apply in_map_iff in Hm.
  destruct Hm as (q & <- & Hq). rewrite Forall_forall in Hp, Hkl.
  rewrite <- Hkp, <- (Hkl q Hq). apply Hp. exact Hq.
Qed.

Lemma order_moves_sorted (s : GameState) (ms : list move) :
  wf_board (board s) -> Forall move_in_bounds ms ->
  exists ms',
    order_moves s ms = Ok ms'
    /\ Permutation ms' ms
    /\ StronglySorted (fun a b => move_key s b <= move_key s a) ms'
    /\ forall k, filter (fun m => move_key s m =? k) ms'
                 = filter (fun m => move_key s m =? k) ms.
Proof.
  intros Hwf Hms.
  destruct (score_moves_ok s ms Hwf Hms) as (l & El & Hl).
  pose proof (score_moves_keys s ms l El) as Hk.
  assert (Hk' : Forall (fun p => fst p = move_key s (snd p)) (sort_desc l)).
  { apply Forall_forall. intros p Hp. rewrite Forall_forall in Hk. apply Hk.
    eapply Permutation_in; [apply sort_desc_perm|exact Hp]. }
  exists (map snd (sort_desc l)). unfold order_moves. rewrite El. simpl.
  split; [reflexivity|]. split; [|split].
  - rewrite <- Hl. apply Permutation_map. apply sort_desc_perm.
  - apply keyed_sorted; [exact Hk'|apply sort_desc_sorted].
  - intros k. rewrite <- (keyed_filter s k _ Hk'), sort_desc_filter.
    rewrite (keyed_filter s k _ Hk), Hl. reflexivity.
Qed.

(** The key of a move within the board: 100 for landing on an opponent
    pawn, 100 for landing on the en-passant target, 5 for each row of
    the destination counted from the mover's side, 3 for a destination on
    files c to f. *)
Lemma move_key_value (s : GameState) (fc fr tc tr : Z) :
  wf_board (board s) -> move_in_bounds (fc, fr, tc, tr) ->
  move_key s (fc, fr, tc, tr)
  = (if Ascii.eqb (cell_at (board s) tc tr) (other_player (current_player s))
     then 100 else 0)
    + (if is_ep_target (en_passant_target s) tc tr then 100 else 0)
    + 5 * advancement_of (current_player s) tr
    + (if in_center tc then 3 else 0).
Proof.
  intros Hwf (_ & _ & Htc & Htr). unfold move_key, move_score.
  rewrite (board_get_cell_at _ _ _ Hwf Htr Htc). cbn [rbind].
  unfold advancement_of, in_center.
  destruct (Ascii.eqb (cell_at _ _ _) _), (is_ep_target _ _ _),
    (Ascii.eqb (current_player s) WHITE), ((2 <=? tc) && (tc <=? 5)); lia.
Qed.

Lemma move_key_takes (s : GameState) (m : move) :
  wf_board (board s) -> move_in_bounds m ->
  (100 <= move_key s m <-> takes s m = true).
Proof.
  destruct m as [[[fc fr] tc] tr]. intros Hwf Hm.
  rewrite (move_key_value s fc fr tc tr Hwf Hm). unfold takes.
  destruct Hm as (_ & _ & _ & Htr).
  pose proof (advancement_range (current_player s) tr Htr) as Ha.
  destruct (Ascii.eqb (cell_at _ _ _) _), (is_ep_target _ _ _),
    (in_center tc); cbn [orb]; split; intros H; try reflexivity; try lia;
    discriminate.
Qed.

(** X5.  On an 8x8 board, for moves within the board, [order_moves]
    returns the same moves in descending order of their key, and moves
    with equal keys keep the order they came in (the sort is stable). *)
Theorem order_moves_sorted_stable (s : GameState) (ms : list move) :
  wf_board (board s) -> Forall move_in_bounds ms ->
  exists ms',
    order_moves s ms = Ok ms'
    /\ Permutation ms' ms
    /\ StronglySorted (fun a b => move_key s b <= move_key s a) ms'
    /\ forall k, filter (fun m => move_key s m =? k) ms'
                 = filter (fun m => move_key s m =? k) ms.
Proof. apply order_moves_sorted. Qed.

Lemma order_moves_sorted_stable_witness :
  exists ms',
    order_moves initial_position (generate_moves initial_position) = Ok ms'
    /\ Permutation ms' (generate_moves initial_position)
    /\ StronglySorted (fun a b => move_key initial_position b
                                  <= move_key initial_position a) ms'
    /\ forall k, filter (fun m => move_key initial_position m =? k) ms'
                 = filter (fun m => move_key initial_position m =? k)
                     (generate_moves initial_position).
Proof.
  apply (order_moves_sorted_stable initial_position
           (generate_moves initial_position)).
  - apply wf_boardb_spec. vm_compute. reflexivity.
  - apply generate_moves_in_bounds.
Defined.

(** X6.  In the list [order_moves] returns for the generated moves of
    an 8x8 position, every move that lands on an opponent pawn or on
    the en-passant target comes before every move that does not. *)
Theorem order_moves_captures_first (s : GameState) (ms' l1 l2 l3 : list move)
    (a b : move) :
  wf_board (board s) ->
  order_moves s (generate_moves s) = Ok ms' ->
  ms' = l1 ++ a :: l2 ++ b :: l3 ->
  takes s b = true -> takes s a = true.
Proof.
  intros Hwf Eo Hsplit Hb.
  pose proof (generate_moves_in_bounds s) as Hgen.
  destruct (order_moves_sorted s _ Hwf Hgen) as (ms & E & Hperm & Hsort & _).
  rewrite Eo in E. injection E as <-.
  assert (Hin : forall m, In m ms' -> move_in_bounds m).
  { intros m Hm. rewrite Forall_forall in Hgen. apply Hgen.
    eapply Permutation_in; eauto. }
  subst ms'.
  assert (Ha : move_in_bounds a)
    by (apply Hin; rewrite in_app_iff; right; left; reflexivity).
  assert (Hb' : move_in_bounds b).
  { apply Hin. rewrite in_app_iff. right. right. rewrite in_app_iff.
    right. left. reflexivity. }
  apply (move_key_takes s a Hwf Ha). apply (move_key_takes s b Hwf Hb') in Hb.
  enough (move_key s b <= move_key s a) by lia.
  clear - Hsort. induction l1 as [|x l1 IH]; simpl in Hsort.
  - inversion Hsort as [|? ? _ Hall]; subst. rewrite Forall_forall in Hall.
    apply Hall. rewrite in_app_iff. right. left. reflexivity.
  - inversion Hsort; subst. apply IH. assumption.
Qed.

Lemma order_moves_captures_first_witness :
  takes (position_of "Wd4 Bc5 Be5 Bh7") (3, 3, 2, 4) = true.
Proof.
  apply (order_moves_captures_first (position_of "Wd4 Bc5 Be5 Bh7")
           [(3, 3, 2, 4); (3, 3, 4, 4); (3, 3, 3, 4)] [] [] [(3, 3, 3, 4)]
           (3, 3, 2, 4) (3, 3, 4, 4)).
  - apply wf_boardb_spec. vm_compute. reflexivity.
  - vm_compute. reflexivity.
  - reflexivity.
  - vm_compute. reflexivity.
Defined.

(* ================================================================= *)
(** * From text to moves and back *)

Lemma ascii_of_ord (a : ascii) : ascii_of_N (Z.to_N (ord a)) = a.
Proof. unfold ord. rewrite N2Z.id. apply ascii_N_embedding. Qed.

Lemma int_of_char_inv (c : ascii) (d : Z) :
  int_of_char c = Ok d -> d = ord c - 48 /\ 48 <= ord c <= 57.
Proof.
  unfold int_of_char. cbv zeta.
  destruct ((48 <=? ord c) && (ord c <=? 57)) eqn:E; [|discriminate].
  apply andb_true_iff in E. rewrite !Z.leb_le in E.
  intros [= <-]. split; [reflexivity|exact E].
Qed.

(** The text of a move within the board, read back. *)
Lemma move_to_string_parsed (m : move) :
  move_in_bounds m ->
  exists c1 d1 c2 d2,
    move_to_string m
    = Ok (String c1 (String d1 (String c2 (String d2 EmptyString))))
    /\ string_to_move (String c1 (String d1 (String c2 (String d2 EmptyString))))
       = Ok (Some m)
    /\ is_file_letter c1 = true /\ is_rank_digit d1 = true
    /\ is_file_letter c2 = true /\ is_rank_digit d2 = true.
Proof.
  destruct m as [[[fc fr] tc] tr]. intros (Hfc & Hfr & Htc & Htr).
  destruct (chr_file fc Hfc) as (c1 & E1 & O1 & F1 & _).
  destruct (chr_file tc Htc) as (c2 & E2 & O2 & F2 & _).
  destruct (str_rank fr Hfr) as (d1 & S1 & I1 & R1 & _).
  destruct (str_rank tr Htr) as (d2 & S2 & I2 & R2 & _).
  exists c1, d1, c2, d2. unfold move_to_string. rewrite E1, E2, S1, S2. simpl.
  split; [reflexivity|]. split; [|auto].
  unfold string_to_move. simpl. rewrite I1, I2. simpl.
  rewrite O1, O2. replace (fr + 1 - 1) with fr by lia.
  replace (tr + 1 - 1) with tr by lia. reflexivity.
Qed.

(* ================================================================= *)
(** * Setting up a position from text *)

Lemma wf_empty_board : wf_board empty_board.
Proof. apply wf_boardb_spec. reflexivity. Qed.

Lemma cell_at_empty_board (c r : Z) :
  0 <= c < 8 -> 0 <= r < 8 -> cell_at empty_board c r = EMPTY.
Proof.
  intros Hc Hr. coord_cases c; coord_cases r; reflexivity.
Qed.

Lemma int_of_char_digit (c : ascii) :
  int_of_char c = if is_digit c then Ok (ord c - 48) else Raise ValueError.
Proof. reflexivity. Qed.

(** One token. *)
Lemma place_piece_spec (b : board_t) (t : string) :
  wf_board b ->
  if token_passes t then
    exists b', place_piece b t = Ok b' /\ wf_board b'
      /\ forall c r, 0 <= c < 8 -> 0 <= r < 8 ->
           cell_at b' c r = match token_paints t c r with
                            | Some color => color
                            | None => cell_at b c r
                            end
  else place_piece b t = Raise ValueError.
Proof.
  intros Hwf. unfold place_piece, token_passes, token_paints.
  destruct t as [|color [|f [|d rest]]];
    try (exists b; split; [reflexivity|]; split; [exact Hwf|reflexivity]).
  cbn [String.length Nat.leb str_index String.get of_option rbind].
  rewrite int_of_char_digit. destruct (is_digit d); [|reflexivity].
  cbn [rbind]. change (ord "a") with 97. change (ord "0") with 48.
  destruct ((0 <=? ord f - 97) && (ord f - 97 <? 8)
            && (0 <=? ord d - 48 - 1) && (ord d - 48 - 1 <? 8)) eqn:E.
  - rewrite !andb_true_iff, !Z.leb_le, !Z.ltb_lt in E.
    destruct (board_set_ok b (ord d - 48 - 1) (ord f - 97) color Hwf)
      as (b' & E' & W' & C'); [lia|lia|].
    exists b'. split; [exact E'|]. split; [exact W'|].
    intros c r Hc Hr. rewrite (C' c r Hc Hr).
    rewrite (Z.eqb_sym c), (Z.eqb_sym r).
    destruct (_ && _); reflexivity.
  - exists b. split; [reflexivity|]. split; [exact Hwf|].
    intros c r Hc Hr.
    destruct ((ord f - 97 =? c) && (ord d - 48 - 1 =? r)) eqn:E2;
      [|reflexivity].
    rewrite andb_true_iff, !Z.eqb_eq in E2. destruct E2 as [<- <-].
    exfalso. rewrite <- not_true_iff_false in E. apply E.
    rewrite !andb_true_iff, !Z.leb_le, !Z.ltb_lt. lia.
Qed.

(** The loop over the tokens. *)
Lemma place_pieces_spec (toks : list string) :
  forall b, wf_board b ->
  if forallb token_passes toks then
    exists b', place_pieces b toks = Ok b' /\ wf_board b'
      /\ forall c r, 0 <= c < 8 -> 0 <= r < 8 ->
           cell_at b' c r
           = fold_left (fun acc t => match token_paints t c r with
                                     | Some color => color
                                     | None => acc
                                     end) toks (cell_at b c r)
  else place_pieces b toks = Raise ValueError.
Proof.
  induction toks as [|t toks IH]; intros b Hwf.
  - exists b. split; [reflexivity|]. split; [exact Hwf|reflexivity].
  - cbn [forallb place_pieces fold_left].
    pose proof (place_piece_spec b t Hwf) as Ht.
    destruct (token_passes t); cbn [andb].
    + destruct Ht as (b1 & E1 & W1 & C1). rewrite E1. cbn [rbind].
      specialize (IH b1 W1). destruct (forallb token_passes toks).
      * destruct IH as (b' & E' & W' & C'). exists b'.
        split; [exact E'|]. split; [exact W'|].
        intros c r Hc Hr. rewrite (C' c r Hc Hr), (C1 c r Hc Hr). reflexivity.
      * exact IH.
    + rewrite Ht. reflexivity.
Qed.

(** [setup_from_string] on strings of characters below 256. *)
Lemma setup_from_string_spec (s : GameState) (setup_str : string) :
  match setup_from_string s setup_str with
  | Ok s' =>
      str_split setup_str <> []
      /\ forallb token_passes (setup_tokens setup_str) = true
      /\ wf_board (board s')
      /\ (forall c r, 0 <= c < 8 -> 0 <= r < 8 ->
            cell_at (board s') c r = painted (setup_tokens setup_str) c r)
      /\ current_player s' = current_player s
      /\ en_passant_target s' = en_passant_target s
      /\ move_history s' = move_history s
  | Raise e =>
      (e = IndexError /\ str_split setup_str = [])
      \/ (e = ValueError /\ str_split setup_str <> []
          /\ forallb token_passes (setup_tokens setup_str) = false)
  end.
Proof.
  unfold setup_from_string, setup_tokens. cbv zeta.
  destruct (str_split setup_str) as [|p0 rest]; [left; auto|].
  change (py_index (p0 :: rest) 0) with (Ok p0). cbn [rbind].
  change (if String.eqb p0 "Setup" then tl (p0 :: rest) else p0 :: rest)
    with (if String.eqb p0 "Setup" then rest else p0 :: rest).
  set (toks := if String.eqb p0 "Setup" then rest else p0 :: rest).
  pose proof (place_pieces_spec toks empty_board wf_empty_board) as H.
  destruct (forallb token_passes toks).
  - destruct H as (b' & E & W & C). rewrite E. cbn [rbind].
    split; [discriminate|]. split; [reflexivity|]. split; [exact W|].
    split; [|auto]. intros c r Hc Hr. cbn [board with_board].
    rewrite (C c r Hc Hr), (cell_at_empty_board c r Hc Hr). reflexivity.
  - rewrite H. right. split; [reflexivity|]. split; [discriminate|reflexivity].
Qed.

(* ================================================================= *)
(** * Making a generated move *)

(** What a generated move does to the cells. *)
Lemma make_move_generated (s : GameState) (fc fr tc tr : Z) :
  wf_board (board s) -> In (fc, fr, tc, tr) (generate_moves s) ->
  exists s',
    make_move s (fc, fr, tc, tr) = Ok s'
    /\ wf_board (board s')
    /\ cell_at (board s) fc fr = current_player s
    /\ (fc, fr) <> (tc, tr)
    /\ cell_at (board s') tc tr = current_player s
    /\ cell_at (board s') fc fr = EMPTY
    /\ (forall c r, 0 <= c < 8 -> 0 <= r < 8 ->
          cell_at (board s') c r = current_player s /\ (c, r) = (tc, tr)
          \/ cell_at (board s') c r = EMPTY
          \/ cell_at (board s') c r = cell_at (board s) c r /\ (c, r) <> (tc, tr))
    /\ current_player s' = other_player (current_player s)
    /\ move_history s' = move_history s ++ [(fc, fr, tc, tr)].
Proof.
  intros Hwf Hin.
  pose proof (generate_moves_in_bounds s) as Hb. rewrite Forall_forall in Hb.
  pose proof (Hb _ Hin) as Hm.
  destruct (make_move_ok s fc fr tc tr Hwf Hm) as (s' & E & W & C & P & _ & Hh).
  apply generate_moves_legal in Hin. destruct Hin as (Hf & Hcell & Ht & Hcases).
  assert (Hne : (fc, fr) <> (tc, tr)).
  { intros [= -> ->].
    destruct (Ascii.eqb (current_player s) WHITE); lia. }
  exists s'. split; [exact E|]. split; [exact W|]. split; [exact Hcell|].
  split; [exact Hne|].
  destruct Hm as (Hfc & Hfr & Htc & Htr). split; [|split; [|split]].
  - rewrite (C tc tr Htc Htr), !Z.eqb_refl. exact Hcell.
  - rewrite (C fc fr Hfc Hfr), !Z.eqb_refl.
    destruct ((fc =? tc) && (fr =? tr)) eqn:E2; [|reflexivity].
    rewrite andb_true_iff, !Z.eqb_eq in E2. destruct E2 as [-> ->].
    congruence.
  - intros c r Hc Hr. rewrite (C c r Hc Hr).
    destruct ((c =? tc) && (r =? tr)) eqn:E1.
    + rewrite andb_true_iff, !Z.eqb_eq in E1. destruct E1 as [-> ->]. auto.
    + assert ((c, r) <> (tc, tr)).
      { intros [= -> ->]. rewrite !Z.eqb_refl in E1. discriminate. }
      destruct ((c =? fc) && (r =? fr)); [auto|].
      destruct (is_ep_target _ _ _ && _); auto.
  - auto.
Qed.

Lemma pawn_count_le (b b' : board_t) (c : ascii) :
  (forall p, In p all_squares ->
     cell_at b' (fst p) (snd p) = c -> cell_at b (fst p) (snd p) = c) ->
  (pawn_count b' c <= pawn_count b c)%nat.
Proof.
  intros H. unfold pawn_count. apply NoDup_incl_length.
  - apply NoDup_get_all_pieces.
  - intros p Hp. apply in_get_all_pieces in Hp. destruct Hp as [Hr Hc].
    apply in_get_all_pieces. split; [exact Hr|].
    apply H; [apply in_all_squares; exact Hr|exact Hc].
Qed.

Lemma make_move_counts (s s' : GameState) (m : move) (c : ascii) :
  wf_board (board s) -> In m (generate_moves s) -> make_move s m = Ok s' ->
  c <> EMPTY ->
  (pawn_count (board s') c <= pawn_count (board s) c)%nat.
Proof.
  destruct m as [[[fc fr] tc] tr]. intros Hwf Hin E Hc.
  destruct (make_move_generated s fc fr tc tr Hwf Hin)
    as (s2 & E2 & W & Hsrc & Hne & Hdst & Hemp & Hcells & _).
  rewrite E in E2. injection E2 as <-.
  pose proof (generate_moves_in_bounds s) as Hb. rewrite Forall_forall in Hb.
  destruct (Hb _ Hin) as (Hfc & Hfr & Htc & Htr).
  destruct (ascii_dec c (current_player s)) as [->|Hcp].
  - (* the mover's pawns: the source makes room for the destination *)
    unfold pawn_count.
    enough (List.length ((fc, fr) :: get_all_pieces (board s') (current_player s))
            <= List.length ((tc, tr) :: get_all_pieces (board s) (current_player s)))%nat
      by (cbn [List.length] in *; unfold square in *; lia).
    apply NoDup_incl_length.
    + constructor; [|apply NoDup_get_all_pieces].
      intros Hp. apply in_get_all_pieces in Hp. simpl in Hp.
      destruct Hp as [_ Hp]. congruence.
    + intros p [<-|Hp].
      * right. apply in_get_all_pieces. simpl. auto.
      * apply in_get_all_pieces in Hp. destruct Hp as [[Hpc Hpr] Hp].
        destruct (Hcells _ _ Hpc Hpr) as [[_ Heq]|[He|[Hold _]]].
        -- left. destruct p. simpl in Heq. congruence.
        -- congruence.
        -- right. apply in_get_all_pieces. split; [auto|congruence].
  - apply pawn_count_le. intros p Hp Hcell.
    apply in_all_squares in Hp. destruct Hp as [Hpc Hpr].
    destruct (Hcells _ _ Hpc Hpr) as [[Heq _]|[He|[Hold _]]]; congruence.
Qed.

(** X9.  Making a generated move on an 8x8 board succeeds, and neither
    side has more pawns afterwards than before: the number of cells
    holding any given pawn colour does not grow. *)
Theorem make_move_no_new_pawns (s : GameState) (m : move) (c : ascii) :
  wf_board (board s) -> In m (generate_moves s) -> c <> EMPTY ->
  exists s', make_move s m = Ok s'
    /\ (pawn_count (board s') c <= pawn_count (board s) c)%nat.
Proof.
  intros Hwf Hin Hc. destruct m as [[[fc fr] tc] tr].
  destruct (make_move_generated s fc fr tc tr Hwf Hin) as (s' & E & _).
  exists s'. split; [exact E|].
  apply (make_move_counts s s' _ c Hwf Hin E Hc).
Qed.

Lemma make_move_no_new_pawns_witness :
  exists s', make_move initial_position (4, 1, 4, 3) = Ok s'
    /\ (pawn_count (board s') WHITE <= pawn_count (board initial_position) WHITE)%nat.
Proof.
  apply (make_move_no_new_pawns initial_position (4, 1, 4, 3) WHITE).
  - apply wf_boardb_spec. vm_compute. reflexivity.
  - apply move_in_In. vm_compute. reflexivity.
  - discriminate.
Defined.

(* ================================================================= *)
(** * Games played from the initial position *)

Lemma is_terminal_fst_false (s : GameState) :
  fst (is_terminal s) = false -> is_terminal s = (false, None).
Proof.
  destruct (is_terminal_cases s) as [(w & E & _)|E]; rewrite E; simpl;
    [discriminate|reflexivity].
Qed.

Lemma play_invariant_initial : play_invariant initial_position.
Proof.
  unfold play_invariant. split; [apply wf_boardb_spec; reflexivity|].
  split; [|split; [left; reflexivity|]].
  { intros c r Hc Hr. coord_cases c; coord_cases r; vm_compute; auto. }
  split; [apply Nat.leb_le; vm_compute; reflexivity|].
  split; [apply Nat.leb_le; vm_compute; reflexivity|].
  split; [exact I|]. split; [reflexivity|].
  split; [apply Nat.leb_le; vm_compute; reflexivity|].
  intros c Hc. coord_cases c; vm_compute; discriminate.
Qed.

Lemma other_player_flip (p : ascii) :
  p = WHITE \/ p = BLACK ->
  other_player (other_player p) = p
  /\ Ascii.eqb (other_player p) WHITE = negb (Ascii.eqb p WHITE)
  /\ other_player p <> p.
Proof. intros [-> | ->]; repeat split; discriminate. Qed.

Lemma play_invariant_step (s s' : GameState) (m : move) :
  play_invariant s -> is_terminal s = (false, None) ->
  In m (generate_moves s) -> make_move s m = Ok s' ->
  play_invariant s'.
Proof.
  intros (Hwf & Hpo & Hpl & Hw & Hb & Hep & Hpar & _ & _) Ht Hin E.
  destruct m as [[[fc fr] tc] tr].
  destruct (make_move_generated s fc fr tc tr Hwf Hin)
    as (s2 & E2 & W & Hsrc & Hne & Hdst & Hemp & Hcells & Hp & Hh).
  rewrite E in E2. injection E2 as <-.
  pose proof (generate_moves_in_bounds s) as Hbd. rewrite Forall_forall in Hbd.
  pose proof (Hbd _ Hin) as Hm.
  destruct (make_move_ok s fc fr tc tr Hwf Hm) as (s3 & E3 & _ & C & _ & Hep' & _).
  rewrite E in E3. injection E3 as <-.
  destruct Hm as (Hfc & Hfr & Htc & Htr).
  destruct (other_player_flip _ Hpl) as (Hoo & Heqb & Hodiff).
  unfold play_invariant. split; [exact W|]. split; [|split; [|split; [|split]]].
  - intros c r Hc Hr. destruct (Hcells c r Hc Hr) as [[-> _]|[->|[-> _]]].
    + destruct Hpl as [-> | ->]; auto.
    + auto.
    + apply Hpo; assumption.
  - rewrite Hp. apply other_player_side.
  - etransitivity; [|exact Hw].
    apply (make_move_counts s s' _ WHITE Hwf Hin E). discriminate.
  - etransitivity; [|exact Hb].
    apply (make_move_counts s s' _ BLACK Hwf Hin E). discriminate.
  - split; [|split; [|split]].
    + (* the en-passant target *)
      unfold ep_target_empty. rewrite Hep'. unfold rows_two_apart.
      destruct (Z.abs (tr - fr) =? 2) eqn:Ed; [|exact I].
      apply Z.eqb_eq in Ed.
      apply generate_moves_legal in Hin.
      destruct Hin as (_ & _ & _ & Hcases).
      set (d := if Ascii.eqb (current_player s) WHITE then 1 else -1) in *.
      assert (Hd : d = 1 \/ d = -1)
        by (unfold d; destruct (Ascii.eqb _ _); auto).
      destruct Hcases as [(_ & Hr & _)|[(-> & _ & Hr & Hmid & _)|(_ & Hr & _)]];
        try lia.
      replace ((fr + tr) / 2) with (fr + d)
        by (subst tr; replace (fr + (fr + 2 * d)) with ((fr + d) * 2) by lia;
            symmetry; apply Z.div_mul; lia).
      assert (Hmr : 0 <= fr + d < 8) by lia.
      split; [split; assumption|].
      rewrite (C fc (fr + d) Hfc Hmr).
      replace (fr + d =? tr) with false by (symmetry; apply Z.eqb_neq; lia).
      replace (fr + d =? fr) with false by (symmetry; apply Z.eqb_neq; lia).
      rewrite !andb_false_r. exact Hmid.
    + rewrite Hh, Hp, length_app, Heqb. cbn [List.length].
      rewrite Nat.add_1_r, Nat.even_succ, <- Nat.negb_even, Hpar. reflexivity.
    + rewrite Hp, Hoo. unfold pawn_count.
      assert (Hd : In (tc, tr) (get_all_pieces (board s') (current_player s)))
        by (apply in_get_all_pieces; simpl; auto).
      destruct (get_all_pieces (board s') (current_player s));
        [contradiction|simpl; lia].
    + (* the side to move has not arrived *)
      destruct (is_terminal_false _ Ht) as (Hre & _).
      rewrite reached_end_none in Hre.
      intros c Hc. rewrite Hp.
      assert (Hcr : In c (range BOARD_SIZE)) by (apply in_range_iff; exact Hc).
      destruct (Hre c Hcr) as [H7 H0].
      destruct Hpl as [Epl|Epl]; rewrite Epl in *.
      * change (Ascii.eqb (other_player WHITE) WHITE) with false.
        change (other_player WHITE) with BLACK. cbv iota.
        destruct (Hcells c 0 Hc) as [[-> _]|[->|[-> _]]];
          [lia|discriminate|discriminate|exact H0].
      * change (Ascii.eqb (other_player BLACK) WHITE) with true.
        change (other_player BLACK) with WHITE. cbv iota.
        destruct (Hcells c 7 Hc) as [[-> _]|[->|[-> _]]];
          [lia|discriminate|discriminate|exact H7].
Qed.

Lemma play_invariant_play (ms : list move) :
  forall s0 s, play_invariant s0 -> play s0 ms = Some s -> play_invariant s.
Proof.
  induction ms as [|m ms IH]; intros s0 s H0; simpl.
  - intros [= <-]. exact H0.
  - destruct (fst (is_terminal s0)) eqn:Et; [discriminate|].
    destruct (move_in m (generate_moves s0)) eqn:Em; [|discriminate].
    destruct (make_move s0 m) as [s1|e] eqn:E; [|discriminate].
    apply IH. apply (play_invariant_step s0 s1 m H0).
    + apply is_terminal_fst_false. exact Et.
    + apply move_in_In. exact Em.
    + exact E.
Qed.

(** X10.  Every position of a game played from the initial position by
    generated moves has an 8x8 board holding nothing but pawns, white or
    black to move, at most eight pawns a side, an empty cell as
    en-passant target, white to move exactly after an even number of
    moves, a pawn of the side that moved last, and no pawn of the side
    to move on the row it is heading for. *)
Theorem play_keeps_invariant (ms : list move) (s : GameState) :
  play initial_position ms = Some s -> play_invariant s.
Proof.
  apply play_invariant_play. apply play_invariant_initial.
Qed.

Lemma play_keeps_invariant_witness : play_invariant after_e2e4.
Proof.
  apply (play_keeps_invariant [(4, 1, 4, 3)] after_e2e4).
  vm_compute. reflexivity.
Defined.

Lemma evaluate_eight_pawns (s : GameState) (c : ascii) :
  c = WHITE \/ c = BLACK ->
  is_terminal s = (false, None) ->
  (pawn_count (board s) WHITE <= 8)%nat ->
  (pawn_count (board s) BLACK <= 8)%nat ->
  Z.abs (evaluate new_Evaluator s c) <= 1920.
Proof.
  intros Hc Ht Hw Hb. unfold pawn_count in *.
  rewrite (evaluate_nonterminal _ _ _ Ht).
  change (material_weight new_Evaluator) with 100.
  assert (Hl : (List.length (get_all_pieces (board s) c) <= 8)%nat
               /\ (List.length (get_all_pieces (board s) (other_player c)) <= 8)%nat)
    by (destruct Hc as [-> | ->]; split; assumption).
  destruct Hl as [Hl1 Hl2].
  pose proof (side_eight_cap (board s) c (my_pawn_term new_Evaluator (board s) c)
                (my_pawn_term_range (board s) c) Hl1) as Hmy8.
  pose proof (side_eight_cap (board s) (other_player c)
                (opp_pawn_term new_Evaluator (board s) (other_player c))
                (opp_pawn_term_range (board s) (other_player c)) Hl2) as Hopp8.
  cbv zeta in Hmy8, Hopp8. lia.
Qed.

(** X11.  In a game played from the initial position, the heuristic
    score of every position that is not over lies within 1920 of zero,
    for either perspective. *)
Theorem play_evaluate_bounded (ms : list move) (s : GameState) (c : ascii) :
  play initial_position ms = Some s ->
  fst (is_terminal s) = false ->
  c = WHITE \/ c = BLACK ->
  Z.abs (evaluate new_Evaluator s c) <= 1920.
Proof.
  intros Hplay Ht Hc.
  destruct (play_invariant_play ms _ s play_invariant_initial Hplay)
    as (_ & _ & _ & Hw & Hb & _).
  apply evaluate_eight_pawns; [exact Hc| |exact Hw|exact Hb].
  apply is_terminal_fst_false. exact Ht.
Qed.

Lemma play_evaluate_bounded_witness :
  Z.abs (evaluate new_Evaluator after_e2e4 BLACK) <= 1920.
Proof.
  apply (play_evaluate_bounded [(4, 1, 4, 3)] after_e2e4 BLACK).
  - vm_compute. reflexivity.
  - vm_compute. reflexivity.
  - right. reflexivity.
Defined.

Lemma reached_end_spec_agree (b : board_t) (cols : list Z) :
  (forall c, In c cols -> cell_at b c 7 <> WHITE)
  \/ (forall c, In c cols -> cell_at b c 0 <> BLACK) ->
  reached_end b cols
  = if existsb (fun col => Ascii.eqb (cell_at b col 7) WHITE) cols
    then Some WHITE
    else if existsb (fun col => Ascii.eqb (cell_at b col 0) BLACK) cols
    then Some BLACK
    else None.
Proof.
  induction cols as [|c cols IH]; intros H; [reflexivity|].
  cbn [reached_end existsb].
  assert (H' : (forall c, In c cols -> cell_at b c 7 <> WHITE)
               \/ (forall c, In c cols -> cell_at b c 0 <> BLACK))
    by (destruct H as [H|H]; [left|right]; intros c' Hc'; apply H; right;
        exact Hc').
  rewrite (IH H').
  destruct (Ascii.eqb (cell_at b c 7) WHITE) eqn:E7; [reflexivity|].
  destruct (Ascii.eqb (cell_at b c 0) BLACK) eqn:E0; cbn [orb]; [|reflexivity].
  apply Ascii.eqb_eq in E0.
  destruct H as [H|H]; [|exfalso; apply (H c); [left; reflexivity|exact E0]].
  replace (existsb (fun col => Ascii.eqb (cell_at b col 7) WHITE) cols)
    with false; [reflexivity|].
  symmetry. apply not_true_is_false. intros Hex.
  apply existsb_exists in Hex. destruct Hex as (c' & Hc' & Ec').
  apply Ascii.eqb_eq in Ec'. apply (H c'); [right; exact Hc'|exact Ec'].
Qed.

(** X12.  In a game played from the initial position, a game that is
    over has been won by the side that made the last move; and the
    file-by-file scan of [is_terminal] for pawns on the last rows gives
    what a scan for white pawns on row 8 followed by a scan for black
    pawns on row 1 gives, because the two are never found together. *)
Theorem play_winner_moved_last (ms : list move) (s : GameState) :
  play initial_position ms = Some s ->
  (forall w, is_terminal s = (true, Some w) ->
             w = other_player (current_player s))
  /\ reached_end (board s) (range BOARD_SIZE) = spec_reached_end (board s).
Proof.
  intros Hplay.
  destruct (play_invariant_play ms _ s play_invariant_initial Hplay)
    as (_ & _ & Hpl & _ & _ & _ & _ & Hlast & Harr).
  assert (Hside : (forall c, In c (range BOARD_SIZE) ->
                     cell_at (board s) c 7 <> WHITE)
                  \/ (forall c, In c (range BOARD_SIZE) ->
                        cell_at (board s) c 0 <> BLACK)).
  { destruct Hpl as [Epl|Epl]; rewrite Epl in Harr; [left|right];
      intros c Hc; apply in_range_iff in Hc; apply (Harr c Hc). }
  pose proof (reached_end_spec_agree _ _ Hside) as Hre.
  split; [|exact Hre].
  intros w. unfold is_terminal.
  destruct (reached_end (board s) (range BOARD_SIZE)) as [w'|] eqn:Er.
  - intros [= <-].
    destruct (existsb _ _) eqn:E7 in Hre.
    + injection Hre as ->. apply existsb_exists in E7.
      destruct E7 as (c & Hc & Ec). apply Ascii.eqb_eq in Ec.
      apply in_range_iff in Hc.
      destruct Hpl as [Epl|Epl]; rewrite Epl in *; [|reflexivity].
      exfalso. apply (Harr c Hc). exact Ec.
    + destruct (existsb _ _) eqn:E0 in Hre; [|discriminate Hre].
      injection Hre as ->. apply existsb_exists in E0.
      destruct E0 as (c & Hc & Ec). apply Ascii.eqb_eq in Ec.
      apply in_range_iff in Hc.
      destruct Hpl as [Epl|Epl]; rewrite Epl in *; [reflexivity|].
      exfalso. apply (Harr c Hc). exact Ec.
  - fold (pawn_count (board s) WHITE). fold (pawn_count (board s) BLACK).
    destruct (pawn_count (board s) WHITE =? 0)%nat eqn:Ew.
    + intros [= <-]. apply Nat.eqb_eq in Ew.
      destruct Hpl as [Epl|Epl]; rewrite Epl in *; [reflexivity|].
      change (other_player BLACK) with WHITE in Hlast. lia.
    + destruct (pawn_count (board s) BLACK =? 0)%nat eqn:Eb.
      * intros [= <-]. apply Nat.eqb_eq in Eb.
        destruct Hpl as [Epl|Epl]; rewrite Epl in *; [|reflexivity].
        change (other_player WHITE) with BLACK in Hlast. lia.
      * destruct (List.length (generate_moves s) =? 0)%nat;
          intros H; [|discriminate H]. injection H as <-. reflexivity.
Qed.

Lemma play_winner_moved_last_witness :
  WHITE = other_player (current_player short_game_end).
Proof.
  destruct (play_winner_moved_last short_game short_game_end) as [H _].
  - vm_compute. reflexivity.
  - apply H. vm_compute. reflexivity.
Defined.

(* ================================================================= *)
(** * The contract of [make_move] *)

(** For a listed move the code's test for recording an en-passant target
    and the double step of the specification agree, and the cell
    recorded is the cell skipped over. *)
Lemma listed_double_step (s : GameState) (fc fr tc tr : Z) :
  legal_move s (fc, fr, tc, tr) ->
  rows_two_apart (fc, fr, tc, tr) = spec_double_step s (fc, fr, tc, tr)
  /\ (spec_double_step s (fc, fr, tc, tr) = true ->
      (tc, (fr + tr) / 2) = skipped_cell s (fc, fr, tc, tr)).
Proof.
  intros (_ & _ & _ & Hcases).
  unfold rows_two_apart, spec_double_step, skipped_cell. cbv zeta.
  set (d := if Ascii.eqb (current_player s) WHITE then 1 else -1) in *.
  set (st := if Ascii.eqb (current_player s) WHITE then 1 else 6) in *.
  assert (Hd : d = 1 \/ d = -1) by (unfold d; destruct (Ascii.eqb _ _); auto).
  destruct Hcases as [(-> & -> & _)|[(-> & -> & -> & _)|(Hc & -> & _)]].
  - replace (Z.abs (fr + d - fr) =? 2) with false
      by (symmetry; apply Z.eqb_neq; lia).
    replace (fr + d =? fr + 2 * d) with false
      by (symmetry; apply Z.eqb_neq; lia).
    rewrite andb_false_r. split; [reflexivity|discriminate].
  - replace (Z.abs (st + 2 * d - st) =? 2) with true
      by (symmetry; apply Z.eqb_eq; lia).
    rewrite !Z.eqb_refl. split; [reflexivity|]. intros _.
    replace (st + (st + 2 * d)) with ((st + d) * 2) by lia.
    rewrite Z.div_mul by lia. reflexivity.
  - replace (Z.abs (fr + d - fr) =? 2) with false
      by (symmetry; apply Z.eqb_neq; lia).
    replace (tc =? fc) with false by (symmetry; apply Z.eqb_neq; lia).
    split; [reflexivity|discriminate].
Qed.

(** For a listed move onto the en-passant target, when that target is an
    empty cell, the cell the en-passant rule empties is the source (the
    move goes straight ahead) or holds an opponent pawn. *)
Lemma listed_en_passant (s : GameState) (fc fr tc tr : Z) :
  legal_move s (fc, fr, tc, tr) -> ep_target_empty s ->
  is_ep_target (en_passant_target s) tc tr = true ->
  (tc, fr) = (fc, fr)
  \/ cell_at (board s) tc fr = other_player (current_player s).
Proof.
  intros (_ & _ & _ & Hcases) Hemp Hep.
  apply is_ep_target_spec in Hep. unfold ep_target_empty in Hemp.
  rewrite Hep in Hemp. destruct Hemp as [_ Hcell].
  destruct Hcases as [(-> & _)|[(-> & _)|(_ & _ & [Hopp|[_ Hopp]])]]; auto.
  exfalso. rewrite Hcell in Hopp.
  destruct (other_player_side (current_player s)) as [E|E];
    rewrite E in Hopp; discriminate.
Qed.

(** C2 (as the code has it).  Applied to the object at [self] with a
    move within the board, [make_move] returns a new object [ns]: it
    stands for a position in which the destination holds what stood on
    the source; apart from the destination, the source is empty and so
    is, whenever the destination is the recorded en-passant target, the
    cell level with the mover in the file of the destination; every
    other cell is as before; the en-passant target is the cell
    [(to_col, (from_row + to_row) // 2)] exactly when the rows of source
    and destination are two apart, whatever the files, and absent
    otherwise; the other side is to move and the move ends the log.  No object that existed before the call
    has changed, so the receiver still stands for the position it stood
    for.  For a move that [generate_moves] lists the target is recorded
    exactly when the move is a double step, and is then the cell
    skipped over; the pawn moved is one of the side to move; and when
    the recorded en-passant target is an empty cell, the cell the
    en-passant rule empties is the source or holds an opponent pawn. *)
Theorem make_move_contract (h : Heap.heap) (self : Heap.loc) (s : GameState)
    (fc fr tc tr : Z) :
  Heap.read_state h self = Some s ->
  wf_board (board s) ->
  move_in_bounds (fc, fr, tc, tr) ->
  exists ns h' s',
    Heap.make_move self (fc, fr, tc, tr) h = Ok (ns, h')
    /\ Heap.read_state h' ns = Some s'
    /\ make_move s (fc, fr, tc, tr) = Ok s'
    (* the receiver and everything else that existed *)
    /\ (List.length h <= ns)%nat
    /\ (forall l o, Heap.load h l = Some o -> Heap.load h' l = Some o)
    /\ Heap.read_state h' self = Some s
    (* the new position *)
    /\ wf_board (board s')
    /\ (forall c r, 0 <= c < 8 -> 0 <= r < 8 ->
          cell_at (board s') c r =
            if (c =? tc) && (r =? tr) then cell_at (board s) fc fr
            else if (c =? fc) && (r =? fr) then EMPTY
            else if is_ep_target (en_passant_target s) tc tr
                    && ((c =? tc) && (r =? fr)) then EMPTY
            else cell_at (board s) c r)
    /\ en_passant_target s' =
         (if rows_two_apart (fc, fr, tc, tr)
          then Some (tc, (fr + tr) / 2) else None)
    /\ current_player s' = other_player (current_player s)
    /\ move_history s' = move_history s ++ [(fc, fr, tc, tr)]
    (* a move that [generate_moves] lists *)
    /\ (In (fc, fr, tc, tr) (generate_moves s) ->
        cell_at (board s) fc fr = current_player s
        /\ en_passant_target s' =
             (if spec_double_step s (fc, fr, tc, tr)
              then Some (skipped_cell s (fc, fr, tc, tr)) else None)
        /\ (ep_target_empty s ->
            is_ep_target (en_passant_target s) tc tr = true ->
            (tc, fr) = (fc, fr)
            \/ cell_at (board s) tc fr = other_player (current_player s))).
Proof.
  intros Hread Hwf Hm.
  destruct (make_move_ok s fc fr tc tr Hwf Hm)
    as (s' & E & W & C & P & EP & MH).
  destruct (make_move_refines _ _ _ _ _ Hread E)
    as (ns & h' & Eh & Hag & Hown).
  exists ns, h', s'.
  split; [exact Eh|].
  split; [eapply HeapSteps.owned_read_state; eauto|].
  split; [exact E|].
  split; [destruct Hown as (b & hs & rows & _ & G & _); exact G|].
  split.
  { intros l o L. destruct Hag as [_ Hag]. rewrite Hag; auto.
    eapply HeapFacts.load_some_lt; eauto. }
  split; [eapply HeapSteps.read_state_agree; eauto|].
  split; [exact W|]. split; [exact C|]. split; [exact EP|].
  split; [exact P|]. split; [exact MH|].
  intros Hin. apply generate_moves_legal in Hin.
  destruct (listed_double_step s fc fr tc tr Hin) as [Hsame Hcell].
  split; [destruct Hin as (_ & Hsrc & _); exact Hsrc|]. split.
  - rewrite EP, Hsame.
    destruct (spec_double_step s (fc, fr, tc, tr)) eqn:Ed; [|reflexivity].
    rewrite (Hcell eq_refl). reflexivity.
  - apply listed_en_passant. exact Hin.
Qed.

Lemma make_move_contract_witness :
  exists ns h' s',
    Heap.make_move 10%nat (4, 1, 4, 3) initial_heap = Ok (ns, h')
    /\ Heap.read_state h' ns = Some s'
    /\ Heap.read_state h' 10%nat = Some initial_position
    /\ en_passant_target s' = Some (4, 2).
Proof.
  destruct (make_move_contract initial_heap 10%nat initial_position 4 1 4 3)
    as (ns & h' & s' & H1 & H2 & _ & _ & _ & H6 & _ & _ & H9 & _).
  - reflexivity.
  - apply wf_boardb_spec. reflexivity.
  - simpl. lia.
  - exists ns, h', s'. repeat split; assumption.
Defined.

(** C2 as the specification words it does not hold for every move
    within the board.  From the initial position the move a2-c4 is not
    a double step, and the code records the en-passant target c3.  After
    e2-e4 the move d7-e3 lands on the en-passant target, and the code
    empties e7, a pawn of the mover, while the white pawn that made the
    double step stays on e4. *)
Lemma make_move_target_without_double_step :
  move_in_bounds (0, 1, 2, 3)
  /\ spec_double_step initial_position (0, 1, 2, 3) = false
  /\ match make_move initial_position (0, 1, 2, 3) with
     | Ok s' => en_passant_target s' = Some (2, 2)
     | Raise _ => False
     end
  /\ move_in_bounds (3, 6, 4, 2)
  /\ current_player after_e2e4 = BLACK
  /\ en_passant_target after_e2e4 = Some (4, 2)
  /\ cell_at (board after_e2e4) 4 6 = BLACK
  /\ match make_move after_e2e4 (3, 6, 4, 2) with
     | Ok s' => cell_at (board s') 4 6 = EMPTY
                /\ cell_at (board s') 4 3 = WHITE
     | Raise _ => False
     end.
Proof.
  split; [simpl; lia|]. split; [reflexivity|]. split; [reflexivity|].
  split; [simpl; lia|]. repeat split; reflexivity.
Qed.

(* ================================================================= *)
(** * The callers of the game functions *)

Lemma rank_digit_plain (d : ascii) :
  is_rank_digit d = true ->
  is_space d = false /\ py_lower_char d = d /\ d <> "u"%char.
Proof.
  unfold is_rank_digit. change (ord "1") with 49. change (ord "8") with 56.
  rewrite andb_true_iff, !Z.leb_le. intros H.
  rewrite <- (ascii_of_ord d).
  assert (E : ord d = 49 \/ ord d = 50 \/ ord d = 51 \/ ord d = 52
              \/ ord d = 53 \/ ord d = 54 \/ ord d = 55 \/ ord d = 56) by lia.
  repeat (destruct E as [E | E]); rewrite E;
    (split; [reflexivity|split; [reflexivity|discriminate]]).
Qed.

Lemma file_letter_plain (c : ascii) :
  is_file_letter c = true -> is_space c = false /\ py_lower_char c = c.
Proof.
  unfold is_file_letter. change (ord "a") with 97. change (ord "h") with 104.
  rewrite andb_true_iff, !Z.leb_le. intros H.
  rewrite <- (ascii_of_ord c).
  assert (E : ord c = 97 \/ ord c = 98 \/ ord c = 99 \/ ord c = 100
              \/ ord c = 101 \/ ord c = 102 \/ ord c = 103 \/ ord c = 104) by lia.
  repeat (destruct E as [E | E]); rewrite E; (split; reflexivity).
Qed.

(** The text of a move within the board: read back as the move, left
    alone by [strip] and [lower], and different from [quit]. *)
Lemma move_text_plain (m : move) :
  move_in_bounds m ->
  exists txt,
    move_to_string m = Ok txt /\ string_to_move txt = Ok (Some m)
    /\ strip txt = txt /\ py_lower txt = txt
    /\ String.eqb txt "quit" = false.
Proof.
  intros Hm.
  destruct (move_to_string_parsed m Hm)
    as (c1 & d1 & c2 & d2 & E & P & F1 & R1 & F2 & R2).
  destruct (file_letter_plain c1 F1) as [S1 L1].
  destruct (file_letter_plain c2 F2) as [S2 L2].
  destruct (rank_digit_plain d1 R1) as (T1 & M1 & U1).
  destruct (rank_digit_plain d2 R2) as (T2 & M2 & _).
  eexists. split; [exact E|]. split; [exact P|]. split; [|split].
  - unfold strip. cbn [lstrip]. rewrite S1. cbn [rstrip]. rewrite T2.
    reflexivity.
  - cbn [py_lower]. rewrite L1, L2, M1, M2. reflexivity.
  - apply String.eqb_neq. intros [= _ Hu]. exact (U1 Hu).
Qed.

(** X13.  The client applies whatever move on the board the opponent
    sends: when the text, spaces around it apart, is that of a move [m]
    within the board, the new state is [make_move] of [m] whether or
    not [generate_moves] lists it; only the message printed differs. *)
Theorem handle_opponent_move_applies (s : GameState) (m : move)
    (txt line : string) :
  wf_board (board s) -> move_in_bounds m ->
  move_to_string m = Ok txt -> strip line = txt ->
  exists s',
    make_move s m = Ok s'
    /\ handle_opponent_move s line
       = Ok (s', if move_in m (generate_moves s)
                 then OpponentPlayed else SeemsInvalid).
Proof.
  intros Hwf Hm Etxt Hline.
  destruct (move_text_plain m Hm) as (txt' & E & P & _).
  assert (txt' = txt) by congruence. subst txt'.
  destruct m as [[[fc fr] tc] tr].
  destruct (make_move_ok s fc fr tc tr Hwf Hm) as (s' & Em & _).
  exists s'. split; [exact Em|].
  unfold handle_opponent_move. cbv zeta. rewrite Hline, P. cbn [rbind].
  destruct (move_in _ _); rewrite Em; reflexivity.
Qed.

Lemma handle_opponent_move_applies_witness :
  exists s',
    make_move initial_position (4, 1, 4, 4) = Ok s'
    /\ handle_opponent_move initial_position " e2e5 "
       = Ok (s', if move_in (4, 1, 4, 4) (generate_moves initial_position)
                 then OpponentPlayed else SeemsInvalid).
Proof.
  apply (handle_opponent_move_applies initial_position (4, 1, 4, 4) "e2e5").
  - apply wf_boardb_spec. vm_compute. reflexivity.
  - simpl. lia.
  - reflexivity.
  - reflexivity.
Defined.

(** X14.  The input loop of the human player makes a move only if
    [generate_moves] lists it: whenever, on an 8x8 board, a line leads
    to a new state, that state is [make_move] of a listed move. *)
Theorem human_turn_only_generated (s s' : GameState) (line : string) :
  wf_board (board s) ->
  human_turn s line = Ok (Played s') ->
  exists m, In m (generate_moves s) /\ make_move s m = Ok s'.
Proof.
  intros _. unfold human_turn. cbv zeta.
  destruct (String.eqb _ "quit"); [discriminate|].
  destruct (string_to_move _) as [[m|]|e]; cbn [rbind]; try discriminate.
  destruct (move_in m (generate_moves s)) eqn:Em; [|discriminate].
  destruct (make_move s m) as [s2|e] eqn:E; cbn [rbind]; [|discriminate].
  intros [= <-]. exists m. split; [|exact E].
  apply move_in_In. exact Em.
Qed.

Lemma human_turn_only_generated_witness :
  exists m, In m (generate_moves initial_position)
            /\ make_move initial_position m = Ok after_e2e4.
Proof.
  apply (human_turn_only_generated initial_position after_e2e4 " E2E4").
  - apply wf_boardb_spec. vm_compute. reflexivity.
  - vm_compute. reflexivity.
Defined.

(** X15.  On an 8x8 board the input loop accepts every listed move in
    any spelling that [strip] and [lower] turn into its text: the move
    is made. *)
Theorem human_turn_accepts_generated (s : GameState) (m : move)
    (txt line : string) :
  wf_board (board s) -> In m (generate_moves s) ->
  move_to_string m = Ok txt -> py_lower (strip line) = txt ->
  exists s', make_move s m = Ok s' /\ human_turn s line = Ok (Played s').
Proof.
  intros Hwf Hin Etxt Hline.
  pose proof (generate_moves_in_bounds s) as Hb. rewrite Forall_forall in Hb.
  pose proof (Hb _ Hin) as Hm.
  destruct (move_text_plain m Hm) as (txt' & E & P & _ & _ & Q).
  assert (txt' = txt) by congruence. subst txt'.
  destruct m as [[[fc fr] tc] tr].
  destruct (make_move_ok s fc fr tc tr Hwf Hm) as (s' & Em & _).
  exists s'. split; [exact Em|].
  unfold human_turn. cbv zeta. rewrite Hline, Q, P. cbn [rbind].
  apply move_in_In in Hin. rewrite Hin, Em. reflexivity.
Qed.

Lemma human_turn_accepts_generated_witness :
  exists s', make_move initial_position (4, 1, 4, 3) = Ok s'
             /\ human_turn initial_position " E2E4" = Ok (Played s').
Proof.
  apply (human_turn_accepts_generated initial_position (4, 1, 4, 3) "e2e4").
  - apply wf_boardb_spec. vm_compute. reflexivity.
  - apply move_in_In. vm_compute. reflexivity.
  - reflexivity.
  - reflexivity.
Defined.

(** [get_best_move] returns a listed move, if any. *)
Lemma get_best_move_listed (deadline : nat -> bool) (state : GameState)
    (self : TwoFlagsAI) :
  wf_board (board state) ->
  exists r self',
    get_best_move deadline state self = (Ok r, self')
    /\ forall m, r = Some m -> In m (generate_moves state).
Proof.
  intros Hwf. unfold get_best_move.
  unfold bind at 1, reset_nodes at 1.
  set (self0 := {| color := color self; evaluator := evaluator self;
                   nodes_searched := 0;
                   max_depth_reached := max_depth_reached self;
                   clock_reads := clock_reads self |}).
  destruct (generate_moves state) as [|m0 [|m1 ms]] eqn:Eg.
  - exists None, self0. unfold ret. split; [reflexivity|]. discriminate.
  - exists (Some m0), self0. unfold ret. split; [reflexivity|].
    intros m [= <-]. left. reflexivity.
  - rewrite <- Eg.
    assert (Hm0 : In m0 (generate_moves state))
      by (rewrite Eg; left; reflexivity).
    destruct (deepen_legal deadline state (map (fun d => d + 1) (range 49)) Hwf
                m0 self0 Hm0) as (bm & self' & E & Hbm).
    exists (Some bm), self'. unfold bind at 1. rewrite E. unfold ret.
    split; [reflexivity|]. intros m [= <-]. exact Hbm.
Qed.

(** X16.  Two clients stay in step: when one of them, on an 8x8 board,
    makes its move and sends the text, the other, in the same state,
    reads the text back as a listed move and reaches the same new
    state. *)
Theorem clients_stay_in_step (deadline : nat -> bool) (s s' : GameState)
    (txt : string) (self self' : TwoFlagsAI) :
  wf_board (board s) ->
  get_my_move deadline s self = (Ok (s', Some txt), self') ->
  handle_opponent_move s txt = Ok (s', OpponentPlayed).
Proof.
  intros Hwf. unfold get_my_move.
  destruct (get_best_move_listed deadline s self Hwf) as (r & self1 & E & Hr).
  unfold bind at 1. rewrite E.
  destruct r as [m|]; [|unfold ret; intros [= _ ? _]; discriminate].
  specialize (Hr m eq_refl).
  pose proof (generate_moves_in_bounds s) as Hb. rewrite Forall_forall in Hb.
  pose proof (Hb _ Hr) as Hm.
  destruct (move_text_plain m Hm) as (txt' & Et & P & St & _).
  destruct m as [[[fc fr] tc] tr].
  destruct (make_move_ok s fc fr tc tr Hwf Hm) as (s2 & Em & _).
  unfold bind at 1, lift at 1. rewrite Em.
  unfold bind at 1, lift at 1. rewrite Et. unfold ret.
  intros [= <- <- _].
  unfold handle_opponent_move. cbv zeta. rewrite St, P. cbn [rbind].
  apply move_in_In in Hr. rewrite Hr, Em. reflexivity.
Qed.

Lemma clients_stay_in_step_witness :
  exists s',
    handle_opponent_move initial_position "a2a3" = Ok (s', OpponentPlayed).
Proof.
  exists (match fst (get_my_move (fun _ => true) initial_position
                       (new_TwoFlagsAI WHITE)) with
          | Ok (s', _) => s'
          | Raise _ => initial_position
          end).
  apply (clients_stay_in_step (fun _ => true) initial_position _ "a2a3"
           (new_TwoFlagsAI WHITE)
           (snd (get_my_move (fun _ => true) initial_position
                   (new_TwoFlagsAI WHITE)))).
  - apply wf_boardb_spec. vm_compute. reflexivity.
  - vm_compute. reflexivity.
Defined.

(* ================================================================= *)
(** * The move the root search returns *)

Lemma mapM_in {A B} (f : A -> result B) (l : list A) (ys : list B) (x : A) :
  mapM f l = Ok ys -> In x l -> exists y, f x = Ok y /\ In y ys.
Proof.
  revert ys. induction l as [|a l IH]; intros ys E Hx; [contradiction|].
  simpl in E. destruct (f a) as [y|e] eqn:Ea; [|discriminate]. simpl in E.
  destruct (mapM f l) as [ys'|e]; [|discriminate]. simpl in E.
  injection E as <-. destruct Hx as [<-|Hx].
  - exists y. split; [exact Ea|left; reflexivity].
  - destruct (IH ys' eq_refl Hx) as (y' & E' & Hy'). exists y'.
    split; [exact E'|right; exact Hy'].
Qed.

Lemma ext_maximum_ge (l : list ext) (x : ext) :
  In x l -> ext_le x (ext_maximum l).
Proof.
  induction l as [|y l IH]; [contradiction|].
  rewrite ext_maximum_cons. intros [<-|Hx].
  - apply py_max_ge_l.
  - eapply ext_le_trans; [apply IH; exact Hx|apply py_max_ge_r].
Qed.

(** The loop of [search_root]: the move it ends with is the one it
    started with, when no move scored above the starting score, and
    otherwise a move of the list whose full-width score is the score it
    ends with. *)
Lemma search_root_loop_argmax (c : ascii) (ev : Evaluator) (state : GameState)
    (depth : Z) (moves : list move) :
  wf_board (board state) ->
  Forall move_in_bounds moves ->
  forall bm best self,
    color self = c -> evaluator self = ev -> best <> PosInf ->
    exists bm' R self',
      search_root_loop never state depth PosInf moves bm best best self
      = (Ok (bm', R), self')
      /\ ((bm' = bm /\ R = best /\ (moves = [] \/ best <> NegInf))
          \/ (In bm' moves
              /\ child_score (full_width c ev) state depth bm' = Ok R)).
Proof.
  intros Hwf. induction 1 as [|mv moves Hmv Hmoves IH];
    intros bm best self Hc Hev Hbest.
  - exists bm, best, self. split; [reflexivity|]. left. auto.
  - cbn [search_root_loop]. unfold bind at 1, should_stop at 1, never at 1.
    set (self1 := {| color := color self; evaluator := evaluator self;
                     nodes_searched := nodes_searched self;
                     max_depth_reached := max_depth_reached self;
                     clock_reads := S (clock_reads self) |}).
    assert (Hrec : forall child, wf_board (board child) ->
              sound_at c ev (fun st d => alpha_beta never st d) (full_width c ev)
                child (depth - 1))
      by (intros child Hw; apply alpha_beta_sound_top; exact Hw).
    destruct (child_step c ev _ _ state depth Hwf Hrec mv
                (ext_neg PosInf) (ext_neg best) false self1 Hmv Hc Hev)
      as (child & z & self2 & v & Em & Er & Hc2 & Hev2 & Es & Hb).
    destruct (child_window (Fin z) v best PosInf Hb (ext_lt_posinf _ Hbest))
      as [Hb1 Hb2].
    unfold bind at 1, lift at 1. rewrite Em. unfold bind at 1. rewrite Er.
    set (s := ext_neg (Fin z)) in *.
    assert (Hs : ext_lt s PosInf) by reflexivity.
    destruct (ext_ltb best s) eqn:Elt.
    + assert (E : py_max best s = s) by (unfold py_max; rewrite Elt; reflexivity).
      cbv zeta iota beta. rewrite E.
      assert (Hsv : s = ext_neg v)
        by (apply ext_le_antisym; [apply Hb1; exact Elt|apply Hb2; exact Hs]).
      destruct (IH mv s self2 Hc2 Hev2) as (bm' & R & self' & El & Hbm');
        [discriminate|].
      exists bm', R, self'. split; [exact El|]. right.
      destruct Hbm' as [(-> & -> & _)|[Hin Hsc]].
      * split; [left; reflexivity|]. rewrite Es, Hsv. reflexivity.
      * split; [right; exact Hin|exact Hsc].
    + assert (E : py_max best s = best)
        by (unfold py_max; rewrite Elt; reflexivity).
      cbv zeta iota beta. rewrite E.
      destruct (IH bm best self2 Hc2 Hev2 Hbest) as (bm' & R & self' & El & Hbm').
      exists bm', R, self'. split; [exact El|].
      destruct Hbm' as [(-> & -> & _)|[Hin Hsc]].
      * left. split; [reflexivity|]. split; [reflexivity|]. right.
        intros ->. discriminate.
      * right. split; [right; exact Hin|exact Hsc].
Qed.

(** X17.  With a clock that never reaches the deadline, the move the
    root search returns for an 8x8 position that is not over is a best
    move: a listed move whose own full-width score is the score
    returned, and no listed move has a greater full-width score. *)
Theorem search_root_returns_best_move (state : GameState) (depth : Z)
    (self : TwoFlagsAI) :
  wf_board (board state) ->
  is_terminal state = (false, None) ->
  exists mv score self',
    search_root never state depth self = (Ok (Some mv, score), self')
    /\ In mv (generate_moves state)
    /\ child_score (full_width (color self) (evaluator self)) state depth mv
       = Ok score
    /\ forall m, In m (generate_moves state) ->
         exists sc,
           child_score (full_width (color self) (evaluator self)) state depth m
           = Ok sc
           /\ ext_le sc score.
Proof.
  intros Hwf Ht.
  destruct (is_terminal_false _ Ht) as (_ & _ & _ & Hne).
  pose proof (generate_moves_in_bounds state) as Hgen.
  destruct (order_moves_ok state _ Hwf Hgen) as (ms & Eo & Hperm).
  assert (Hms : Forall move_in_bounds ms).
  { apply Forall_forall. intros m Hm. rewrite Forall_forall in Hgen.
    apply Hgen. eapply Permutation_in; eauto. }
  unfold search_root.
  destruct (generate_moves state) as [|g gs] eqn:Eg; [congruence|].
  rewrite <- Eg in *. clear Eg g gs.
  unfold bind at 1, lift at 1. rewrite Eo.
  destruct ms as [|m0 ms'] eqn:Ems.
  { apply Permutation_nil in Hperm. congruence. }
  rewrite <- Ems in *.
  assert (E0 : py_index ms 0 = Ok m0) by (rewrite Ems; reflexivity).
  unfold bind at 1, lift at 1. rewrite E0.
  destruct (search_root_loop_sound (color self) (evaluator self) state depth ms
              Hwf Hms m0 NegInf self eq_refl eq_refl)
    as (bm & R & self' & scores & El & _ & _ & Esc & HR & _);
    [discriminate|].
  destruct (search_root_loop_argmax (color self) (evaluator self) state depth ms
              Hwf Hms m0 NegInf self eq_refl eq_refl)
    as (bm2 & R2 & self2 & El2 & Hbm); [discriminate|].
  rewrite El in El2. injection El2 as <- <- <-.
  unfold bind at 1. rewrite El. unfold ret. cbn [fst snd].
  exists bm, R, self'. split; [reflexivity|].
  destruct Hbm as [(_ & _ & [Hnil|Hni])|[Hin Hsc]];
    [rewrite Ems in Hnil; discriminate|congruence|].
  split; [eapply Permutation_in; [exact Hperm|exact Hin]|].
  split; [exact Hsc|].
  intros m Hm.
  assert (Hm' : In m ms)
    by (eapply Permutation_in; [apply Permutation_sym; exact Hperm|exact Hm]).
  destruct (mapM_in _ _ _ _ Esc Hm') as (sc & E & Hsc').
  exists sc. split; [exact E|].
  rewrite HR, py_max_neginf_l. apply ext_maximum_ge. exact Hsc'.
Qed.

Lemma search_root_returns_best_move_witness :
  exists mv score self',
    search_root never initial_position 2 (new_TwoFlagsAI WHITE)
    = (Ok (Some mv, score), self')
    /\ In mv (generate_moves initial_position)
    /\ child_score (full_width WHITE new_Evaluator) initial_position 2 mv
       = Ok score.
Proof.
  destruct (search_root_returns_best_move initial_position 2
              (new_TwoFlagsAI WHITE))
    as (mv & score & self' & H1 & H2 & H3 & _).
  - apply wf_boardb_spec. vm_compute. reflexivity.
  - vm_compute. reflexivity.
  - exists mv, score, self'. auto.
Defined.

(* ================================================================= *)
(** * The search and the clock *)

Section Clock.
Variable deadline : nat -> bool.

Lemma clocked_ret {A} (a : A) (self : TwoFlagsAI) :
  clocked deadline self (Ok a, self).
Proof.
  unfold clocked. cbn [fst snd]. repeat split; lia.
Qed.

Lemma clocked_trans {A B} (a : A) (self self1 : TwoFlagsAI)
    (out : result B * TwoFlagsAI) :
  clocked deadline self (Ok a, self1) -> clocked deadline self1 out ->
  clocked deadline self out.
Proof.
  unfold clocked. cbn [fst snd].
  intros (C1 & E1 & D1 & L1 & N1 & R1) (C2 & E2 & D2 & L2 & N2 & R2).
  split; [congruence|]. split; [congruence|]. split; [congruence|].
  split; [lia|]. split; [lia|].
  destruct (fst out) as [b|e].
  - intros k Hk. destruct (Nat.lt_ge_cases k (clock_reads self1)).
    + apply R1. lia.
    + apply R2. lia.
  - destruct R2 as (-> & k & Ek & Hk & Dk & Hj). split; [reflexivity|].
    exists k. split; [exact Ek|]. split; [lia|]. split; [exact Dk|].
    intros j Hj'. destruct (Nat.lt_ge_cases j (clock_reads self1)).
    + apply R1. lia.
    + apply Hj. lia.
Qed.

Lemma clocked_raise {A B} (e : exn) (self self1 : TwoFlagsAI) :
  clocked deadline self (@Raise A e, self1) ->
  clocked deadline self (@Raise B e, self1).
Proof. exact (fun H => H). Qed.

Section Loops.
Variable rec : GameState -> Z -> ext -> ext -> bool -> M ext.
Variable state : GameState.
Variable depth : Z.
Hypothesis Hwf : wf_board (board state).
Hypothesis Hrec : forall child alpha beta mx self,
    wf_board (board child) ->
    clocked deadline self (rec child (depth - 1) alpha beta mx self).

Lemma alpha_beta_loop_clocked (beta : ext) (mx : bool) (moves : list move) :
  Forall move_in_bounds moves ->
  forall best a self,
    clocked deadline self
      (alpha_beta_loop rec state depth beta mx moves best a self).
Proof.
  induction 1 as [|mv moves Hmv _ IH]; intros best a self.
  - apply clocked_ret.
  - cbn [alpha_beta_loop]. destruct mv as [[[fc fr] tc] tr].
    destruct (make_move_ok state fc fr tc tr Hwf Hmv) as (child & E & W & _).
    unfold bind at 1, lift at 1. rewrite E. unfold bind at 1.
    pose proof (Hrec child (ext_neg beta) (ext_neg a) (negb mx) self W) as Hr.
    destruct (rec child (depth - 1) (ext_neg beta) (ext_neg a) (negb mx) self)
      as [[r|e] self1].
    + destruct (ext_leb beta _).
      * eapply clocked_trans; [exact Hr|apply clocked_ret].
      * eapply clocked_trans; [exact Hr|apply IH].
    + exact Hr.
Qed.
End Loops.

Lemma alpha_beta_fuel_clocked (fuel : nat) :
  forall state depth alpha beta mx self,
    wf_board (board state) -> (Z.to_nat depth < fuel)%nat ->
    clocked deadline self
      (alpha_beta_fuel deadline fuel state depth alpha beta mx self)
    /\ (clock_reads self
        < clock_reads (snd (alpha_beta_fuel deadline fuel state depth
                              alpha beta mx self)))%nat.
Proof.
  induction fuel as [|fuel IH];
    intros state depth alpha beta mx self Hwf Hfuel; [lia|].
  cbn [alpha_beta_fuel].
  set (self1 := {| color := color self; evaluator := evaluator self;
                   nodes_searched := nodes_searched self + 1;
                   max_depth_reached := max_depth_reached self;
                   clock_reads := S (clock_reads self) |}).
  pose (rest :=
          let '(is_over, winner) := is_terminal state in
          if is_over then
            match winner with
            | Some w =>
                fun self0 =>
                  if Ascii.eqb w (color self0)
                  then ret (Fin (WIN_VALUE - (50 - depth))) self0
                  else ret (Fin (- WIN_VALUE + (50 - depth))) self0
            | None => ret (Fin 0)
            end
          else if depth <=? 0 then
            fun self0 =>
              ret (Fin (evaluate (evaluator self0) state (color self0))) self0
          else
            bind (lift (order_moves state (generate_moves state)))
              (fun moves =>
                 alpha_beta_loop (alpha_beta_fuel deadline fuel)
                   state depth beta mx moves NegInf alpha)).
  assert (Eq : alpha_beta_body deadline (alpha_beta_fuel deadline fuel) state
                 depth alpha beta mx self
               = if deadline (clock_reads self)
                 then (Raise TimeoutError, self1) else rest self1).
  { unfold alpha_beta_body. unfold bind at 1, count_node at 1.
    unfold bind at 1, should_stop at 1.
    cbn [color evaluator nodes_searched max_depth_reached clock_reads].
    destruct (deadline (clock_reads self)); reflexivity. }
  rewrite Eq. clear Eq.
  destruct (deadline (clock_reads self)) eqn:Ed.
  - unfold clocked. subst self1.
    cbn [fst snd color evaluator nodes_searched max_depth_reached clock_reads].
    split; [|lia]. repeat split; try lia.
    exists (clock_reads self). repeat split; try lia. exact Ed.
  - assert (H1 : clocked deadline self (Ok tt, self1)).
    { unfold clocked. subst self1.
      cbn [fst snd color evaluator nodes_searched max_depth_reached
             clock_reads].
      repeat split; try lia.
      intros k Hk. replace k with (clock_reads self) by lia. exact Ed. }
    enough (H2 : clocked deadline self1 (rest self1)).
    { split; [eapply clocked_trans; [exact H1|exact H2]|].
      destruct H2 as (_ & _ & _ & L & _). subst self1.
      cbn [clock_reads] in L. lia. }
    subst rest. cbv beta zeta.
    destruct (is_terminal state) as [is_over winner].
    destruct is_over.
    + destruct winner as [w|]; [|apply clocked_ret].
      destruct (Ascii.eqb w (color self1)); apply clocked_ret.
    + destruct (depth <=? 0) eqn:Edepth; [apply clocked_ret|].
      apply Z.leb_gt in Edepth.
      pose proof (generate_moves_in_bounds state) as Hgen.
      destruct (order_moves_ok state _ Hwf Hgen) as (ms & Eo & Hperm).
      assert (Hms : Forall move_in_bounds ms).
      { apply Forall_forall. intros m Hm. rewrite Forall_forall in Hgen.
        apply Hgen. eapply Permutation_in; eauto. }
      unfold bind at 1, lift at 1. rewrite Eo.
      apply alpha_beta_loop_clocked; [exact Hwf| |exact Hms].
      intros child a b m s Hw. apply IH; [exact Hw|lia].
Qed.

(** X18.  Whatever the clock does, a call of [alpha_beta] on an 8x8
    position reads the clock at least once and counts exactly one node
    for each reading; it leaves the engine's colour, weights and
    recorded depth alone; and it either returns a score, every reading
    having found time left, or raises [TimeoutError] (and nothing
    else) right after the first reading that found none. *)
Theorem alpha_beta_clocked (state : GameState) (depth : Z) (alpha beta : ext)
    (mx : bool) (self : TwoFlagsAI) :
  wf_board (board state) ->
  clocked deadline self (alpha_beta deadline state depth alpha beta mx self)
  /\ (clock_reads self
      < clock_reads (snd (alpha_beta deadline state depth alpha beta mx
                            self)))%nat.
Proof.
  intros Hwf. unfold alpha_beta. apply alpha_beta_fuel_clocked; [exact Hwf|lia].
Qed.
End Clock.

Lemma alpha_beta_clocked_witness :
  clocked (fun n => (3 <=? n)%nat) (new_TwoFlagsAI WHITE)
    (alpha_beta (fun n => (3 <=? n)%nat) initial_position 2 NegInf PosInf true
       (new_TwoFlagsAI WHITE)).
Proof.
  apply (alpha_beta_clocked (fun n => (3 <=? n)%nat) initial_position 2
           NegInf PosInf true (new_TwoFlagsAI WHITE)).
  apply wf_boardb_spec. vm_compute. reflexivity.
Defined.

(* ================================================================= *)
(** * Outcomes of the parser, indices off the board, set-up, copies *)

Lemma py_index_wrap {A} (l : list A) (i : Z) :
  List.length l = 8%nat ->
  (-8 <= i < 8 -> py_index l i = py_index l (i mod 8))
  /\ (~ -8 <= i < 8 -> py_index l i = Raise IndexError).
Proof.
  intros Hl. unfold py_index. rewrite Hl. cbv zeta.
  change (Z.of_nat 8) with 8. change (Z.opp 8) with (-8). split; intros Hi.
  - assert (Hm : 0 <= i mod 8 < 8) by (apply Z.mod_pos_bound; lia).
    replace ((0 <=? i mod 8) && (i mod 8 <? 8)) with true
      by (symmetry; apply andb_true_iff; split;
          [apply Z.leb_le|apply Z.ltb_lt]; lia).
    destruct (Z.leb_spec 0 i).
    + replace (i <? 8) with true by (symmetry; apply Z.ltb_lt; lia).
      cbn [andb]. rewrite Z.mod_small by lia. reflexivity.
    + cbn [andb].
      replace ((-8 <=? i) && (i <? 0)) with true
        by (symmetry; apply andb_true_iff; split;
            [apply Z.leb_le|apply Z.ltb_lt]; lia).
      replace (i mod 8) with (i + 8); [reflexivity|].
      apply (Z.mod_unique_pos i 8 (-1) (i + 8)); lia.
  - destruct (Z.leb_spec 0 i), (Z.ltb_spec i 8), (Z.leb_spec (-8) i),
      (Z.ltb_spec i 0); cbn [andb]; try reflexivity; lia.
Qed.

Lemma py_setitem_wrap {A} (l : list A) (i : Z) (x : A) :
  List.length l = 8%nat ->
  (-8 <= i < 8 -> py_setitem l i x = py_setitem l (i mod 8) x)
  /\ (~ -8 <= i < 8 -> py_setitem l i x = Raise IndexError).
Proof.
  intros Hl. unfold py_setitem. rewrite Hl. cbv zeta.
  change (Z.of_nat 8) with 8. change (Z.opp 8) with (-8). split; intros Hi.
  - assert (Hm : 0 <= i mod 8 < 8) by (apply Z.mod_pos_bound; lia).
    replace ((0 <=? i mod 8) && (i mod 8 <? 8)) with true
      by (symmetry; apply andb_true_iff; split;
          [apply Z.leb_le|apply Z.ltb_lt]; lia).
    destruct (Z.leb_spec 0 i).
    + replace (i <? 8) with true by (symmetry; apply Z.ltb_lt; lia).
      cbn [andb]. rewrite Z.mod_small by lia. reflexivity.
    + cbn [andb].
      replace ((-8 <=? i) && (i <? 0)) with true
        by (symmetry; apply andb_true_iff; split;
            [apply Z.leb_le|apply Z.ltb_lt]; lia).
      replace (i mod 8) with (i + 8); [reflexivity|].
      apply (Z.mod_unique_pos i 8 (-1) (i + 8)); lia.
  - destruct (Z.leb_spec 0 i), (Z.ltb_spec i 8), (Z.leb_spec (-8) i),
      (Z.ltb_spec i 0); cbn [andb]; try reflexivity; lia.
Qed.

Lemma board_get_wrap (b : board_t) (row col : Z) :
  wf_board b ->
  (-8 <= row < 8 /\ -8 <= col < 8 ->
   board_get b row col = Ok (cell_at b (col mod 8) (row mod 8)))
  /\ (~ (-8 <= row < 8 /\ -8 <= col < 8) ->
      board_get b row col = Raise IndexError).
Proof.
  intros Hwf. pose proof Hwf as [Hlen Hrows].
  destruct (py_index_wrap b row Hlen) as [Hin Hout]. split.
  - intros [Hr Hc].
    assert (Hrm : 0 <= row mod 8 < 8) by (apply Z.mod_pos_bound; lia).
    assert (Hcm : 0 <= col mod 8 < 8) by (apply Z.mod_pos_bound; lia).
    rewrite <- (board_get_cell_at b _ _ Hwf Hrm Hcm).
    unfold board_get. rewrite (Hin Hr).
    destruct (wf_board_row b (row mod 8) Hwf Hrm) as (r & E & _ & Hl).
    rewrite E. cbn [rbind].
    apply (proj1 (py_index_wrap r col Hl)). exact Hc.
  - intros Hn. unfold board_get.
    destruct (Z_le_dec (-8) row) as [H1|H1]; [|rewrite Hout by lia; reflexivity].
    destruct (Z_lt_dec row 8) as [H2|H2]; [|rewrite Hout by lia; reflexivity].
    rewrite Hin by lia.
    assert (Hrm : 0 <= row mod 8 < 8) by (apply Z.mod_pos_bound; lia).
    destruct (wf_board_row b (row mod 8) Hwf Hrm) as (r & E & _ & Hl).
    rewrite E. cbn [rbind].
    apply (proj2 (py_index_wrap r col Hl)). lia.
Qed.

Lemma board_set_wrap (b : board_t) (row col : Z) (v : ascii) :
  wf_board b ->
  (-8 <= row < 8 /\ -8 <= col < 8 ->
   board_set b row col v = board_set b (row mod 8) (col mod 8) v)
  /\ (~ (-8 <= row < 8 /\ -8 <= col < 8) ->
      board_set b row col v = Raise IndexError).
Proof.
  intros Hwf. pose proof Hwf as [Hlen Hrows].
  destruct (py_index_wrap b row Hlen) as [Hin Hout]. split.
  - intros [Hr Hc].
    assert (Hrm : 0 <= row mod 8 < 8) by (apply Z.mod_pos_bound; lia).
    unfold board_set. rewrite (Hin Hr).
    destruct (wf_board_row b (row mod 8) Hwf Hrm) as (r & E & _ & Hl).
    rewrite E. cbn [rbind].
    rewrite (proj1 (py_setitem_wrap r col v Hl) Hc).
    destruct (py_setitem r (col mod 8) v) as [r'|e]; cbn [rbind];
      [|reflexivity].
    apply (proj1 (py_setitem_wrap b row r' Hlen) Hr).
  - intros Hn. unfold board_set.
    destruct (Z_le_dec (-8) row) as [H1|H1]; [|rewrite Hout by lia; reflexivity].
    destruct (Z_lt_dec row 8) as [H2|H2]; [|rewrite Hout by lia; reflexivity].
    rewrite Hin by lia.
    assert (Hrm : 0 <= row mod 8 < 8) by (apply Z.mod_pos_bound; lia).
    destruct (wf_board_row b (row mod 8) Hwf Hrm) as (r & E & _ & Hl).
    rewrite E. cbn [rbind].
    rewrite (proj2 (py_setitem_wrap r col v Hl)) by lia. reflexivity.
Qed.

Lemma board_set_wrap_ok (b : board_t) (row col : Z) (v : ascii) :
  wf_board b -> -8 <= row < 8 -> -8 <= col < 8 ->
  exists b', board_set b row col v = Ok b' /\ wf_board b'
    /\ cell_at b' (col mod 8) (row mod 8) = v.
Proof.
  intros Hwf Hr Hc.
  assert (Hrm : 0 <= row mod 8 < 8) by (apply Z.mod_pos_bound; lia).
  assert (Hcm : 0 <= col mod 8 < 8) by (apply Z.mod_pos_bound; lia).
  rewrite (proj1 (board_set_wrap b row col v Hwf)) by auto.
  destruct (board_set_ok b (row mod 8) (col mod 8) v Hwf Hrm Hcm)
    as (b' & E & W & C).
  exists b'. split; [exact E|]. split; [exact W|].
  rewrite (C _ _ Hcm Hrm), !Z.eqb_refl. reflexivity.
Qed.

(** X20.  On an 8x8 board [make_move] succeeds exactly when the four
    coordinates of the move lie in -8..7, and raises [IndexError]
    otherwise.  A negative coordinate counts from the far edge, as
    Python indices do: the pawn is read and written at the coordinates
    taken modulo 8. *)
Theorem make_move_index_rule (s : GameState) (fc fr tc tr : Z) :
  wf_board (board s) ->
  ((-8 <= fc < 8 /\ -8 <= fr < 8 /\ -8 <= tc < 8 /\ -8 <= tr < 8)
   /\ exists s',
        make_move s (fc, fr, tc, tr) = Ok s' /\ wf_board (board s')
        /\ cell_at (board s') (tc mod 8) (tr mod 8)
           = cell_at (board s) (fc mod 8) (fr mod 8))
  \/ (~ (-8 <= fc < 8 /\ -8 <= fr < 8 /\ -8 <= tc < 8 /\ -8 <= tr < 8)
      /\ make_move s (fc, fr, tc, tr) = Raise IndexError).
Proof.
  intros Hwf. unfold make_move.
  destruct (board_get_wrap (board s) fr fc Hwf) as [Gin Gout].
  destruct (Z_le_dec (-8) fr) as [F1|F1];
    [|right; split; [lia|rewrite Gout by lia; reflexivity]].
  destruct (Z_lt_dec fr 8) as [F2|F2];
    [|right; split; [lia|rewrite Gout by lia; reflexivity]].
  destruct (Z_le_dec (-8) fc) as [F3|F3];
    [|right; split; [lia|rewrite Gout by lia; reflexivity]].
  destruct (Z_lt_dec fc 8) as [F4|F4];
    [|right; split; [lia|rewrite Gout by lia; reflexivity]].
  rewrite Gin by lia. cbn [rbind].
  set (piece := cell_at (board s) (fc mod 8) (fr mod 8)).
  destruct (Z_le_dec (-8) tc) as [T1|T1]; [destruct (Z_lt_dec tc 8) as [T2|T2]|].
  - (* the destination file is in range *)
    assert (exists b1,
      (if is_ep_target (en_passant_target s) tc tr
       then board_set (board s) fr tc EMPTY else Ok (board s)) = Ok b1
      /\ wf_board b1) as (b1 & E1 & W1).
    { destruct (is_ep_target _ _ _).
      - destruct (board_set_wrap_ok (board s) fr tc EMPTY Hwf) as (b1 & E & W & _);
          [lia|lia|]. eauto.
      - eauto. }
    rewrite E1. cbn [rbind].
    destruct (board_set_wrap_ok b1 fr fc EMPTY W1) as (b2 & E2 & W2 & _);
      [lia|lia|].
    rewrite E2. cbn [rbind].
    destruct (Z_le_dec (-8) tr) as [R1|R1];
      [destruct (Z_lt_dec tr 8) as [R2|R2]|].
    + destruct (board_set_wrap_ok b2 tr tc piece W2) as (b3 & E3 & W3 & C3);
        [lia|lia|].
      rewrite E3. cbn [rbind]. left. split; [lia|].
      eexists. split; [reflexivity|]. split; [exact W3|exact C3].
    + right. split; [lia|].
      rewrite (proj2 (board_set_wrap b2 tr tc piece W2)) by lia. reflexivity.
    + right. split; [lia|].
      rewrite (proj2 (board_set_wrap b2 tr tc piece W2)) by lia. reflexivity.
  - right. split; [lia|].
    destruct (is_ep_target _ _ _).
    + rewrite (proj2 (board_set_wrap (board s) fr tc EMPTY Hwf)) by lia.
      reflexivity.
    + cbn [rbind].
      destruct (board_set_wrap_ok (board s) fr fc EMPTY Hwf) as (b2 & E2 & W2 & _);
        [lia|lia|].
      rewrite E2. cbn [rbind].
      rewrite (proj2 (board_set_wrap b2 tr tc piece W2)) by lia. reflexivity.
  - right. split; [lia|].
    destruct (is_ep_target _ _ _).
    + rewrite (proj2 (board_set_wrap (board s) fr tc EMPTY Hwf)) by lia.
      reflexivity.
    + cbn [rbind].
      destruct (board_set_wrap_ok (board s) fr fc EMPTY Hwf) as (b2 & E2 & W2 & _);
        [lia|lia|].
      rewrite E2. cbn [rbind].
      rewrite (proj2 (board_set_wrap b2 tr tc piece W2)) by lia. reflexivity.
Qed.

Lemma make_move_index_rule_witness :
  make_move initial_position (0, 1, 0, 8) = Raise IndexError
  /\ exists s', make_move initial_position (0, 1, 0, -1) = Ok s'
                /\ cell_at (board s') 0 7 = WHITE.
Proof.
  split.
  - destruct (make_move_index_rule initial_position 0 1 0 8) as [[H _]|[_ H]].
    + apply wf_boardb_spec. vm_compute. reflexivity.
    + lia.
    + exact H.
  - destruct (make_move_index_rule initial_position 0 1 0 (-1))
      as [[_ (s' & E & _ & C)]|[H _]].
    + apply wf_boardb_spec. vm_compute. reflexivity.
    + exists s'. split; [exact E|exact C].
    + exfalso. apply H. lia.
Defined.

(** Filling the cells of one row. *)
Lemma fill_row_spec (row : Z) (v : ascii) (cols : list Z) :
  0 <= row < 8 -> Forall (fun c => 0 <= c < 8) cols ->
  forall b, wf_board b ->
  exists b',
    fold_left (fun rb col => (b0 <- rb ;; board_set b0 row col v)%result)
      cols (Ok b) = Ok b'
    /\ wf_board b'
    /\ forall c r, 0 <= c < 8 -> 0 <= r < 8 ->
         cell_at b' c r
         = if (r =? row) && existsb (Z.eqb c) cols then v else cell_at b c r.
Proof.
  intros Hrow. induction 1 as [|col cols Hcol _ IH]; intros b Hwf.
  - exists b. split; [reflexivity|]. split; [exact Hwf|].
    intros c r _ _. cbn [existsb]. rewrite andb_false_r. reflexivity.
  - cbn [fold_left rbind].
    destruct (board_set_ok b row col v Hwf Hrow Hcol) as (b1 & E1 & W1 & C1).
    rewrite E1. destruct (IH b1 W1) as (b' & E & W & C).
    exists b'. split; [exact E|]. split; [exact W|].
    intros c r Hc Hr. rewrite (C c r Hc Hr), (C1 c r Hc Hr). cbn [existsb].
    destruct (r =? row), (c =? col), (existsb (Z.eqb c) cols); reflexivity.
Qed.

Lemma existsb_range (c : Z) :
  0 <= c < 8 -> existsb (Z.eqb c) (range BOARD_SIZE) = true.
Proof.
  intros Hc. apply existsb_exists. exists c. split.
  - apply in_range_iff. exact Hc.
  - apply Z.eqb_refl.
Qed.

(** X21.  On an 8x8 board [setup_initial_position] fills row 2 with
    white pawns and row 7 with black pawns and leaves every other cell,
    the side to move, the en-passant target and the history as they
    were: it does not clear the board. *)
Theorem setup_initial_position_cells (s : GameState) :
  wf_board (board s) ->
  exists s',
    setup_initial_position s = Ok s'
    /\ wf_board (board s')
    /\ (forall c r, 0 <= c < 8 -> 0 <= r < 8 ->
          cell_at (board s') c r
          = if r =? 1 then WHITE
            else if r =? 6 then BLACK
            else cell_at (board s) c r)
    /\ current_player s' = current_player s
    /\ en_passant_target s' = en_passant_target s
    /\ move_history s' = move_history s.
Proof.
  intros Hwf. unfold setup_initial_position.
  assert (Hcols : Forall (fun c => 0 <= c < 8) (range BOARD_SIZE))
    by (apply Forall_forall; intros c Hc; apply in_range_iff; exact Hc).
  destruct (fill_row_spec 1 WHITE (range BOARD_SIZE) ltac:(lia) Hcols
              (board s) Hwf) as (b1 & E1 & W1 & C1).
  destruct (fill_row_spec 6 BLACK (range BOARD_SIZE) ltac:(lia) Hcols b1 W1)
    as (b2 & E2 & W2 & C2).
  rewrite E1. cbn [rbind]. rewrite E2. cbn [rbind].
  eexists. split; [reflexivity|]. cbn [board with_board current_player
                                         en_passant_target move_history].
  split; [exact W2|]. split; [|auto].
  intros c r Hc Hr. rewrite (C2 c r Hc Hr), (C1 c r Hc Hr).
  rewrite (existsb_range c Hc), !andb_true_r.
  destruct (Z.eqb_spec r 6), (Z.eqb_spec r 1); try reflexivity. lia.
Qed.

Lemma setup_initial_position_cells_witness :
  exists s',
    setup_initial_position after_e2e4 = Ok s'
    /\ cell_at (board s') 4 3 = cell_at (board after_e2e4) 4 3.
Proof.
  destruct (setup_initial_position_cells after_e2e4)
    as (s' & E & _ & C & _).
  - apply wf_boardb_spec. vm_compute. reflexivity.
  - exists s'. split; [exact E|]. rewrite (C 4 3) by lia. reflexivity.
Defined.

(** X22.  On an 8x8 board [get_all_pieces] lists the squares that hold
    the given colour, each of them once. *)
Theorem get_all_pieces_exact (b : board_t) (color : ascii) :
  wf_board b ->
  NoDup (get_all_pieces b color)
  /\ forall col row,
       In (col, row) (get_all_pieces b color)
       <-> (0 <= col < 8 /\ 0 <= row < 8) /\ cell_at b col row = color.
Proof.
  intros _. split; [apply NoDup_get_all_pieces|].
  intros col row. apply (in_get_all_pieces b color (col, row)).
Qed.

Lemma get_all_pieces_exact_witness :
  NoDup (get_all_pieces (board initial_position) WHITE)
  /\ forall col row,
       In (col, row) (get_all_pieces (board initial_position) WHITE)
       <-> (0 <= col < 8 /\ 0 <= row < 8)
           /\ cell_at (board initial_position) col row = WHITE.
Proof.
  apply (get_all_pieces_exact (board initial_position) WHITE).
  apply wf_boardb_spec. vm_compute. reflexivity.
Defined.

(** X23.  [copy] is a deep copy: for a state object that stands for the
    position [s] it returns a new object that stands for [s] too, made
    of new rows, a new board list and a new history list only, and it
    changes no object that existed before, so the receiver still stands
    for [s]. *)
Theorem copy_is_deep (h : Heap.heap) (self : Heap.loc) (s : GameState) :
  Heap.read_state h self = Some s ->
  exists ns h',
    Heap.copy self h = Ok (ns, h')
    /\ Heap.agree (List.length h) h h'
    /\ Heap.owned (List.length h) h' ns s
    /\ Heap.read_state h' ns = Some s
    /\ Heap.read_state h' self = Some s.
Proof.
  intros H.
  destruct (HeapSteps.copy_spec h self s H) as (ns & h' & E & Hag & Ho).
  exists ns, h'. split; [exact E|]. split; [exact Hag|]. split; [exact Ho|].
  split.
  - eapply HeapSteps.owned_read_state. exact Ho.
  - eapply HeapSteps.read_state_agree; eauto.
Qed.

Lemma copy_is_deep_witness :
  exists ns h',
    Heap.copy 10%nat initial_heap = Ok (ns, h')
    /\ Heap.read_state h' ns = Some initial_position
    /\ Heap.read_state h' 10%nat = Some initial_position.
Proof.
  destruct (copy_is_deep initial_heap 10%nat initial_position)
    as (ns & h' & E & _ & _ & R1 & R2).
  - vm_compute. reflexivity.
  - exists ns, h'. auto.
Defined.

(* ================================================================= *)
(** * The flag [maximizing] *)

Section Flag.
Variable deadline : nat -> bool.

Lemma alpha_beta_loop_flag
    (rec rec' : GameState -> Z -> ext -> ext -> bool -> M ext)
    (state : GameState) (depth : Z) (beta : ext) (mx mx' : bool) :
  (forall st a b f f' self, rec st (depth - 1) a b f self
                            = rec' st (depth - 1) a b f' self) ->
  forall moves best a self,
    alpha_beta_loop rec state depth beta mx moves best a self
    = alpha_beta_loop rec' state depth beta mx' moves best a self.
Proof.
  intros Hrec. induction moves as [|mv moves IH]; intros best a self;
    [reflexivity|].
  cbn [alpha_beta_loop]. unfold bind at 1 3, lift at 1 2.
  destruct (make_move state mv) as [child|e]; [|reflexivity].
  unfold bind at 1 2.
  rewrite (Hrec child (ext_neg beta) (ext_neg a) (negb mx) (negb mx') self).
  destruct (rec' child (depth - 1) (ext_neg beta) (ext_neg a) (negb mx') self)
    as [[r|e] self1]; [|reflexivity].
  destruct (ext_leb beta _); [reflexivity|apply IH].
Qed.

Lemma alpha_beta_fuel_flag (fuel : nat) :
  forall state depth alpha beta mx mx' self,
    alpha_beta_fuel deadline fuel state depth alpha beta mx self
    = alpha_beta_fuel deadline fuel state depth alpha beta mx' self.
Proof.
  induction fuel as [|fuel IH]; intros state depth alpha beta mx mx' self;
    [reflexivity|].
  cbn [alpha_beta_fuel]. unfold alpha_beta_body.
  unfold bind at 1 4, count_node at 1 2. unfold bind at 1 3.
  destruct (should_stop deadline _) as [[stop|e] self1]; [|reflexivity].
  destruct stop; [reflexivity|].
  destruct (is_terminal state) as [is_over winner].
  destruct is_over; [reflexivity|].
  destruct (depth <=? 0); [reflexivity|].
  unfold bind at 1 2, lift at 1 2.
  destruct (order_moves state (generate_moves state)) as [ms|e];
    [|reflexivity].
  apply alpha_beta_loop_flag. intros st a b f f' s. apply IH.
Qed.

(** X24.  The argument [maximizing] of [alpha_beta] is never read:
    the outcome of a call (score or exception, and the engine's state
    afterwards) is the same for both values of the flag. *)
Theorem alpha_beta_ignores_maximizing (state : GameState) (depth : Z)
    (alpha beta : ext) (self : TwoFlagsAI) :
  alpha_beta deadline state depth alpha beta true self
  = alpha_beta deadline state depth alpha beta false self.
Proof. unfold alpha_beta. apply alpha_beta_fuel_flag. Qed.
End Flag.

(* ================================================================= *)
(** * Stopping at the deadline *)

Section Prompt.
Variable deadline : nat -> bool.

Lemma clocked_prompt {A} (self : TwoFlagsAI) (out : result A * TwoFlagsAI) :
  clocked deadline self out -> prompt deadline self out.
Proof.
  unfold clocked, prompt. cbv zeta.
  intros (C & E & _ & L & N & R). repeat split; auto; lia.
Qed.

Lemma prompt_ret {A} (a : A) (self : TwoFlagsAI) :
  prompt deadline self (Ok a, self).
Proof. unfold prompt. cbn [fst snd]. repeat split; lia. Qed.

Lemma prompt_trans {A B} (a : A) (self self1 : TwoFlagsAI)
    (out : result B * TwoFlagsAI) :
  prompt deadline self (Ok a, self1) -> prompt deadline self1 out ->
  prompt deadline self out.
Proof.
  unfold prompt. cbn [fst snd].
  intros (C1 & E1 & L1 & N1 & R1) (C2 & E2 & L2 & N2 & R2).
  split; [congruence|]. split; [congruence|].
  split; [lia|]. split; [lia|].
  destruct (fst out) as [b|e].
  - intros k Hk. destruct (Nat.lt_ge_cases k (clock_reads self1)).
    + apply R1. lia.
    + apply R2. lia.
  - destruct R2 as (-> & k & Ek & Hk & Dk & Hj). split; [reflexivity|].
    exists k. split; [exact Ek|]. split; [lia|]. split; [exact Dk|].
    intros j Hj'. destruct (Nat.lt_ge_cases j (clock_reads self1)).
    + apply R1. lia.
    + apply Hj. lia.
Qed.

(** One reading of the clock. *)
Lemma should_stop_prompt (self : TwoFlagsAI) :
  exists self1,
    should_stop deadline self = (Ok (deadline (clock_reads self)), self1)
    /\ color self1 = color self /\ evaluator self1 = evaluator self
    /\ nodes_searched self1 = nodes_searched self
    /\ clock_reads self1 = S (clock_reads self)
    /\ (deadline (clock_reads self) = false ->
        prompt deadline self (Ok tt, self1)).
Proof.
  eexists. split; [reflexivity|]. cbn [color evaluator nodes_searched
                                         clock_reads].
  split; [reflexivity|]. split; [reflexivity|]. split; [reflexivity|].
  split; [reflexivity|]. intros Hd. unfold prompt.
  cbn [fst snd color evaluator nodes_searched clock_reads].
  split; [reflexivity|]. split; [reflexivity|]. split; [lia|].
  split; [lia|]. intros k Hk.
  replace k with (clock_reads self) by lia. exact Hd.
Qed.

Lemma search_root_loop_prompt (state : GameState) (depth : Z)
    (moves : list move) :
  wf_board (board state) ->
  Forall move_in_bounds moves ->
  forall beta bm best a self,
    prompt deadline self
      (search_root_loop deadline state depth beta moves bm best a self).
Proof.
  intros Hwf. induction 1 as [|mv moves Hmv _ IH]; intros beta bm best a self.
  - apply prompt_ret.
  - cbn [search_root_loop].
    destruct (should_stop_prompt self) as (self1 & E & C1 & E1 & N1 & R1 & P1).
    unfold bind at 1. rewrite E.
    destruct (deadline (clock_reads self)) eqn:Ed.
    + unfold raise, prompt. cbn [fst snd]. rewrite C1, E1, N1, R1.
      repeat split; try lia.
      exists (clock_reads self). repeat split; try lia. exact Ed.
    + eapply prompt_trans; [apply P1; reflexivity|].
      destruct mv as [[[fc fr] tc] tr].
      destruct (make_move_ok state fc fr tc tr Hwf Hmv) as (child & Em & W & _).
      unfold bind at 1, lift at 1. rewrite Em. unfold bind at 1.
      pose proof (proj1 (alpha_beta_clocked deadline child (depth - 1)
                           (ext_neg beta) (ext_neg a) false self1 W)) as Hr.
      apply clocked_prompt in Hr.
      destruct (alpha_beta deadline child (depth - 1) (ext_neg beta)
                  (ext_neg a) false self1) as [[r|e] self2]; [|exact Hr].
      eapply prompt_trans; [exact Hr|].
      destruct (ext_ltb best (ext_neg r)); apply IH.
Qed.

Lemma search_root_prompt (state : GameState) (depth : Z) (self : TwoFlagsAI) :
  wf_board (board state) ->
  prompt deadline self (search_root deadline state depth self).
Proof.
  intros Hwf. unfold search_root.
  pose proof (generate_moves_in_bounds state) as Hgen.
  destruct (order_moves_ok state _ Hwf Hgen) as (ms & Eo & Hperm).
  assert (Hms : Forall move_in_bounds ms).
  { apply Forall_forall. intros m Hm. rewrite Forall_forall in Hgen.
    apply Hgen. eapply Permutation_in; eauto. }
  destruct (generate_moves state) as [|g gs] eqn:Eg; [apply prompt_ret|].
  rewrite <- Eg in *.
  unfold bind at 1, lift at 1. rewrite Eo.
  destruct ms as [|m0 ms'] eqn:Ems.
  { apply Permutation_nil in Hperm. congruence. }
  rewrite <- Ems in *.
  assert (E0 : py_index ms 0 = Ok m0) by (rewrite Ems; reflexivity).
  unfold bind at 1, lift at 1. rewrite E0. unfold bind at 1.
  pose proof (search_root_loop_prompt state depth ms Hwf Hms PosInf m0
                NegInf NegInf self) as Hl.
  destruct (search_root_loop deadline state depth PosInf ms m0 NegInf NegInf
              self) as [[res|e] self1]; [|exact Hl].
  exact Hl.
Qed.

(** One turn of the deepening loop. *)
Lemma deepen_step_prompt (state : GameState) (depth : Z) (bm : move)
    (self : TwoFlagsAI) :
  wf_board (board state) ->
  exists bm' go self',
    deepen_step deadline state depth bm self = (Ok (bm', go), self')
    /\ color self' = color self /\ evaluator self' = evaluator self
    /\ (clock_reads self <= clock_reads self')%nat
    /\ nodes_searched self <= nodes_searched self'
       <= nodes_searched self + Z.of_nat (clock_reads self' - clock_reads self)
    /\ all_but_last deadline self self'
    /\ (go = true ->
        forall k, (clock_reads self <= k < clock_reads self')%nat ->
                  deadline k = false).
Proof.
  intros Hwf. unfold deepen_step.
  destruct (should_stop_prompt self) as (self1 & E & C1 & E1 & N1 & R1 & P1).
  unfold bind at 1. rewrite E.
  destruct (deadline (clock_reads self)) eqn:Ed.
  - exists bm, false, self1. unfold ret. split; [reflexivity|].
    unfold all_but_last. rewrite C1, E1, N1, R1.
    split; [reflexivity|]. split; [reflexivity|]. split; [lia|].
    split; [lia|]. split; [intros k Hk Hk'; lia|discriminate].
  - specialize (P1 eq_refl).
    pose proof (search_root_prompt state depth self1 Hwf) as Hs.
    pose proof (prompt_trans tt self self1 _ P1 Hs) as Ht.
    destruct (search_root deadline state depth self1)
      as [[[mv score]|e] self2].
    + destruct Ht as (C & Ev & L & N & R). cbn [fst snd] in *.
      assert (Hfin : forall go self3,
                color self3 = color self2 -> evaluator self3 = evaluator self2 ->
                nodes_searched self3 = nodes_searched self2 ->
                clock_reads self3 = clock_reads self2 ->
                color self3 = color self /\ evaluator self3 = evaluator self
                /\ (clock_reads self <= clock_reads self3)%nat
                /\ nodes_searched self <= nodes_searched self3
                   <= nodes_searched self
                      + Z.of_nat (clock_reads self3 - clock_reads self)
                /\ all_but_last deadline self self3
                /\ (go = true ->
                    forall k, (clock_reads self <= k < clock_reads self3)%nat ->
                              deadline k = false)).
      { intros go self3 H1 H2 H3 H4. unfold all_but_last.
        rewrite H1, H2, H3, H4.
        split; [assumption|]. split; [assumption|]. split; [lia|].
        split; [lia|]. split.
        - intros k Hk Hk'. apply R. lia.
        - intros _ k Hk. apply R. lia. }
      destruct mv as [m|].
      * unfold bind at 1. unfold bind at 1, set_max_depth at 1, ret at 1.
        destruct (ext_leb _ score); unfold ret;
          eexists _, _, _; (split; [reflexivity|]); apply Hfin; reflexivity.
      * unfold bind at 1, ret at 1.
        destruct (ext_leb _ score); unfold ret;
          eexists _, _, _; (split; [reflexivity|]); apply Hfin; reflexivity.
    + destruct Ht as (C & Ev & L & N & (-> & k & Ek & Hk & Dk & Hj)).
      cbn [fst snd] in *.
      exists bm, false, self2. split; [reflexivity|].
      unfold all_but_last.
      split; [assumption|]. split; [assumption|]. split; [lia|].
      split; [lia|]. split; [|discriminate].
      intros j Hj1 Hj2. apply Hj. lia.
Qed.

Lemma deepen_prompt (state : GameState) (depths : list Z) :
  wf_board (board state) ->
  forall bm self,
    exists bm' self',
      deepen deadline state depths bm self = (Ok bm', self')
      /\ color self' = color self /\ evaluator self' = evaluator self
      /\ (clock_reads self <= clock_reads self')%nat
      /\ nodes_searched self <= nodes_searched self'
         <= nodes_searched self
            + Z.of_nat (clock_reads self' - clock_reads self)
      /\ all_but_last deadline self self'.
Proof.
  intros Hwf. induction depths as [|d rest IH]; intros bm self.
  - exists bm, self. unfold all_but_last. simpl. unfold ret.
    split; [reflexivity|]. split; [reflexivity|]. split; [reflexivity|].
    split; [lia|]. split; [lia|]. intros k Hk Hk'. lia.
  - cbn [deepen].
    destruct (deepen_step_prompt state d bm self Hwf)
      as (bm1 & go & self1 & E & C1 & E1 & L1 & N1 & A1 & G1).
    unfold bind at 1. rewrite E. cbn [fst snd].
    destruct go.
    + destruct (IH bm1 self1) as (bm' & self' & E' & C' & Ev' & L' & N' & A').
      exists bm', self'. split; [exact E'|].
      split; [congruence|]. split; [congruence|]. split; [lia|].
      split; [lia|]. unfold all_but_last in *.
      intros k Hk Hk'. destruct (Nat.lt_ge_cases k (clock_reads self1)).
      * apply G1; [reflexivity|lia].
      * apply A'; lia.
    + exists bm1, self1. unfold ret. split; [reflexivity|].
      split; [assumption|]. split; [assumption|]. split; [lia|].
      split; [lia|]. exact A1.
Qed.

(** X25.  Whatever the clock does, [get_best_move] on an 8x8 position
    returns without raising, leaves the engine's colour and weights
    alone, has counted in [nodes_searched] at most one node for each
    reading of the clock it made, and stops reading the clock at the
    first reading that finds the time used up: every reading but the
    last found time left. *)
Theorem get_best_move_stops_at_deadline (state : GameState)
    (self : TwoFlagsAI) :
  wf_board (board state) ->
  exists r self',
    get_best_move deadline state self = (Ok r, self')
    /\ color self' = color self /\ evaluator self' = evaluator self
    /\ (clock_reads self <= clock_reads self')%nat
    /\ 0 <= nodes_searched self'
       <= Z.of_nat (clock_reads self' - clock_reads self)
    /\ all_but_last deadline self self'.
Proof.
  intros Hwf. unfold get_best_move.
  unfold bind at 1, reset_nodes at 1.
  set (self0 := {| color := color self; evaluator := evaluator self;
                   nodes_searched := 0;
                   max_depth_reached := max_depth_reached self;
                   clock_reads := clock_reads self |}).
  assert (H0 : forall r : option move, exists r' self',
             (Ok r, self0) = (Ok r', self')
             /\ color self' = color self /\ evaluator self' = evaluator self
             /\ (clock_reads self <= clock_reads self')%nat
             /\ 0 <= nodes_searched self'
                <= Z.of_nat (clock_reads self' - clock_reads self)
             /\ all_but_last deadline self self').
  { intros r. exists r, self0. split; [reflexivity|]. subst self0.
    unfold all_but_last.
    cbn [color evaluator nodes_searched clock_reads].
    split; [reflexivity|]. split; [reflexivity|]. split; [lia|].
    split; [lia|]. intros k Hk Hk'. lia. }
  destruct (generate_moves state) as [|m0 [|m1 ms]].
  - apply H0.
  - apply H0.
  - destruct (deepen_prompt state (map (fun d => d + 1) (range 49)) Hwf
                m0 self0) as (bm & self' & E & C & Ev & L & N & A).
    exists (Some bm), self'. unfold bind at 1. rewrite E. unfold ret.
    subst self0. unfold all_but_last in *.
    cbn [color evaluator nodes_searched clock_reads] in *.
    split; [reflexivity|]. split; [assumption|]. split; [assumption|].
    split; [lia|]. split; [lia|]. exact A.
Qed.
End Prompt.

Lemma get_best_move_stops_at_deadline_witness :
  exists r self',
    get_best_move (fun n => (5 <=? n)%nat) initial_position
      (new_TwoFlagsAI WHITE) = (Ok r, self')
    /\ all_but_last (fun n => (5 <=? n)%nat) (new_TwoFlagsAI WHITE) self'.
Proof.
  destruct (get_best_move_stops_at_deadline (fun n => (5 <=? n)%nat)
              initial_position (new_TwoFlagsAI WHITE))
    as (r & self' & E & _ & _ & _ & _ & A).
  - apply wf_boardb_spec. vm_compute. reflexivity.
  - exists r, self'. split; assumption.
Defined.

(* ================================================================= *)
(** * The client's set-up message *)

Lemma split_from_nonempty (s cur : string) :
  cur <> EmptyString -> split_from s cur <> [].
Proof.
  revert cur. induction s as [|c s IH]; intros cur Hcur; cbn [split_from].
  - destruct cur; [congruence|discriminate].
  - destruct (is_space c).
    + destruct cur; [congruence|discriminate].
    + apply IH. destruct cur; discriminate.
Qed.

Lemma contains_prefix (pat s : string) :
  String.prefix pat s = true -> contains pat s = true.
Proof. intros H. destruct s; cbn [contains]; rewrite H; reflexivity. Qed.

(** X26.  A message that starts with [Setup], which is how the client's
    main loop recognises the set-up command, is always handed to
    [setup_from_string]; it has at least one token, so [handle_setup]
    either succeeds with an 8x8 board or raises [ValueError], never
    [IndexError], and never falls back to the initial position. *)
Theorem handle_setup_of_setup_message (msg : string) :
  String.prefix "Setup" msg = true ->
  handle_setup msg = setup_from_string new_GameState msg
  /\ match handle_setup msg with
     | Ok s' => wf_board (board s')
     | Raise e => e = ValueError
     end.
Proof.
  intros Hp. unfold handle_setup. cbv zeta.
  rewrite (contains_prefix _ _ Hp). split; [reflexivity|].
  assert (Hne : str_split msg <> []).
  { destruct msg as [|c rest]; [discriminate|].
    cbn [String.prefix] in Hp.
    destruct (ascii_dec "S" c) as [<-|]; [|discriminate].
    unfold str_split. cbn [split_from].
    change (is_space "S") with false. cbv iota.
    apply split_from_nonempty. discriminate. }
  pose proof (setup_from_string_spec new_GameState msg) as H.
  destruct (setup_from_string new_GameState msg) as [s'|e].
  - destruct H as (_ & _ & W & _). exact W.
  - destruct H as [[_ Hnil]|[He _]]; [contradiction|exact He].
Qed.

Lemma handle_setup_of_setup_message_witness :
  handle_setup "Setup Wa2 Bh7" = setup_from_string new_GameState "Setup Wa2 Bh7".
Proof.
  refine (proj1 (handle_setup_of_setup_message "Setup Wa2 Bh7" _)).
  reflexivity.
Defined.

(* ================================================================= *)
(** * Reading text of any characters *)

Lemma wide_row (b : wide_board) (row : Z) :
  wide_wf b -> 0 <= row < 8 ->
  exists r, py_index b row = Ok r /\ nth_error b (Z.to_nat row) = Some r
            /\ List.length r = 8%nat.
Proof.
  intros [Hlen Hrows] Hrow.
  destruct (py_index_in_range b row) as (r & E & N); [lia|].
  exists r; repeat split; auto.
  rewrite Forall_forall in Hrows. apply Hrows. eapply nth_error_In; eauto.
Qed.

Lemma wide_set_ok (b : wide_board) (row col : Z) (v : Z) :
  wide_wf b -> 0 <= row < 8 -> 0 <= col < 8 ->
  exists b', wide_set b row col v = Ok b' /\ wide_wf b'
    /\ forall c r, 0 <= c < 8 -> 0 <= r < 8 ->
         wide_cell b' c r
         = if (c =? col) && (r =? row) then v else wide_cell b c r.
Proof.
  intros Hwf Hrow Hcol.
  destruct (wide_row b row Hwf Hrow) as (rw & E & N & Hr).
  destruct Hwf as [Hlen Hrows].
  unfold wide_set. rewrite E. simpl.
  rewrite py_setitem_in_range by lia. simpl.
  rewrite py_setitem_in_range by lia.
  eexists; split; [reflexivity|]. split.
  - split.
    + rewrite length_list_update; auto.
    + apply Forall_list_update; auto. rewrite length_list_update; auto.
  - intros c r Hc Hrr. unfold wide_cell.
    set (rw' := list_update rw (Z.to_nat col) v).
    assert (Hlen' : List.length (list_update b (Z.to_nat row) rw') = 8%nat)
      by (rewrite length_list_update; auto).
    destruct (py_index_in_range (list_update b (Z.to_nat row) rw') r)
      as (x & Ex & Nx); [lia|].
    destruct (py_index_in_range b r) as (y & Ey & Ny); [lia|].
    rewrite Ex, Ey. simpl.
    destruct (Z.eqb_spec r row) as [->|Hne].
    + rewrite nth_error_list_update_eq in Nx by lia.
      injection Nx as <-. rewrite N in Ny. injection Ny as <-.
      rewrite andb_true_r.
      destruct (py_index_in_range rw' c) as (x & Ex' & Nx');
        [unfold rw'; rewrite length_list_update; lia|].
      destruct (py_index_in_range rw c) as (y & Ey' & Ny'); [lia|].
      rewrite Ex', Ey'. unfold rw' in Nx'.
      destruct (Z.eqb_spec c col) as [->|Hnc].
      * rewrite nth_error_list_update_eq in Nx' by lia. congruence.
      * rewrite nth_error_list_update_neq in Nx' by lia. congruence.
    + rewrite andb_false_r.
      rewrite nth_error_list_update_neq in Nx by lia.
      rewrite Ny in Nx. injection Nx as <-. reflexivity.
Qed.

Lemma wide_wf_empty : wide_wf empty_wide_board.
Proof. split; [reflexivity|]. repeat constructor. Qed.

Lemma wide_cell_empty (c r : Z) :
  0 <= c < 8 -> 0 <= r < 8 -> wide_cell empty_wide_board c r = ord EMPTY.
Proof.
  intros Hc Hr. coord_cases c; coord_cases r; reflexivity.
Qed.

Lemma chr_w_file (a : Z) :
  0 <= a - ord "a" < 8 -> chr_w (ord "a" + (a - ord "a")) = Ok a.
Proof.
  change (ord "a") with 97. intros H.
  replace (97 + (a - 97)) with a by lia. unfold chr_w.
  replace ((0 <=? a) && (a <? 1114112)) with true; [reflexivity|].
  symmetry. apply andb_true_iff. split; [apply Z.leb_le|apply Z.ltb_lt]; lia.
Qed.

Lemma points_str_rank (v : Z) :
  0 <= v - 1 < 8 -> points (str (v - 1 + 1)) = [48 + v].
Proof.
  intros H. destruct (str_rank (v - 1) H) as (d & S & I & _).
  rewrite S. apply int_of_char_inv in I. destruct I as [I _].
  unfold points. cbn [list_ascii_of_string map]. f_equal. lia.
Qed.

Section TextFacts.
Variable decimal : Z -> option Z.
Variable space : Z -> bool.

(** X19.  [string_to_move] gives [None] exactly for texts shorter
    than four characters and raises [ValueError], and nothing else,
    exactly when [int] rejects the second or the fourth character,
    that is when one of them is not a decimal digit of any script;
    in every other case it returns the move read from the first four
    characters, whatever the first and third characters are and
    whatever follows. *)
Theorem string_to_move_outcome (s : text) :
  match string_to_move_w decimal s with
  | Ok None => (List.length s < 4)%nat
  | Ok (Some m) =>
      exists a b c d rest vb vd,
        s = a :: b :: c :: d :: rest
        /\ decimal b = Some vb /\ decimal d = Some vd
        /\ m = (a - 97, vb - 1, c - 97, vd - 1)
  | Raise e =>
      e = ValueError
      /\ exists a b c d rest,
           s = a :: b :: c :: d :: rest
           /\ (decimal b = None \/ decimal d = None)
  end.
Proof.
  unfold string_to_move_w.
  destruct s as [|a [|b [|c [|d rest]]]]; try (simpl; lia).
  cbn [List.length Nat.ltb Nat.leb text_index nth_error of_option rbind].
  unfold int_of_point.
  destruct (decimal b) as [vb|] eqn:Eb; cbn [rbind].
  - destruct (decimal d) as [vd|] eqn:Ed; cbn [rbind].
    + exists a, b, c, d, rest, vb, vd. repeat split; auto.
    + split; [reflexivity|]. exists a, b, c, d, rest. auto.
  - split; [reflexivity|]. exists a, b, c, d, rest. auto.
Qed.

Lemma string_to_move_w_inv (s : text) (m : move) :
  string_to_move_w decimal s = Ok (Some m) ->
  exists a b c d rest vb vd,
    s = a :: b :: c :: d :: rest
    /\ decimal b = Some vb /\ decimal d = Some vd
    /\ m = (a - ord "a", vb - 1, c - ord "a", vd - 1).
Proof.
  unfold string_to_move_w.
  destruct s as [|a [|b [|c [|d rest]]]]; try (simpl; discriminate).
  cbn [List.length Nat.ltb Nat.leb text_index nth_error of_option rbind].
  unfold int_of_point.
  destruct (decimal b) as [vb|] eqn:Eb; cbn [rbind]; [|discriminate].
  destruct (decimal d) as [vd|] eqn:Ed; cbn [rbind]; [|discriminate].
  intros [= <-]. exists a, b, c, d, rest, vb, vd. auto.
Qed.

(** [int] gives the digits 0 to 9 of ASCII their value. *)
Hypothesis decimal_ascii : forall c, 48 <= c <= 57 -> decimal c = Some (c - 48).

(** X7.  Whenever [string_to_move] reads from a text a move that lies
    within the board, the first and third characters are file
    letters a to h, the second and fourth are decimal digits of
    value 1 to 8 (of any script), and [move_to_string] gives back the
    first four characters with each digit written in ASCII; so it
    gives back the first four characters themselves when the two
    digits are ASCII digits.  Whatever follows them was ignored. *)
Theorem string_to_move_roundtrip (s : text) (m : move) :
  string_to_move_w decimal s = Ok (Some m) -> move_in_bounds m ->
  exists a b c d rest vb vd,
    s = a :: b :: c :: d :: rest
    /\ decimal b = Some vb /\ decimal d = Some vd
    /\ ord "a" <= a <= ord "h" /\ ord "a" <= c <= ord "h"
    /\ 1 <= vb <= 8 /\ 1 <= vd <= 8
    /\ move_to_string_w m = Ok [a; ord "0" + vb; c; ord "0" + vd]
    /\ (ord "0" <= b <= ord "9" -> ord "0" <= d <= ord "9" ->
        move_to_string_w m = Ok [a; b; c; d]).
Proof.
  intros Hs Hm.
  destruct (string_to_move_w_inv s m Hs)
    as (a & b & c & d & rest & vb & vd & -> & Eb & Ed & ->).
  destruct Hm as (Ha & Hb & Hc & Hd).
  exists a, b, c, d, rest, vb, vd.
  assert (Hmv : move_to_string_w (a - ord "a", vb - 1, c - ord "a", vd - 1)
                = Ok [a; ord "0" + vb; c; ord "0" + vd]).
  { unfold move_to_string_w.
    rewrite (chr_w_file a Ha), (chr_w_file c Hc). cbn [rbind].
    rewrite (points_str_rank vb Hb), (points_str_rank vd Hd).
    reflexivity. }
  change (ord "a") with 97 in *. change (ord "h") with 104.
  change (ord "0") with 48 in *. change (ord "9") with 57.
  repeat split; auto; try lia.
  intros Rb Rd.
  rewrite (decimal_ascii b Rb) in Eb. rewrite (decimal_ascii d Rd) in Ed.
  injection Eb as <-. injection Ed as <-. rewrite Hmv.
  replace (48 + (b - 48)) with b by lia.
  replace (48 + (d - 48)) with d by lia. reflexivity.
Qed.

(** One token. *)
Lemma place_piece_w_spec (b : wide_board) (t : text) :
  wide_wf b ->
  if token_passes_w decimal t then
    exists b', place_piece_w decimal b t = Ok b' /\ wide_wf b'
      /\ forall c r, 0 <= c < 8 -> 0 <= r < 8 ->
           wide_cell b' c r = match token_paints_w decimal t c r with
                              | Some color => color
                              | None => wide_cell b c r
                              end
  else place_piece_w decimal b t = Raise ValueError.
Proof.
  intros Hwf. unfold place_piece_w, token_passes_w, token_paints_w.
  destruct t as [|color [|f [|d rest]]];
    try (exists b; split; [reflexivity|]; split; [exact Hwf|reflexivity]).
  cbn [List.length Nat.leb text_index nth_error of_option rbind].
  unfold int_of_point.
  destruct (decimal d) as [v|]; [|reflexivity].
  cbn [rbind]. change (ord "a") with 97.
  destruct ((0 <=? f - 97) && (f - 97 <? 8)
            && (0 <=? v - 1) && (v - 1 <? 8)) eqn:E.
  - rewrite !andb_true_iff, !Z.leb_le, !Z.ltb_lt in E.
    destruct (wide_set_ok b (v - 1) (f - 97) color Hwf)
      as (b' & E' & W' & C'); [lia|lia|].
    exists b'. split; [exact E'|]. split; [exact W'|].
    intros c r Hc Hr. rewrite (C' c r Hc Hr).
    rewrite (Z.eqb_sym c), (Z.eqb_sym r).
    destruct (_ && _); reflexivity.
  - exists b. split; [reflexivity|]. split; [exact Hwf|].
    intros c r Hc Hr.
    destruct ((f - 97 =? c) && (v - 1 =? r)) eqn:E2; [|reflexivity].
    rewrite andb_true_iff, !Z.eqb_eq in E2. destruct E2 as [<- <-].
    exfalso. rewrite <- not_true_iff_false in E. apply E.
    rewrite !andb_true_iff, !Z.leb_le, !Z.ltb_lt. lia.
Qed.

(** The loop over the tokens. *)
Lemma place_pieces_w_spec (toks : list text) :
  forall b, wide_wf b ->
  if forallb (token_passes_w decimal) toks then
    exists b', place_pieces_w decimal b toks = Ok b' /\ wide_wf b'
      /\ forall c r, 0 <= c < 8 -> 0 <= r < 8 ->
           wide_cell b' c r
           = fold_left (fun acc t => match token_paints_w decimal t c r with
                                     | Some color => color
                                     | None => acc
                                     end) toks (wide_cell b c r)
  else place_pieces_w decimal b toks = Raise ValueError.
Proof.
  induction toks as [|t toks IH]; intros b Hwf.
  - exists b. split; [reflexivity|]. split; [exact Hwf|reflexivity].
  - cbn [forallb place_pieces_w fold_left].
    pose proof (place_piece_w_spec b t Hwf) as Ht.
    destruct (token_passes_w decimal t); cbn [andb].
    + destruct Ht as (b1 & E1 & W1 & C1). rewrite E1. cbn [rbind].
      specialize (IH b1 W1).
      destruct (forallb (token_passes_w decimal) toks).
      * destruct IH as (b' & E' & W' & C'). exists b'.
        split; [exact E'|]. split; [exact W'|].
        intros c r Hc Hr. rewrite (C' c r Hc Hr), (C1 c r Hc Hr).
        reflexivity.
      * exact IH.
    + rewrite Ht. reflexivity.
Qed.

(** X8.  [setup_from_string] raises [IndexError] exactly when the
    text has no token, and [ValueError] exactly when [int] rejects
    the third character of some token of three or more characters
    (the leading [Setup] apart), that is when that character is not a
    decimal digit of any script.  Otherwise it succeeds: the board it
    assigns is 8x8, each cell holds the first character of the last
    token whose second and third characters name it (whatever that
    character is), and is empty when no token names it. *)
Theorem setup_from_string_outcome (setup_str : text) :
  match setup_from_string_w decimal space setup_str with
  | Ok b =>
      str_split_w space setup_str <> []
      /\ forallb (token_passes_w decimal) (setup_tokens_w space setup_str)
         = true
      /\ wide_wf b
      /\ (forall c r, 0 <= c < 8 -> 0 <= r < 8 ->
            wide_cell b c r
            = painted_w decimal (setup_tokens_w space setup_str) c r)
  | Raise e =>
      (e = IndexError /\ str_split_w space setup_str = [])
      \/ (e = ValueError /\ str_split_w space setup_str <> []
          /\ forallb (token_passes_w decimal)
               (setup_tokens_w space setup_str) = false)
  end.
Proof.
  unfold setup_from_string_w, setup_tokens_w. cbv zeta.
  destruct (str_split_w space setup_str) as [|p0 rest]; [left; auto|].
  change (py_index (p0 :: rest) 0) with (Ok p0). cbn [rbind].
  change (if text_eqb p0 (points "Setup") then tl (p0 :: rest)
          else p0 :: rest)
    with (if text_eqb p0 (points "Setup") then rest else p0 :: rest).
  set (toks := if text_eqb p0 (points "Setup") then rest else p0 :: rest).
  pose proof (place_pieces_w_spec toks empty_wide_board wide_wf_empty) as H.
  destruct (forallb (token_passes_w decimal) toks).
  - destruct H as (b' & E & W & C). rewrite E.
    split; [discriminate|]. split; [reflexivity|]. split; [exact W|].
    intros c r Hc Hr. unfold painted_w.
    rewrite (C c r Hc Hr), (wide_cell_empty c r Hc Hr). reflexivity.
  - rewrite H. right. split; [reflexivity|].
    split; [discriminate|reflexivity].
Qed.
End TextFacts.

Lemma unicode_decimal_ascii (c : Z) :
  48 <= c <= 57 -> unicode_decimal c = Some (c - 48).
Proof.
  intros H. unfold unicode_decimal, digit_zeros. cbn [find].
  replace ((48 <=? c) && (c <=? 48 + 9)) with true; [reflexivity|].
  symmetry. apply andb_true_iff. split; apply Z.leb_le; lia.
Qed.

(** The digit three of the Arabic script, U+0663, is read as a rank
    like the digit 3, and written back as the digit 3. *)
Example string_to_move_arabic_digit :
  string_to_move_w unicode_decimal [101; 1635; 101; 52] = Ok (Some (4, 2, 4, 3))
  /\ move_to_string_w (4, 2, 4, 3) = Ok [101; 51; 101; 52].
Proof. split; reflexivity. Qed.

Lemma string_to_move_roundtrip_witness :
  exists a b c d rest vb vd,
    [101; 1635; 101; 52; 32] = a :: b :: c :: d :: rest
    /\ unicode_decimal b = Some vb /\ unicode_decimal d = Some vd
    /\ move_to_string_w (4, 2, 4, 3) = Ok [a; ord "0" + vb; c; ord "0" + vd].
Proof.
  destruct (string_to_move_roundtrip unicode_decimal unicode_decimal_ascii
              [101; 1635; 101; 52; 32] (4, 2, 4, 3))
    as (a & b & c & d & rest & vb & vd & H1 & H2 & H3 & _ & _ & _ & _ & H4 & _).
  - vm_compute. reflexivity.
  - simpl. lia.
  - exists a, b, c, d, rest, vb, vd. auto.
Defined.

(* ================================================================= *)
(** * The strings of characters below 256 among the texts

    On a text whose characters all lie below 256 the functions on code
    points do what the functions on strings do. *)

Lemma ord_inj (a b : ascii) : ord a = ord b -> a = b.
Proof.
  intros H. rewrite <- (ascii_of_ord a), <- (ascii_of_ord b), H. reflexivity.
Qed.

Lemma points_inj (s t : string) : points s = points t -> s = t.
Proof.
  revert t. induction s as [|a s IH]; intros [|b t]; try discriminate;
    [reflexivity|].
  unfold points. cbn [list_ascii_of_string map]. intros [= Hab Hst].
  apply ord_inj in Hab. subst b. f_equal. apply IH. exact Hst.
Qed.

Lemma points_app (s t : string) :
  points (s ++ t) = points s ++ points t.
Proof.
  unfold points. induction s as [|a s IH]; [reflexivity|].
  cbn [String.append list_ascii_of_string map app]. rewrite IH. reflexivity.
Qed.

Lemma points_length (s : string) : List.length (points s) = String.length s.
Proof.
  unfold points. induction s as [|a s IH]; [reflexivity|].
  cbn [list_ascii_of_string map List.length String.length]. rewrite IH.
  reflexivity.
Qed.

Lemma points_index (s : string) (i : nat) :
  text_index (points s) i
  = match str_index s i with Ok a => Ok (ord a) | Raise e => Raise e end.
Proof.
  unfold text_index, str_index, points. revert i.
  induction s as [|a s IH]; intros [|i]; try reflexivity.
  cbn [list_ascii_of_string map nth_error String.get]. apply IH.
Qed.

Lemma text_eqb_points (s t : string) :
  text_eqb (points s) (points t) = String.eqb s t.
Proof.
  unfold text_eqb.
  destruct (list_eq_dec Z.eq_dec (points s) (points t)) as [E|E].
  - apply points_inj in E. subst t. symmetry. apply String.eqb_refl.
  - symmetry. apply String.eqb_neq. intros ->. apply E. reflexivity.
Qed.

Lemma py_index_map {A B} (f : A -> B) (l : list A) (i : Z) :
  py_index (map f l) i
  = match py_index l i with Ok x => Ok (f x) | Raise e => Raise e end.
Proof.
  unfold py_index. rewrite length_map. cbv zeta.
  destruct ((0 <=? i) && (i <? Z.of_nat (List.length l))).
  - rewrite nth_error_map. destruct (nth_error l _); reflexivity.
  - destruct ((- Z.of_nat (List.length l) <=? i) && (i <? 0)); [|reflexivity].
    rewrite nth_error_map. destruct (nth_error l _); reflexivity.
Qed.

Lemma list_update_map {A B} (f : A -> B) (l : list A) (k : nat) (x : A) :
  list_update (map f l) k (f x) = map f (list_update l k x).
Proof.
  revert k. induction l as [|y l IH]; intros [|k]; try reflexivity.
  cbn [map list_update]. rewrite IH. reflexivity.
Qed.

Lemma py_setitem_map {A B} (f : A -> B) (l : list A) (i : Z) (x : A) :
  py_setitem (map f l) i (f x)
  = match py_setitem l i x with Ok l' => Ok (map f l') | Raise e => Raise e end.
Proof.
  unfold py_setitem. rewrite length_map. cbv zeta.
  destruct ((0 <=? i) && (i <? Z.of_nat (List.length l))).
  - rewrite list_update_map. reflexivity.
  - destruct ((- Z.of_nat (List.length l) <=? i) && (i <? 0)); [|reflexivity].
    rewrite list_update_map. reflexivity.
Qed.

Lemma wide_set_widen (b : board_t) (row col : Z) (v : ascii) :
  wide_set (widen b) row col (ord v)
  = match board_set b row col v with
    | Ok b' => Ok (widen b')
    | Raise e => Raise e
    end.
Proof.
  unfold wide_set, board_set, widen. rewrite py_index_map.
  destruct (py_index b row) as [r|e]; [|reflexivity]. cbn [rbind].
  rewrite py_setitem_map.
  destruct (py_setitem r col v) as [r'|e]; [|reflexivity]. cbn [rbind].
  apply (py_setitem_map (map ord)).
Qed.

Section Latin1.
Variable decimal : Z -> option Z.
Variable space : Z -> bool.

(** Below 256 the decimal digits are the digits 0 to 9 of ASCII, and
    the white space is [is_space]. *)
Hypothesis decimal_latin1 : forall a : ascii,
    decimal (ord a) = if is_digit a then Some (ord a - 48) else None.
Hypothesis space_latin1 : forall a : ascii, space (ord a) = is_space a.

Lemma int_of_char_point (a : ascii) :
  int_of_point decimal (ord a) = int_of_char a.
Proof.
  unfold int_of_point. rewrite decimal_latin1, int_of_char_digit.
  destruct (is_digit a); reflexivity.
Qed.

(** [string_to_move] on strings is [string_to_move] on their code
    points. *)
Lemma string_to_move_points (s : string) :
  string_to_move_w decimal (points s) = string_to_move s.
Proof.
  unfold string_to_move_w, string_to_move. rewrite points_length.
  destruct (String.length s <? 4)%nat; [reflexivity|].
  rewrite !points_index.
  destruct (str_index s 0) as [c0|e]; [|reflexivity]. cbn [rbind].
  destruct (str_index s 1) as [c1|e]; [|reflexivity]. cbn [rbind].
  rewrite int_of_char_point.
  destruct (int_of_char c1) as [d1|e]; [|reflexivity]. cbn [rbind].
  destruct (str_index s 2) as [c2|e]; [|reflexivity]. cbn [rbind].
  destruct (str_index s 3) as [c3|e]; [|reflexivity]. cbn [rbind].
  rewrite int_of_char_point.
  destruct (int_of_char c3) as [d3|e]; reflexivity.
Qed.

Lemma split_from_points (s cur : string) :
  split_from_w space (points s) (points cur) = map points (split_from s cur).
Proof.
  revert cur. induction s as [|c s IH]; intros cur.
  - destruct cur; reflexivity.
  - change (points (String c s)) with (ord c :: points s).
    cbn [split_from_w split_from]. rewrite space_latin1.
    destruct (is_space c).
    + rewrite map_app. change (@nil Z) with (points EmptyString).
      rewrite IH. destruct cur; reflexivity.
    + change [ord c] with (points (String c EmptyString)).
      rewrite <- points_app. apply IH.
Qed.

Lemma place_piece_points (b : board_t) (t : string) :
  place_piece_w decimal (widen b) (points t)
  = match place_piece b t with
    | Ok b' => Ok (widen b')
    | Raise e => Raise e
    end.
Proof.
  unfold place_piece_w, place_piece. rewrite points_length.
  destruct (3 <=? String.length t)%nat; [|reflexivity].
  rewrite !points_index.
  destruct (str_index t 0) as [color|e]; [|reflexivity]. cbn [rbind].
  destruct (str_index t 1) as [c1|e]; [|reflexivity]. cbn [rbind].
  destruct (str_index t 2) as [c2|e]; [|reflexivity]. cbn [rbind].
  rewrite int_of_char_point.
  destruct (int_of_char c2) as [d|e]; [|reflexivity]. cbn [rbind].
  destruct (_ && _); [apply wide_set_widen|reflexivity].
Qed.

Lemma place_pieces_points (ts : list string) :
  forall b,
    place_pieces_w decimal (widen b) (map points ts)
    = match place_pieces b ts with
      | Ok b' => Ok (widen b')
      | Raise e => Raise e
      end.
Proof.
  induction ts as [|t ts IH]; intros b; [reflexivity|].
  cbn [map place_pieces_w place_pieces]. rewrite place_piece_points.
  destruct (place_piece b t) as [b1|e]; [|reflexivity]. cbn [rbind].
  apply IH.
Qed.

(** [setup_from_string] on strings is [setup_from_string] on their
    code points. *)
Lemma setup_from_string_points (st : GameState) (s : string) :
  setup_from_string_w decimal space (points s)
  = match setup_from_string st s with
    | Ok st' => Ok (widen (board st'))
    | Raise e => Raise e
    end.
Proof.
  unfold setup_from_string_w, setup_from_string, str_split_w, str_split.
  cbv zeta. change (@nil Z) with (points EmptyString).
  rewrite split_from_points.
  destruct (split_from s EmptyString) as [|p0 rest]; [reflexivity|].
  cbn [map]. change (py_index (points p0 :: map points rest) 0)
    with (Ok (points p0)).
  change (py_index (p0 :: rest) 0) with (Ok p0). cbn [rbind tl].
  rewrite text_eqb_points.
  change empty_wide_board with (widen empty_board).
  destruct (String.eqb p0 "Setup").
  - rewrite place_pieces_points.
    destruct (place_pieces empty_board rest); reflexivity.
  - change (points p0 :: map points rest) with (map points (p0 :: rest)).
    rewrite place_pieces_points.
    destruct (place_pieces empty_board (p0 :: rest)); reflexivity.
Qed.
End Latin1.

(** [move_to_string] on strings is [move_to_string] on code points,
    whenever its characters lie below 256. *)
Lemma move_to_string_points (m : move) (txt : string) :
  move_to_string m = Ok txt -> move_to_string_w m = Ok (points txt).
Proof.
  destruct m as [[[fc fr] tc] tr]. unfold move_to_string, move_to_string_w.
  assert (Hchr : forall n a, chr n = Ok a -> chr_w n = Ok (ord a)).
  { intros n a. unfold chr, chr_w.
    destruct ((0 <=? n) && (n <? 256)) eqn:E.
    - intros [= <-]. apply andb_true_iff in E.
      rewrite Z.leb_le, Z.ltb_lt in E.
      replace ((0 <=? n) && (n <? 1114112)) with true
        by (symmetry; apply andb_true_iff; split;
            [apply Z.leb_le|apply Z.ltb_lt]; lia).
      f_equal. unfold ord. rewrite N_ascii_embedding.
      + rewrite Z2N.id by lia. reflexivity.
      + apply N2Z.inj_lt. rewrite Z2N.id by lia. exact (proj2 E).
    - destruct ((0 <=? n) && (n <? 1114112)); [intros [=]|].
      destruct ((-2147483648 <=? n) && (n <? 2147483648)); intros [=]. }
  destruct (chr (ord "a" + fc)) as [c1|e] eqn:E1; [|discriminate].
  destruct (chr (ord "a" + tc)) as [c2|e] eqn:E2; [|discriminate].
  cbn [rbind]. intros [= <-].
  rewrite (Hchr _ _ E1), (Hchr _ _ E2). cbn [rbind].
  change (points (String c1 (str (fr + 1) ++ String c2 (str (tr + 1)))))
    with (ord c1 :: points (str (fr + 1) ++ String c2 (str (tr + 1)))).
  rewrite points_app. reflexivity.
Qed.

(** The tables of Unicode 14.0 are the ASCII digits and [is_space]
    below 256. *)
Lemma unicode_decimal_latin1 (a : ascii) :
  unicode_decimal (ord a) = if is_digit a then Some (ord a - 48) else None.
Proof.
  destruct a as [[] [] [] [] [] [] [] []]; vm_compute; reflexivity.
Qed.

Lemma unicode_space_latin1 (a : ascii) : unicode_space (ord a) = is_space a.
Proof.
  destruct a as [[] [] [] [] [] [] [] []]; vm_compute; reflexivity.
Qed.
